(** * Lead-qualification engine: a shallow embedding of [qualifier_engine.py]

    The development follows the layout of the Python module: text helpers,
    the JSON decoder the engine relies on, the configuration loader, the
    normalizer and the classifiers, the scoring and decision functions, and
    the batch processor.  Module-level globals of the Python code (caches,
    configuration tables) are explicit arguments or fields of a world state.

    Characters are the 256 code points U+0000..U+00FF (the type [ascii]);
    Python's character classes are given on that range. *)

From Stdlib Require Import ZArith NArith Ascii String List Bool Lia.
From stdpp Require Import base option gmap strings list.

Set Warnings "-register-all".

Local Open Scope Z_scope.

(* ================================================================== *)
(** * Python [str] operations *)
(* ================================================================== *)

Module PyStr.

Definition code (c : ascii) : N := N_of_ascii c.

Definition in_range (lo hi : N) (c : ascii) : bool :=
  ((lo <=? code c) && (code c <=? hi))%N.

Definition is_code (n : N) (c : ascii) : bool := (code c =? n)%N.

(** The double-quote character, U+0022. *)
Definition dquote : ascii := "034"%char.
Definition newline : ascii := "010"%char.

(** [str.isspace] on one character: TAB..CR, FS..US, SPACE, NEL, NBSP. *)
Definition isspace (c : ascii) : bool :=
  in_range 9 13 c || in_range 28 32 c || is_code 133 c || is_code 160 c.

(** [str.isalnum() or c == '_'], the class [\w] of [re] on [str] patterns. *)
Definition isword (c : ascii) : bool :=
  in_range 48 57 c || in_range 65 90 c || in_range 97 122 c || is_code 95 c
  || is_code 170 c || is_code 178 c || is_code 179 c || is_code 181 c
  || is_code 185 c || is_code 186 c || in_range 188 190 c
  || in_range 192 214 c || in_range 216 246 c || in_range 248 255 c.

Definition lower_char (c : ascii) : ascii :=
  if in_range 65 90 c || in_range 192 214 c || in_range 216 222 c
  then ascii_of_N (code c + 32) else c.

(** [s.lower()] *)
Fixpoint lower (s : string) : string :=
  match s with
  | EmptyString => EmptyString
  | String c r => String (lower_char c) (lower r)
  end.

Definition is_empty (s : string) : bool :=
  match s with EmptyString => true | _ => false end.

Fixpoint lstrip (s : string) : string :=
  match s with
  | EmptyString => EmptyString
  | String c r => if isspace c then lstrip r else s
  end.

Fixpoint rstrip (s : string) : string :=
  match s with
  | EmptyString => EmptyString
  | String c r =>
      let r' := rstrip r in
      if isspace c && is_empty r' then EmptyString else String c r'
  end.

(** [s.strip()] *)
Definition strip (s : string) : string := rstrip (lstrip s).

(** [s.startswith(p)] *)
Fixpoint startswith (p s : string) : bool :=
  match p, s with
  | EmptyString, _ => true
  | String a p', String b s' =>
      if ascii_dec a b then startswith p' s' else false
  | String _ _, EmptyString => false
  end.

(** [sub in s] on two strings. *)
Fixpoint contains (sub s : string) : bool :=
  startswith sub s ||
  match s with
  | EmptyString => false
  | String _ r => contains sub r
  end.

(** [any(k in s for k in ks)] *)
Definition any_in (ks : list string) (s : string) : bool :=
  existsb (fun k => contains k s) ks.

(** [x in [k1, k2, ...]] for a string [x] and a list of strings. *)
Definition mem (x : string) (ks : list string) : bool :=
  existsb (String.eqb x) ks.

Fixpoint replace_empty (new s : string) : string :=
  match s with
  | EmptyString => new
  | String c r => new +:+ String c (replace_empty new r)
  end.

(** Left-to-right scan of [s.replace(old, new)] for a non-empty [old];
    [skip] counts the characters of a match still to be dropped. *)
Fixpoint replace_go (old new : string) (skip : nat) (s : string) : string :=
  match s with
  | EmptyString => EmptyString
  | String c r =>
      match skip with
      | S k => replace_go old new k r
      | O =>
          if startswith old s
          then new +:+ replace_go old new (String.length old - 1) r
          else String c (replace_go old new 0 r)
      end
  end.

(** [s.replace(old, new)] *)
Definition replace (old new s : string) : string :=
  if is_empty old then replace_empty new s else replace_go old new 0 s.

Definition is_digit (c : ascii) : bool := in_range 48 57 c.

Definition digit_val (c : ascii) : Z := Z.of_N (code c) - 48.

(** Value of a string of decimal digits, most significant first. *)
Fixpoint digits_val (acc : Z) (s : string) : Z :=
  match s with
  | EmptyString => acc
  | String c r => digits_val (10 * acc + digit_val c) r
  end.

Definition digit_char (d : Z) : ascii := ascii_of_N (Z.to_N (48 + d)).

(** Decimal digits of a natural number, [fuel] bounding their count. *)
Fixpoint digits_of (fuel : nat) (n : Z) (acc : string) : string :=
  match fuel with
  | O => acc
  | S f =>
      let acc' := String (digit_char (n mod 10)) acc in
      if n <? 10 then acc' else digits_of f (n / 10) acc'
  end.

(** [str(n)] for a Python [int]. *)
Definition str_of_Z (n : Z) : string :=
  let a := Z.abs n in
  let ds := digits_of (S (Z.to_nat (Z.log2 a))) a EmptyString in
  if n <? 0 then String "-" ds else ds.

End PyStr.

(* ================================================================== *)
(** * Python values and the JSON decoder *)
(* ================================================================== *)

(** Exceptions the engine can raise on ill-shaped values. *)
Inductive exn : Type := KeyError | TypeError | AttributeError.

Inductive result (A : Type) : Type :=
| Ok (a : A)
| Raise (e : exn).
Arguments Ok {A} a.
Arguments Raise {A} e.

(** The values [json.loads] produces, which are also the values the caches
    and records of the engine hold: [None], [bool], [int], [float], [str],
    [list] and [dict] (insertion-ordered, keys unique).  A float read from a
    document is kept as the decimal [m * 10^e] it was written as. *)
Inductive pyval : Type :=
| PNone
| PBool (b : bool)
| PInt (z : Z)
| PFloat (m e : Z)
| PNaN
| PInf (neg : bool)
| PStr (s : string)
| PList (l : list pyval)
| PDict (d : list (string * pyval)).

Module PyVal.
Import PyStr.

Definition dict := list (string * pyval).

(** [d.get(k)] *)
Fixpoint get (k : string) (d : dict) : option pyval :=
  match d with
  | [] => None
  | (k', v) :: r => if String.eqb k k' then Some v else get k r
  end.

(** [d[k] = v]: the position of an existing key is kept. *)
Fixpoint set (k : string) (v : pyval) (d : dict) : dict :=
  match d with
  | [] => [(k, v)]
  | (k', v') :: r =>
      if String.eqb k k' then (k, v) :: r else (k', v') :: set k v r
  end.

Definition keys (d : dict) : list string := map fst d.

(** A decimal [m * 10^e] that [float] rounds to zero: magnitude at most
    [2^-1075], half the least subnormal. *)
Definition float_is_zero (m e : Z) : bool :=
  (m =? 0) || ((e <? 0) && (Z.abs m * 2 ^ 1075 <=? 10 ^ (- e))).

(** Truth value of a Python object. *)
Definition truthy (v : pyval) : bool :=
  match v with
  | PNone => false
  | PBool b => b
  | PInt z => negb (z =? 0)
  | PFloat m e => negb (float_is_zero m e)
  | PNaN => true
  | PInf _ => true
  | PStr s => negb (is_empty s)
  | PList l => match l with [] => false | _ => true end
  | PDict d => match d with [] => false | _ => true end
  end.

(** [v == k] for a string literal [k]. *)
Definition eq_str (v : pyval) (k : string) : bool :=
  match v with
  | PStr s => String.eqb s k
  | _ => false
  end.

(** [v in [k1, k2, ...]] for string literals. *)
Definition in_strs (v : pyval) (ks : list string) : bool :=
  existsb (eq_str v) ks.

(** [k in v] for a string literal [k]. *)
Definition contains_key (k : string) (v : pyval) : result bool :=
  match v with
  | PDict d => Ok (match get k d with Some _ => true | None => false end)
  | PStr s => Ok (contains k s)
  | PList l => Ok (existsb (fun x => eq_str x k) l)
  | _ => Raise TypeError
  end.

(** [v[k]] for a string literal [k]. *)
Definition subscript (v : pyval) (k : string) : result pyval :=
  match v with
  | PDict d => match get k d with Some x => Ok x | None => Raise KeyError end
  | _ => Raise TypeError
  end.

End PyVal.

Module Json.
Import PyStr PyVal.

(** The decoder's whitespace: space, TAB, LF, CR. *)
Definition is_ws (c : ascii) : bool :=
  is_code 32 c || is_code 9 c || is_code 10 c || is_code 13 c.

Fixpoint skip_ws (s : string) : string :=
  match s with
  | EmptyString => EmptyString
  | String c r => if is_ws c then skip_ws r else s
  end.

Fixpoint take_digits (s : string) : string * string :=
  match s with
  | EmptyString => (EmptyString, EmptyString)
  | String c r =>
      if is_digit c
      then let '(ds, rest) := take_digits r in (String c ds, rest)
      else (EmptyString, s)
  end.

Definition hex_val (c : ascii) : option Z :=
  if is_digit c then Some (digit_val c)
  else if in_range 97 102 c then Some (Z.of_N (code c) - 87)
  else if in_range 65 70 c then Some (Z.of_N (code c) - 55)
  else None.

Definition unescape (c : ascii) : option ascii :=
  if is_code 34 c then Some dquote
  else if is_code 92 c then Some "\"%char
  else if is_code 47 c then Some "/"%char
  else if is_code 98 c then Some "008"%char
  else if is_code 102 c then Some "012"%char
  else if is_code 110 c then Some "010"%char
  else if is_code 114 c then Some "013"%char
  else if is_code 116 c then Some "009"%char
  else None.

(** Body of a string literal, after the opening quote; strict mode:
    a raw control character is an error.  An escape [\uXXXX] above
    U+00FF has no image in [ascii]: such documents lie outside this
    model and are rejected here. *)
Fixpoint scan_string (s : string) : option (string * string) :=
  match s with
  | EmptyString => None
  | String c r =>
      if is_code 34 c then Some (EmptyString, r)
      else if is_code 92 c then
        match r with
        | EmptyString => None
        | String e r1 =>
            if is_code 117 e then
              match r1 with
              | String h1 (String h2 (String h3 (String h4 r2))) =>
                  match hex_val h1, hex_val h2, hex_val h3, hex_val h4 with
                  | Some a, Some b, Some c', Some d =>
                      let n := ((a * 16 + b) * 16 + c') * 16 + d in
                      if n <=? 255 then
                        match scan_string r2 with
                        | Some (t, rest) =>
                            Some (String (ascii_of_N (Z.to_N n)) t, rest)
                        | None => None
                        end
                      else None
                  | _, _, _, _ => None
                  end
              | _ => None
              end
            else
              match unescape e with
              | Some ch =>
                  match scan_string r1 with
                  | Some (t, rest) => Some (String ch t, rest)
                  | None => None
                  end
              | None => None
              end
        end
      else if (code c <? 32)%N then None
      else
        match scan_string r with
        | Some (t, rest) => Some (String c t, rest)
        | None => None
        end
  end.

(** Integer part of a number: [0|[1-9][0-9]*]. *)
Definition scan_int (s : string) : option (string * string) :=
  match s with
  | EmptyString => None
  | String c r =>
      if is_code 48 c then Some (String c EmptyString, r)
      else if is_digit c then Some (take_digits s)
      else None
  end.

(** Fraction [\.[0-9]+], absent when no digit follows the point. *)
Definition scan_frac (s : string) : string * string :=
  match s with
  | String c r =>
      if is_code 46 c then
        let '(ds, rest) := take_digits r in
        if is_empty ds then (EmptyString, s) else (ds, rest)
      else (EmptyString, s)
  | EmptyString => (EmptyString, s)
  end.

(** Exponent [[eE][-+]?[0-9]+], absent when no digit follows. *)
Definition scan_exp (s : string) : option Z * string :=
  match s with
  | String c r =>
      if is_code 101 c || is_code 69 c then
        let '(neg, r1) :=
          match r with
          | String sg r' =>
              if is_code 45 sg then (true, r')
              else if is_code 43 sg then (false, r')
              else (false, r)
          | EmptyString => (false, r)
          end in
        let '(ds, rest) := take_digits r1 in
        if is_empty ds then (None, s)
        else (Some (if neg then - digits_val 0 ds else digits_val 0 ds), rest)
      else (None, s)
  | EmptyString => (None, s)
  end.

(** [NUMBER_RE]: an integer literal is a Python [int], one with a
    fraction or an exponent a [float]. *)
Definition scan_number (s : string) : option (pyval * string) :=
  let '(neg, s1) :=
    match s with
    | String c r => if is_code 45 c then (true, r) else (false, s)
    | EmptyString => (false, s)
    end in
  match scan_int s1 with
  | None => None
  | Some (ip, r1) =>
      let '(fp, r2) := scan_frac r1 in
      let '(ex, r3) := scan_exp r2 in
      let sign z := if neg then - z else z in
      match is_empty fp, ex with
      | true, None => Some (PInt (sign (digits_val 0 ip)), r3)
      | _, _ =>
          let m := digits_val 0 (ip +:+ fp) in
          let e := default 0 ex - Z.of_nat (String.length fp) in
          Some (PFloat (sign m) e, r3)
      end
  end.

(** The rest of [s] after the prefix [w], if it starts with it. *)
Fixpoint after_prefix (w s : string) : option string :=
  match w, s with
  | EmptyString, _ => Some s
  | String a w', String b s' =>
      if ascii_dec a b then after_prefix w' s' else None
  | String _ _, EmptyString => None
  end.

(** One of the literal names, with the value it stands for. *)
Definition literal (w : string) (v : pyval) (s : string)
  : option (pyval * string) :=
  match after_prefix w s with
  | Some rest => Some (v, rest)
  | None => None
  end.

(** [scan_once], with the object and array loops.  A value consumes at
    least one character and the array loop hands its text on unchanged, so
    fuel above twice the length of the text never runs out. *)
Fixpoint scan_once (fuel : nat) (s : string) : option (pyval * string) :=
  match fuel with
  | O => None
  | S f =>
      match s with
      | EmptyString => None
      | String c r =>
          if is_code 34 c then
            match scan_string r with
            | Some (t, rest) => Some (PStr t, rest)
            | None => None
            end
          else if is_code 123 c then
            match skip_ws r with
            | String c1 r1 =>
                if is_code 125 c1 then Some (PDict [], r1)
                else scan_members f [] (String c1 r1)
            | EmptyString => None
            end
          else if is_code 91 c then
            match skip_ws r with
            | String c1 r1 =>
                if is_code 93 c1 then Some (PList [], r1)
                else scan_elements f [] (String c1 r1)
            | EmptyString => None
            end
          else
            match literal "null" PNone s with
            | Some x => Some x
            | None =>
            match literal "true" (PBool true) s with
            | Some x => Some x
            | None =>
            match literal "false" (PBool false) s with
            | Some x => Some x
            | None =>
            match scan_number s with
            | Some x => Some x
            | None =>
            match literal "NaN" PNaN s with
            | Some x => Some x
            | None =>
            match literal "Infinity" (PInf false) s with
            | Some x => Some x
            | None => literal "-Infinity" (PInf true) s
            end end end end end end
      end
  end
(** Members of an object; [s] stands at the quote opening a key. *)
with scan_members (fuel : nat) (acc : dict) (s : string)
  : option (pyval * string) :=
  match fuel with
  | O => None
  | S f =>
      match s with
      | String q r =>
          if is_code 34 q then
            match scan_string r with
            | None => None
            | Some (k, r1) =>
                match skip_ws r1 with
                | String col r2 =>
                    if is_code 58 col then
                      match scan_once f (skip_ws r2) with
                      | None => None
                      | Some (v, r3) =>
                          let acc' := PyVal.set k v acc in
                          match skip_ws r3 with
                          | String d r4 =>
                              if is_code 125 d then Some (PDict acc', r4)
                              else if is_code 44 d
                              then scan_members f acc' (skip_ws r4)
                              else None
                          | EmptyString => None
                          end
                      end
                    else None
                | EmptyString => None
                end
            end
          else None
      | EmptyString => None
      end
  end
(** Elements of an array; [s] stands at the start of a value. *)
with scan_elements (fuel : nat) (acc : list pyval) (s : string)
  : option (pyval * string) :=
  match fuel with
  | O => None
  | S f =>
      match scan_once f s with
      | None => None
      | Some (v, r1) =>
          match skip_ws r1 with
          | String d r2 =>
              if is_code 93 d then Some (PList (acc ++ [v]), r2)
              else if is_code 44 d
              then scan_elements f (acc ++ [v]) (skip_ws r2)
              else None
          | EmptyString => None
          end
      end
  end.

(** [json.loads(s)]: [None] stands for the [JSONDecodeError]. *)
Definition loads (s : string) : option pyval :=
  match scan_once (S (2 * String.length s)) (skip_ws s) with
  | Some (v, rest) => if is_empty (skip_ws rest) then Some v else None
  | None => None
  end.

End Json.

(* ================================================================== *)
(** * JSON repair helper *)
(* ================================================================== *)

Module Repair.
Import PyStr.

(** Longest prefix of [s] that ends in a closing brace. *)
Fixpoint upto_last_close (s : string) : option string :=
  match s with
  | EmptyString => None
  | String c r =>
      match upto_last_close r with
      | Some t => Some (String c t)
      | None => if is_code 125 c then Some (String c EmptyString) else None
      end
  end.

(** [re.search(r"\{[\s\S]*\}", text)]: the match, from the first opening
    brace to the last closing brace after it. *)
Fixpoint search_braces (s : string) : option string :=
  match s with
  | EmptyString => None
  | String c r =>
      if is_code 123 c then
        match upto_last_close r with
        | Some t => Some (String c t)
        | None => None
        end
      else search_braces r
  end.

(** The substitutions of the last attempt. *)
Definition fixed (text : string) : string :=
  strip
    (replace ", ]" "]"
       (replace ",}" "}"
          (replace (String newline EmptyString) " "
             (replace "'" (String dquote EmptyString) text)))).

(** [repair_json(text)]; Python's [None] is both the failure value and
    the value of the document [null]. *)
Definition repair_json (text : option string) : pyval :=
  match text with
  | None => PNone
  | Some text =>
      if is_empty text then PNone
      else
        match Json.loads text with
        | Some v => v
        | None =>
            let second :=
              match search_braces text with
              | Some m => Json.loads m
              | None => None
              end in
            match second with
            | Some v => v
            | None =>
                match Json.loads (fixed text) with
                | Some v => v
                | None => PNone
                end
            end
        end
  end.

End Repair.

(* ================================================================== *)
(** * Files and the configuration loader *)
(* ================================================================== *)

Module Files.

(** What a path of the disk (a map from paths) holds: text, or bytes
    [read_text] cannot decode. *)
Inductive content : Type :=
| Text (s : string)
| Undecodable.

(** [load_json(path)] *)
Definition load_json (disk : gmap string content) (path : string) : pyval :=
  match disk !! path with
  | Some (Text s) =>
      match Json.loads s with
      | Some v => v
      | None => PDict []
      end
  | Some Undecodable => PDict []
  | None => PDict []
  end.

Section Loader.
(** [json.dumps(obj, indent=2)], left abstract. *)
Variable dumps : pyval -> string.

(** [save_json(path, obj)] *)
Definition save_json (disk : gmap string content) (path : string)
    (obj : pyval) : gmap string content :=
  <[path := Text (dumps obj)]> disk.

(** [CONFIG_DIR / f"{name}.json"], relative to the module directory. *)
Definition config_path (name : string) : string :=
  "config/" +:+ name +:+ ".json".

(** [_load_config(name, default)]: the value returned and the disk
    afterwards.  [load_json] never raises, so the handler that would
    return [default] is never entered. *)
Definition _load_config (disk : gmap string content) (name : string)
    (default : pyval) : pyval * gmap string content :=
  let p := config_path name in
  match disk !! p with
  | None => (default, save_json disk p default)
  | Some _ => (load_json disk p, disk)
  end.
End Loader.

Definition DEFAULT_REVENUE_MAPPING : pyval :=
  PDict [("ranges",
          PList [PStr "<5M"; PStr "5M-50M"; PStr "50M-500M";
                 PStr "500M-1B"; PStr ">1B"])].

End Files.

(* ================================================================== *)
(** * Normalizer and the game-role gate *)
(* ================================================================== *)

Module Normalizer.
Import PyStr.

Definition first_char (s : string) : option ascii :=
  match s with
  | String c _ => Some c
  | EmptyString => None
  end.

Fixpoint last_char (s : string) : option ascii :=
  match s with
  | EmptyString => None
  | String c EmptyString => Some c
  | String _ r => last_char r
  end.

Fixpoint drop_chars (n : nat) (s : string) : string :=
  match n, s with
  | O, _ => s
  | S k, String _ r => drop_chars k r
  | S _, EmptyString => EmptyString
  end.

Definition wordlike (c : option ascii) : bool :=
  match c with
  | Some c => isword c
  | None => false
  end.

(** [\b] between two neighbouring positions. *)
Definition boundary (prev next : option ascii) : bool :=
  xorb (wordlike prev) (wordlike next).

(** The alternatives of the seniority pattern, in the order written. *)
Definition level_words : list string :=
  ["senior"; "sr"; "lead"; "principal"; "ii"; "iii"; "iv"; "jr"; "junior";
   "mid"; "intern"; "internship"].

(** Length of the first alternative that matches at the head of [s] and
    is followed by [\b]. *)
Fixpoint match_level (ws : list string) (s : string) : option nat :=
  match ws with
  | [] => None
  | w :: ws' =>
      if startswith w s
         && boundary (last_char w) (first_char (drop_chars (String.length w) s))
      then Some (String.length w)
      else match_level ws' s
  end.

(** [re.sub(r"\b(senior|...|internship)\b", "", t)]; [prev] is the
    character before the scan position, [skip] the rest of a match. *)
Fixpoint strip_levels (prev : option ascii) (skip : nat) (s : string)
  : string :=
  match s with
  | EmptyString => EmptyString
  | String c r =>
      match skip with
      | S k => strip_levels (Some c) k r
      | O =>
          if boundary prev (Some c) then
            match match_level level_words s with
            | Some n => strip_levels (Some c) (n - 1) r
            | None => String c (strip_levels (Some c) 0 r)
            end
          else String c (strip_levels (Some c) 0 r)
      end
  end.

Definition keeps (c : ascii) : bool :=
  in_range 97 122 c || in_range 48 57 c || is_code 32 c.

(** [re.sub(r"[^a-z0-9 ]", " ", t)] *)
Fixpoint blank_others (s : string) : string :=
  match s with
  | EmptyString => EmptyString
  | String c r => String (if keeps c then c else " "%char) (blank_others r)
  end.

(** [re.sub(r"\s+", " ", t)] *)
Fixpoint collapse_ws (in_run : bool) (s : string) : string :=
  match s with
  | EmptyString => EmptyString
  | String c r =>
      if isspace c
      then if in_run then collapse_ws true r
           else String " "%char (collapse_ws true r)
      else String c (collapse_ws false r)
  end.

(** [normalize_text(s)] for a string [s] *)
Definition normalize_text (s : string) : string :=
  collapse_ws false (lower (strip s)).

(** [normalize_title(title)] *)
Definition normalize_title (title : string) : string :=
  if is_empty title then EmptyString
  else
    let t := lower title in
    let t := strip_levels None 0 t in
    let t := blank_others t in
    strip (collapse_ws false t).

Definition game_keywords : list string :=
  ["game"; "unreal"; "unity"; "gameplay"; "designer"; "producer"; "3d";
   "2d"; "artist"; "ui"; "ux"; "vfx"; "fx"; "animator"; "render";
   "graphics"; "engine"; "engineer"; "tools"; "rig"; "rigging";
   "technical art"; "lighting"; "animation"; "pipeline"; "concept";
   "level"; "narrative"; "technical animator"; "technical artist"].

(** [is_game_role(title)] *)
Definition is_game_role (title : string) : bool :=
  any_in game_keywords (normalize_title title).

End Normalizer.

(* ================================================================== *)
(** * Configuration tables *)
(* ================================================================== *)

(** [WEIGHTS]: integer percentages, as in the defaults. *)
Record Weights : Type := {
  w_employees : Z;
  w_revenue : Z;
  w_region : Z;
  w_service : Z;
  w_industry : Z
}.

(** The module-level tables read by the classifiers and the scoring
    functions, as loaded at import time. *)
Record Config : Type := {
  SERVICE_MAPPING : list (string * pyval);
  forced_non_gaming : list string;
  trusted_game_companies : list string;
  GOOD_REGIONS : list string;
  WEIGHTS : Weights;
  SCORE_THRESHOLD : Z;
  TRUSTED_STATS : gmap string pyval
}.

Module Defaults.

Definition pair_of (detailed bucket : string) : pyval :=
  PList [PStr detailed; PStr bucket].

Definition DEFAULT_SERVICE_MAPPING : list (string * pyval) :=
  [("animation", pair_of "Animation" "Art");
   ("animator", pair_of "Animation" "Art");
   ("vfx", pair_of "VFX" "Art");
   ("technical artist", pair_of "Technical Art" "Art");
   ("technical animator", pair_of "Technical Animation" "Art");
   ("engineer", pair_of "Programming" "Co-Dev");
   ("programmer", pair_of "Programming" "Co-Dev");
   ("engine programmer", pair_of "Programming" "Co-Dev");
   ("tools", pair_of "Programming Tools" "Co-Dev");
   ("producer", pair_of "Game Production" "Full");
   ("level designer", pair_of "Game Production" "Full");
   ("design", pair_of "Game Development" "Full");
   ("ui", pair_of "UI/UX" "Art");
   ("ux", pair_of "UI/UX" "Art");
   ("render", pair_of "Rendering" "Co-Dev");
   ("rig", pair_of "Rigging" "Art")].

(** [DEFAULT_REGION_MAPPING]: canonical name, then the terms listed
    for it. *)
Definition DEFAULT_REGION_MAPPING : list (string * list string) :=
  [("united states", ["united states"; "usa"; "us"]);
   ("canada", ["canada"]);
   ("france", ["france"]);
   ("uk", ["uk"; "united kingdom"; "great britain"; "england"]);
   ("germany", ["germany"]);
   ("japan", ["japan"]);
   ("china", ["china"]);
   ("finland", ["finland"]);
   ("sweden", ["sweden"]);
   ("poland", ["poland"]);
   ("australia", ["australia"]);
   ("singapore", ["singapore"]);
   ("india", ["india"])].

Definition DEFAULT_TRUSTED : list string :=
  ["ubisoft"; "epic games"; "riot games"; "cd projekt red"; "bethesda";
   "activision"; "blizzard"; "respawn"; "naughty dog"; "take-two";
   "square enix"; "nintendo"; "playstation"; "scopely";
   "keywords studios"; "gameloft"; "supercell"; "behaviour interactive";
   "dices"; "insomniac"; "rockstar"; "ea"; "sony"; "konami"; "remedy"].

Definition DEFAULT_FORCED_NON_GAMING : list string :=
  ["linkedin"; "tcs"; "infosys"; "deloitte"; "bosch"; "walmart";
   "cognizant"; "accenture"; "capgemini"; "hcl"].

Definition DEFAULT_WEIGHTS : Weights :=
  {| w_employees := 25; w_revenue := 25; w_region := 20;
     w_service := 15; w_industry := 15 |}.

Definition stats (hq emp rev : string) : pyval :=
  PDict [("hq_country", PStr hq); ("employees", PStr emp);
         ("revenue", PStr rev)].

Definition DEFAULT_TRUSTED_STATS : gmap string pyval :=
  <["epic games" := stats "United States" ">20000" ">1B"]>
  (<["ubisoft" := stats "France" ">20000" ">1B"]>
  (<["riot games" := stats "United States" "5000-20000" ">1B"]>
  (<["ea" := stats "United States" ">20000" ">1B"]>
  (<["cd projekt red" := stats "Poland" "5000-20000" "500M-1B"]> ∅)))).

(** The tables of a first run, when no configuration file exists.
    [GOOD_REGIONS] is the lowercased list of the keys of the region
    mapping. *)
Definition default_config : Config :=
  {| SERVICE_MAPPING := DEFAULT_SERVICE_MAPPING;
     forced_non_gaming := DEFAULT_FORCED_NON_GAMING;
     trusted_game_companies := DEFAULT_TRUSTED;
     GOOD_REGIONS := map PyStr.lower (map fst DEFAULT_REGION_MAPPING);
     WEIGHTS := DEFAULT_WEIGHTS;
     SCORE_THRESHOLD := 75;
     TRUSTED_STATS := DEFAULT_TRUSTED_STATS |}.

End Defaults.

(* ================================================================== *)
(** * Scoring and decision *)
(* ================================================================== *)

(** A score is kept in hundredths: the integer [n] stands for the float
    nearest to [n / 100].  The weights are the integers of the
    configuration; fractional weights are not represented.  For weights
    within [moderate] below, the weighted sum is an integer under [2^53],
    which a double holds exactly, and the float operations of the code
    ([/ 100.0], [round(_, 2)], [str], [int], [>=]) give what the
    operations on hundredths give here; beyond that range the double
    rounds, and the two may differ. *)
Module Scoring.
Import PyStr PyVal.

(** [score_employees(emp_range)], in points. *)
Definition score_employees (emp_range : pyval) : Z :=
  if in_strs emp_range ["50-500"; "500-5000"] then 60
  else if in_strs emp_range ["5000-20000"; ">20000"] then 100
  else 0.

(** [score_revenue(rev_range)] *)
Definition score_revenue (rev_range : pyval) : Z :=
  if in_strs rev_range ["50M-500M"] then 60
  else if in_strs rev_range ["500M-1B"; ">1B"] then 100
  else 0.

(** [v.lower()] on a value. *)
Definition lower_of (v : pyval) : result string :=
  match v with
  | PStr s => Ok (lower s)
  | _ => Raise AttributeError
  end.

(** [score_region(hq_country)] *)
Definition score_region (cfg : Config) (hq_country : pyval) : result Z :=
  if negb (truthy hq_country) then Ok 0
  else
    match lower_of hq_country with
    | Raise e => Raise e
    | Ok low => Ok (if any_in (GOOD_REGIONS cfg) low then 100 else 0)
    end.

(** [score_service(bucket)] *)
Definition score_service (bucket : pyval) : Z :=
  if in_strs bucket ["Art"; "Co-Dev"; "Full"] then 100 else 0.

(** [score_industry(ind_ok)] *)
Definition score_industry (ind_ok : pyval) : Z :=
  if truthy ind_ok then 100 else 0.

(** The weighted sum, before the division by [100.0]. *)
Definition weighted_sum (w : Weights) (e r reg s i : Z) : Z :=
  e * w_employees w + r * w_revenue w + reg * w_region w
  + s * w_service w + i * w_industry w.

(** [round(q, 2)] on the exact quotient [q = num / den], for [den > 0],
    in hundredths: the integer nearest to [100 * num / den], the even
    one on a tie. *)
Definition round2 (num den : Z) : Z :=
  let q := (100 * num) / den in
  let r := (100 * num) mod den in
  if 2 * r <? den then q
  else if den <? 2 * r then q + 1
  else if Z.even q then q else q + 1.

(** [weighted_score(emp, rev, hq, bucket, industry_ok)], in hundredths:
    [total] is the weighted sum over [100.0], and [round(total, 2)] is
    returned. *)
Definition weighted_score (cfg : Config)
    (emp rev hq bucket industry_ok : pyval) : result Z :=
  let e := score_employees emp in
  let r := score_revenue rev in
  match score_region cfg hq with
  | Raise x => Raise x
  | Ok reg =>
      let s := score_service bucket in
      let i := score_industry industry_ok in
      Ok (round2 (weighted_sum (WEIGHTS cfg) e r reg s i) 100)
  end.

(** The dictionary [legacy_qualify] returns. *)
Record Verdict : Type := {
  v_decision : string;
  v_reason : string;
  v_confidence : string
}.

(** The dictionary [decide] returns: a verdict with its score. *)
Record Decision : Type := {
  decision : string;
  reason : string;
  confidence : string;
  score : Z
}.

(** [", ".join(reasons)] *)
Fixpoint join (sep : string) (l : list string) : string :=
  match l with
  | [] => EmptyString
  | [x] => x
  | x :: r => x +:+ sep +:+ join sep r
  end.

(** The region test of the legacy gate: the generator calls
    [(hq or "").lower()] once per good region, so an empty region list
    never evaluates it. *)
Definition legacy_region (cfg : Config) (hq : pyval) : result bool :=
  match GOOD_REGIONS cfg with
  | [] => Ok false
  | _ :: _ =>
      match lower_of (if truthy hq then hq else PStr EmptyString) with
      | Raise e => Raise e
      | Ok low => Ok (any_in (GOOD_REGIONS cfg) low)
      end
  end.

Definition emp_ok (emp : pyval) : bool :=
  in_strs emp ["50-500"; "500-5000"; "5000-20000"; ">20000"].
Definition rev_ok (rev : pyval) : bool :=
  in_strs rev ["50M-500M"; "500M-1B"; ">1B"].
Definition bucket_ok (bucket : pyval) : bool := negb (eq_str bucket "None").

(** [legacy_qualify(company, bucket, detailed, hq, emp, rev, industry_pass)] *)
Definition legacy_qualify (cfg : Config) (company : string)
    (bucket detailed hq emp rev industry_pass : pyval) : result Verdict :=
  match legacy_region cfg hq with
  | Raise e => Raise e
  | Ok region =>
      let reasons :=
        [ if emp_ok emp then "employee size ok" else "employee size too small";
          if rev_ok rev then "revenue ok" else "revenue too low";
          if region then "region ok" else "region outside ICP";
          if bucket_ok bucket then "service relevant" else "service mismatch";
          if truthy industry_pass then "gaming industry match"
          else "not gaming industry" ] in
      let pass_flag :=
        emp_ok emp && rev_ok rev && region && bucket_ok bucket
        && truthy industry_pass in
      if pass_flag then
        Ok {| v_decision := "Qualified";
              v_reason := company +:+ " matches ICP (" +:+ join ", " reasons
                          +:+ ").";
              v_confidence := "95%" |}
      else
        Ok {| v_decision := "Not Qualified";
              v_reason := join ", " reasons;
              v_confidence := "75%" |}
  end.

(** [int(score)]: truncation of the float. *)
Definition int_of_score (h : Z) : Z := Z.quot h 100.

(** [str(score)] for a float with at most two decimals: at least one
    digit after the point, no trailing zero beyond it. *)
Definition str_of_score (h : Z) : string :=
  let a := Z.abs h in
  let frac := a mod 100 in
  let decimals :=
    if frac mod 10 =? 0 then str_of_Z (frac / 10)
    else str_of_Z (frac / 10) +:+ str_of_Z (frac mod 10) in
  (if h <? 0 then "-" else "") +:+ str_of_Z (a / 100) +:+ "." +:+ decimals.

(** [score >= SCORE_THRESHOLD] *)
Definition meets (h threshold : Z) : bool := 100 * threshold <=? h.

Definition with_score (v : Verdict) (h : Z) : Decision :=
  {| decision := v_decision v; reason := v_reason v;
     confidence := v_confidence v; score := h |}.

(** [decide(company, bucket, detailed, hq, emp, rev, industry_pass)] *)
Definition decide (cfg : Config) (company : string)
    (bucket detailed hq emp rev industry_pass : pyval) : result Decision :=
  match legacy_qualify cfg company bucket detailed hq emp rev industry_pass with
  | Raise e => Raise e
  | Ok legacy =>
      match weighted_score cfg emp rev hq bucket industry_pass with
      | Raise e => Raise e
      | Ok h =>
          if String.eqb (v_decision legacy) "Qualified"
          then Ok (with_score legacy h)
          else if meets h (SCORE_THRESHOLD cfg) then
            Ok {| decision := "Qualified";
                  reason := company +:+ " passes weighted score ("
                            +:+ str_of_score h +:+ " >= "
                            +:+ str_of_Z (SCORE_THRESHOLD cfg) +:+ ").";
                  confidence := str_of_Z (int_of_score h) +:+ "%";
                  score := h |}
          else Ok (with_score legacy h)
      end
  end.

(** Weights that are percentages: non-negative, with sum 100. *)
Definition percentages (w : Weights) : Prop :=
  0 <= w_employees w /\ 0 <= w_revenue w /\ 0 <= w_region w
  /\ 0 <= w_service w /\ 0 <= w_industry w
  /\ w_employees w + w_revenue w + w_region w + w_service w + w_industry w
     = 100.

(** Weights on which the floats of the code are the decimals held
    here: integers of magnitude at most 10^12.  The weighted sum is then
    an integer below 10^15 in magnitude, which a double holds exactly;
    its quotient by [100.0] is the double nearest to a decimal with at
    most two places and fifteen digits, which [round(_, 2)] returns
    unchanged, [str] prints with these digits, [int] truncates to the
    integer part of the decimal, and [>=] compares with an integer
    threshold as the decimals compare. *)
Definition moderate (w : Weights) : Prop :=
  Z.abs (w_employees w) <= 1000000000000
  /\ Z.abs (w_revenue w) <= 1000000000000
  /\ Z.abs (w_region w) <= 1000000000000
  /\ Z.abs (w_service w) <= 1000000000000
  /\ Z.abs (w_industry w) <= 1000000000000.

(** The five criteria of the legacy gate. *)
Definition five_pass (cfg : Config) (bucket hq emp rev industry_pass : pyval)
  : Prop :=
  emp_ok emp = true /\ rev_ok rev = true
  /\ legacy_region cfg hq = Ok true
  /\ bucket_ok bucket = true /\ truthy industry_pass = true.

End Scoring.

(* ================================================================== *)
(** * The engine: caches, oracle, classifiers, batch processor *)
(* ================================================================== *)

Module Engine.
Import PyStr PyVal Normalizer Scoring.

(** The calls a run makes to its components, recorded for the
    statements about what is and is not invoked. *)
Inductive call : Type :=
| CallClassify (title : string)
| CallCompanyInfo (company : string)
| CallDetect (company title : string)
| CallOracle (prompt : string) (max_tokens : Z).

(** One row of the result table. *)
Record rec : Type := {
  r_company : string;
  r_title : string;
  r_detailed_service : pyval;
  r_service_bucket : pyval;
  r_hq : pyval;
  r_employees : pyval;
  r_revenue : pyval;
  r_industry_match : pyval;
  r_decision : string;
  r_reason : string;
  r_confidence : string;
  r_score : Z;
  r_url : string;
  r_source_index : Z
}.

(** The process-wide state: the three in-memory caches, what the run
    has written to their files ([None]: nothing yet), the partial table,
    the checkpoint and the final table on disk, the locals of
    [process_dataframe], and the calls made so far (latest first).  The
    partial table is held as the records it was written from. *)
Record World : Type := {
  classify_cache : gmap string pyval;
  company_cache : gmap string pyval;
  industry_cache : gmap string pyval;
  classify_file : option (gmap string pyval);
  company_file : option (gmap string pyval);
  industry_file : option (gmap string pyval);
  partial_csv : option (list rec);
  checkpoint_file : option (gset Z);
  output_xlsx : option (list rec);
  processed : gset Z;
  results : list rec;
  seen_urls : gset string;
  calls : list call
}.

Definition set_classify_cache (k : string) (v : pyval) (w : World) : World :=
  {| classify_cache := <[k := v]> (classify_cache w);
     company_cache := company_cache w; industry_cache := industry_cache w;
     classify_file := classify_file w; company_file := company_file w;
     industry_file := industry_file w; partial_csv := partial_csv w;
     checkpoint_file := checkpoint_file w; output_xlsx := output_xlsx w;
     processed := processed w; results := results w;
     seen_urls := seen_urls w; calls := calls w |}.

Definition set_company_cache (k : string) (v : pyval) (w : World) : World :=
  {| classify_cache := classify_cache w;
     company_cache := <[k := v]> (company_cache w);
     industry_cache := industry_cache w;
     classify_file := classify_file w; company_file := company_file w;
     industry_file := industry_file w; partial_csv := partial_csv w;
     checkpoint_file := checkpoint_file w; output_xlsx := output_xlsx w;
     processed := processed w; results := results w;
     seen_urls := seen_urls w; calls := calls w |}.

Definition set_industry_cache (k : string) (v : pyval) (w : World) : World :=
  {| classify_cache := classify_cache w; company_cache := company_cache w;
     industry_cache := <[k := v]> (industry_cache w);
     classify_file := classify_file w; company_file := company_file w;
     industry_file := industry_file w; partial_csv := partial_csv w;
     checkpoint_file := checkpoint_file w; output_xlsx := output_xlsx w;
     processed := processed w; results := results w;
     seen_urls := seen_urls w; calls := calls w |}.

(** [save_json(CLASSIFY_CACHE_FILE, classify_cache)] and its siblings. *)
Definition save_classify (w : World) : World :=
  {| classify_cache := classify_cache w; company_cache := company_cache w;
     industry_cache := industry_cache w;
     classify_file := Some (classify_cache w);
     company_file := company_file w; industry_file := industry_file w;
     partial_csv := partial_csv w; checkpoint_file := checkpoint_file w;
     output_xlsx := output_xlsx w; processed := processed w;
     results := results w; seen_urls := seen_urls w; calls := calls w |}.

Definition save_company (w : World) : World :=
  {| classify_cache := classify_cache w; company_cache := company_cache w;
     industry_cache := industry_cache w; classify_file := classify_file w;
     company_file := Some (company_cache w);
     industry_file := industry_file w;
     partial_csv := partial_csv w; checkpoint_file := checkpoint_file w;
     output_xlsx := output_xlsx w; processed := processed w;
     results := results w; seen_urls := seen_urls w; calls := calls w |}.

Definition save_industry (w : World) : World :=
  {| classify_cache := classify_cache w; company_cache := company_cache w;
     industry_cache := industry_cache w; classify_file := classify_file w;
     company_file := company_file w;
     industry_file := Some (industry_cache w);
     partial_csv := partial_csv w; checkpoint_file := checkpoint_file w;
     output_xlsx := output_xlsx w; processed := processed w;
     results := results w; seen_urls := seen_urls w; calls := calls w |}.

(** [pd.DataFrame(results).to_csv(PARTIAL_CSV)] and
    [save_checkpoint(list(processed))]. *)
Definition save_partial_and_checkpoint (w : World) : World :=
  {| classify_cache := classify_cache w; company_cache := company_cache w;
     industry_cache := industry_cache w; classify_file := classify_file w;
     company_file := company_file w; industry_file := industry_file w;
     partial_csv := Some (results w);
     checkpoint_file := Some (processed w);
     output_xlsx := output_xlsx w; processed := processed w;
     results := results w; seen_urls := seen_urls w; calls := calls w |}.

(** [final_df.to_excel(OUTPUT_XLSX)] *)
Definition save_output (w : World) : World :=
  {| classify_cache := classify_cache w; company_cache := company_cache w;
     industry_cache := industry_cache w; classify_file := classify_file w;
     company_file := company_file w; industry_file := industry_file w;
     partial_csv := partial_csv w; checkpoint_file := checkpoint_file w;
     output_xlsx := Some (results w); processed := processed w;
     results := results w; seen_urls := seen_urls w; calls := calls w |}.

Definition log (c : call) (w : World) : World :=
  {| classify_cache := classify_cache w; company_cache := company_cache w;
     industry_cache := industry_cache w; classify_file := classify_file w;
     company_file := company_file w; industry_file := industry_file w;
     partial_csv := partial_csv w; checkpoint_file := checkpoint_file w;
     output_xlsx := output_xlsx w; processed := processed w;
     results := results w; seen_urls := seen_urls w;
     calls := c :: calls w |}.

(** [processed.add(idx)] *)
Definition add_processed (idx : Z) (w : World) : World :=
  {| classify_cache := classify_cache w; company_cache := company_cache w;
     industry_cache := industry_cache w; classify_file := classify_file w;
     company_file := company_file w; industry_file := industry_file w;
     partial_csv := partial_csv w; checkpoint_file := checkpoint_file w;
     output_xlsx := output_xlsx w; processed := {[idx]} ∪ processed w;
     results := results w; seen_urls := seen_urls w; calls := calls w |}.

(** [results.append(rec)] *)
Definition append_result (r : rec) (w : World) : World :=
  {| classify_cache := classify_cache w; company_cache := company_cache w;
     industry_cache := industry_cache w; classify_file := classify_file w;
     company_file := company_file w; industry_file := industry_file w;
     partial_csv := partial_csv w; checkpoint_file := checkpoint_file w;
     output_xlsx := output_xlsx w; processed := processed w;
     results := results w ++ [r]; seen_urls := seen_urls w;
     calls := calls w |}.

(** [seen_urls.add(url)] *)
Definition add_seen (url : string) (w : World) : World :=
  {| classify_cache := classify_cache w; company_cache := company_cache w;
     industry_cache := industry_cache w; classify_file := classify_file w;
     company_file := company_file w; industry_file := industry_file w;
     partial_csv := partial_csv w; checkpoint_file := checkpoint_file w;
     output_xlsx := output_xlsx w; processed := processed w;
     results := results w; seen_urls := {[url]} ∪ seen_urls w;
     calls := calls w |}.

(** The locals of [process_dataframe] at its start. *)
Definition set_locals (p : gset Z) (rs : list rec) (s : gset string)
    (w : World) : World :=
  {| classify_cache := classify_cache w; company_cache := company_cache w;
     industry_cache := industry_cache w; classify_file := classify_file w;
     company_file := company_file w; industry_file := industry_file w;
     partial_csv := partial_csv w; checkpoint_file := checkpoint_file w;
     output_xlsx := output_xlsx w; processed := p; results := rs;
     seen_urls := s; calls := calls w |}.

(** ** Computations over the world that may raise *)

Definition M (A : Type) : Type := World -> result A * World.

Definition ret {A : Type} (a : A) : M A := fun w => (Ok a, w).

Definition bind {A B : Type} (m : M A) (f : A -> M B) : M B :=
  fun w =>
    match m w with
    | (Ok a, w') => f a w'
    | (Raise e, w') => (Raise e, w')
    end.

(** A pure computation that may raise. *)
Definition lift {A : Type} (r : result A) : M A := fun w => (r, w).

(** A state change. *)
Definition modify (f : World -> World) : M unit := fun w => (Ok tt, f w).

(** A read of the state. *)
Definition gets {A : Type} (f : World -> A) : M A := fun w => (Ok (f w), w).

Declare Scope engine_scope.
Delimit Scope engine_scope with engine.
Notation "x <- m ;; k" := (bind m (fun x => k))
  (at level 100, m at next level, right associativity) : engine_scope.
Notation "m ;;; k" := (bind m (fun _ => k))
  (at level 100, right associativity) : engine_scope.
Local Open Scope engine_scope.

Definition is_oracle_call (c : call) : bool :=
  match c with CallOracle _ _ => true | _ => false end.

Definition oracle_calls (w : World) : nat :=
  length (filter (fun c => is_oracle_call c = true) (calls w)).

Definition nl : string := String newline EmptyString.
Definition qt : string := String dquote EmptyString.

Definition classify_prompt (title : string) : string :=
  nl +:+ "Classify the job title into a JSON with keys:" +:+ nl
  +:+ qt +:+ "detailed_service" +:+ qt +:+ " and " +:+ qt
  +:+ "service_bucket" +:+ qt +:+ " (Art / Co-Dev / Full / None)." +:+ nl
  +:+ "Job Title: " +:+ qt +:+ title +:+ qt +:+ nl.

Definition company_prompt (company : string) : string :=
  nl +:+ "Estimate HQ country, employee range, and revenue range for the company."
  +:+ nl
  +:+ "Employees must be one of: <10, 10-50, 50-500, 500-5000, 5000-20000, >20000"
  +:+ nl
  +:+ "Revenue must be one of: <5M, 5M-50M, 50M-500M, 500M-1B, >1B" +:+ nl
  +:+ "Return STRICT JSON with keys: hq_country, employees, revenue" +:+ nl
  +:+ "Company: " +:+ qt +:+ company +:+ qt +:+ nl.

Definition industry_prompt (company : string) : string :=
  "Does the company '" +:+ company
  +:+ "' operate in game development / publishing or interactive entertainment? Answer YES or NO.".

(** The name heuristics of [detect_industry]. *)
Definition name_tokens : list string :=
  ["games"; "studio"; "interactive"; "entertainment"; "gamedev"; "game";
   "play"; "mobile"].

Definition unknown_service : pyval :=
  PDict [("detailed_service", PStr "Unknown"); ("service_bucket", PStr "None")].

Definition unknown_company : pyval :=
  PDict [("hq_country", PStr "Unknown"); ("employees", PStr "Unknown");
         ("revenue", PStr "Unknown")].

(** [parsed and k1 in parsed and k2 in parsed ...] *)
Fixpoint all_keys (ks : list string) (parsed : pyval) : result bool :=
  match ks with
  | [] => Ok true
  | k :: r =>
      match contains_key k parsed with
      | Raise e => Raise e
      | Ok true => all_keys r parsed
      | Ok false => Ok false
      end
  end.

Definition has_keys (ks : list string) (parsed : pyval) : result bool :=
  if truthy parsed then all_keys ks parsed else Ok false.

(** Insertion by decreasing length, after the keys of equal length:
    [sorted(keys, key=lambda x: -len(x))] is stable. *)
Fixpoint insert_key (k : string) (l : list string) : list string :=
  match l with
  | [] => [k]
  | y :: r =>
      if (String.length k <? String.length y)%nat
      then y :: insert_key k r
      else k :: l
  end.

Definition longest_first (ks : list string) : list string :=
  foldr insert_key [] ks.

(** The value a mapping entry yields, if it has one of the two
    accepted shapes. *)
Definition rule_of (val : pyval) : option pyval :=
  match val with
  | PList (v0 :: v1 :: _) =>
      Some (PDict [("detailed_service", v0); ("service_bucket", v1)])
  | PDict d =>
      Some (PDict [("detailed_service",
                    default (PStr "Unknown") (get "detailed_service" d));
                   ("service_bucket",
                    default (PStr "None") (get "service_bucket" d))])
  | _ => None
  end.

(** The loop of [classify_service_rule] over the sorted keys. *)
Fixpoint first_rule (mapping : list (string * pyval)) (t : string)
    (ks : list string) : option pyval :=
  match ks with
  | [] => None
  | key :: r =>
      if contains key t then
        match get key mapping with
        | Some val =>
            match rule_of val with
            | Some rule => Some rule
            | None => first_rule mapping t r
            end
        | None => first_rule mapping t r
        end
      else first_rule mapping t r
  end.

(** A configured key whose value has one of the two accepted shapes. *)
Definition usable (m : list (string * pyval)) (k : string) : Prop :=
  exists v r, get k m = Some v /\ rule_of v = Some r.

(** A configured key that occurs in the normalized title. *)
Definition matching (m : list (string * pyval)) (t k : string) : Prop :=
  usable m k /\ contains k t = true.

(** An input row, each cell as [str(row.get(...))] gives it; [row_url]
    is [None] when the table has no [url] column. *)
Record Row : Type := {
  row_company : string;
  row_title : string;
  row_url : option string
}.

(** The cleaned cells of a row, as the loop computes them. *)
Definition company_of (row : Row) : string := strip (row_company row).
Definition title_of (row : Row) : string := strip (row_title row).
Definition url_of (row : Row) : string :=
  match row_url row with
  | Some u => strip u
  | None => EmptyString
  end.

(** The row reaches the game-role gate: not processed before, title
    and company present, URL not seen. *)
Definition reaches_gate (idx : Z) (row : Row) (w : World) : Prop :=
  (idx ∉ processed w)
  /\ is_empty (title_of row) = false /\ is_empty (company_of row) = false
  /\ (is_empty (url_of row) = true \/ url_of row ∉ seen_urls w).

Section WithConfig.
Variable cfg : Config.
(** The completion service behind [rate_limited_groq]: the answer to
    the [n]-th request, [None] when the client is absent or every
    retry failed. *)
Variable oracle : nat -> string -> Z -> option string.

(** [classify_service_rule(title)] *)
Definition classify_service_rule (title : string) : option pyval :=
  let t := normalize_title title in
  first_rule (SERVICE_MAPPING cfg) t
    (longest_first (keys (SERVICE_MAPPING cfg))).

(** [rate_limited_groq(prompt, max_tokens)] *)
Definition rate_limited_groq (prompt : string) (max_tokens : Z)
  : M (option string) :=
  fun w =>
    (Ok (strip <$> oracle (oracle_calls w) prompt max_tokens),
     log (CallOracle prompt max_tokens) w).

(** [classify_service(title)] *)
Definition classify_service (title : string) : M pyval :=
  modify (log (CallClassify title)) ;;;
  let key := normalize_title title in
  cached <- gets (fun w => classify_cache w !! key) ;;
  match cached with
  | Some v => ret v
  | None =>
      let rule := classify_service_rule title in
      match rule with
      | Some r =>
          modify (set_classify_cache key r) ;;;
          modify save_classify ;;;
          ret r
      | None =>
          out <- rate_limited_groq (classify_prompt title) 150 ;;
          let parsed := Repair.repair_json out in
          ok <- lift (has_keys ["detailed_service"; "service_bucket"] parsed) ;;
          let v := if ok : bool then parsed else unknown_service in
          modify (set_classify_cache key v) ;;;
          modify save_classify ;;;
          ret v
      end
  end.

(** [get_company_info(company)] *)
Definition get_company_info (company : string) : M pyval :=
  modify (log (CallCompanyInfo company)) ;;;
  let key := strip (lower company) in
  match TRUSTED_STATS cfg !! key with
  | Some v => ret v
  | None =>
      cached <- gets (fun w => company_cache w !! key) ;;
      match cached with
      | Some v => ret v
      | None =>
          out <- rate_limited_groq (company_prompt company) 180 ;;
          let parsed := Repair.repair_json out in
          ok <- lift (has_keys ["hq_country"; "employees"; "revenue"] parsed) ;;
          let v := if ok : bool then parsed else unknown_company in
          modify (set_company_cache key v) ;;;
          modify save_company ;;;
          ret v
      end
  end.

(** [out and "yes" in out.lower()] *)
Definition says_yes (out : option string) : bool :=
  match out with
  | Some s => negb (is_empty s) && contains "yes" (lower s)
  | None => false
  end.

Definition industry_key (company title : string) : string :=
  strip (lower company) +:+ "||" +:+ normalize_title title.

(** [detect_industry(company, title)] *)
Definition detect_industry (company title : string) : M pyval :=
  modify (log (CallDetect company title)) ;;;
  let key := industry_key company title in
  cached <- gets (fun w => industry_cache w !! key) ;;
  match cached with
  | Some v => ret v
  | None =>
      let company_lower := strip (lower company) in
      let answer (b : bool) : M pyval :=
        modify (set_industry_cache key (PBool b)) ;;;
        modify save_industry ;;;
        ret (PBool b) in
      if mem company_lower (forced_non_gaming cfg) then answer false
      else if existsb (fun name => contains name company_lower)
                (trusted_game_companies cfg) then answer true
      else if any_in name_tokens company_lower then answer true
      else
        out <- rate_limited_groq (industry_prompt company) 12 ;;
        answer (says_yes out)
  end.


(** ** Batch processing *)

Definition SAVE_EVERY_N : nat := 50.

(** The record of a row that fails the game-role gate. *)
Definition non_game_rec (company title url : string) (idx : Z) : rec :=
  {| r_company := company; r_title := title;
     r_detailed_service := PStr "Non-Game Role";
     r_service_bucket := PStr "None";
     r_hq := PStr "Unknown"; r_employees := PStr "Unknown";
     r_revenue := PStr "Unknown";
     r_industry_match := PBool false;
     r_decision := "Not Qualified";
     r_reason := "Role not related to game development.";
     r_confidence := "100%"; r_score := 0;
     r_url := url; r_source_index := idx |}.

(** The three writes of a checkpoint: partial table and checkpoint,
    then the caches. *)
Definition save_all (w : World) : World :=
  save_classify (save_industry (save_company
    (save_partial_and_checkpoint w))).

(** [results.append(rec); processed.add(idx); if url: seen_urls.add(url)] *)
Definition emit (r : rec) (idx : Z) (url : string) : M unit :=
  modify (append_result r) ;;;
  modify (add_processed idx) ;;;
  if is_empty url then ret tt else modify (add_seen url).

(** The periodic save that closes the body of the loop. *)
Definition periodic_save (total : nat) : M unit :=
  n <- gets (fun w => size (processed w)) ;;
  if (n mod SAVE_EVERY_N =? 0)%nat || (n =? total)%nat
  then modify save_all else ret tt.

(** The classification of a game-role row, up to its record. *)
Definition classify_row (company title url : string) (idx : Z) : M rec :=
  svc <- classify_service title ;;
  info <- get_company_info company ;;
  industry_pass <- detect_industry company title ;;
  bucket <- lift (subscript svc "service_bucket") ;;
  detailed <- lift (subscript svc "detailed_service") ;;
  hq <- lift (subscript info "hq_country") ;;
  emp <- lift (subscript info "employees") ;;
  rev <- lift (subscript info "revenue") ;;
  dec <- lift (decide cfg company bucket detailed hq emp rev industry_pass) ;;
  (* the default of [dec.get("score", weighted_score(...))] is computed
     before the lookup *)
  lift (weighted_score cfg emp rev hq bucket industry_pass) ;;;
  ret {| r_company := company; r_title := title;
         r_detailed_service := detailed; r_service_bucket := bucket;
         r_hq := hq; r_employees := emp; r_revenue := rev;
         r_industry_match := industry_pass;
         r_decision := decision dec; r_reason := reason dec;
         r_confidence := confidence dec; r_score := score dec;
         r_url := url; r_source_index := idx |}.

(** The body of the [try] for one row that is not yet processed. *)
Definition try_row (total : nat) (idx : Z) (row : Row) : M unit :=
  let company := company_of row in
  let title := title_of row in
  let url := url_of row in
  if is_empty title || is_empty company then modify (add_processed idx)
  else
    seen <- gets seen_urls ;;
    if negb (is_empty url) && bool_decide (url ∈ seen)
    then modify (add_processed idx)
    else
      (if negb (is_game_role title)
       then emit (non_game_rec company title url idx) idx url
       else
         r <- classify_row company title url idx ;;
         emit r idx url) ;;;
      periodic_save total.

(** One iteration of the loop: the skip of processed indices, the
    body, and the handler that saves and goes on. *)
Definition row_step (total : nat) (idx : Z) (row : Row) (w : World) : World :=
  if bool_decide (idx ∈ processed w) then w
  else
    match try_row total idx row w with
    | (Ok _, w') => w'
    | (Raise _, w') => save_all w'
    end.

Fixpoint loop (total : nat) (idx : Z) (rows : list Row) (w : World) : World :=
  match rows with
  | [] => w
  | row :: rest => loop total (idx + 1) rest (row_step total idx row w)
  end.

Definition nonempty_urls (rs : list rec) : list string :=
  filter (fun u => is_empty u = false) (map r_url rs).

(** The start of [process_dataframe]: the checkpoint, then the
    partial table if one can be read.  The records are put back as they
    were written; [pd.read_csv] re-types cells on the way (an empty cell
    comes back as NaN), which is not represented, so that of a run that
    resumes a partial table only what does not depend on the cells of
    the resumed records is stated. *)
Definition resume (w : World) : World :=
  let processed0 := default ∅ (checkpoint_file w) in
  match partial_csv w with
  | Some (r :: rs) =>
      set_locals
        (processed0 ∪ list_to_set (map r_source_index (r :: rs)))
        (r :: rs)
        (list_to_set (nonempty_urls (r :: rs))) w
  | _ => set_locals processed0 [] ∅ w
  end.

(** The writes after the loop. *)
Definition finish (w : World) : World :=
  save_classify (save_industry (save_company
    (save_partial_and_checkpoint (save_output w)))).

(** [process_dataframe(df)]: the world afterwards; the table returned
    is its [results]. *)
Definition process_dataframe (df : list Row) (w : World) : World :=
  finish (loop (length df) 0 df (resume w)).

(** The tuple [run_icp_engine_logic] returns. *)
Record Outcome : Type := {
  o_score : Z;
  o_decision : string;
  o_reason : string;
  o_service_bucket : pyval;
  o_detailed_service : pyval;
  o_hq : pyval;
  o_employees : pyval;
  o_revenue : pyval;
  o_industry : pyval;
  o_confidence : string
}.

(** [run_icp_engine_logic(company, title)] *)
Definition run_icp_engine_logic (company title : string) : M Outcome :=
  if negb (is_game_role title) then
    ret {| o_score := 0; o_decision := "Not Qualified";
           o_reason := "Role not related to game development.";
           o_service_bucket := PStr "None";
           o_detailed_service := PStr "Non-Game Role";
           o_hq := PStr "Unknown"; o_employees := PStr "Unknown";
           o_revenue := PStr "Unknown"; o_industry := PBool false;
           o_confidence := "100%" |}
  else
    svc <- classify_service title ;;
    info <- get_company_info company ;;
    industry_pass <- detect_industry company title ;;
    bucket <- lift (subscript svc "service_bucket") ;;
    detailed <- lift (subscript svc "detailed_service") ;;
    hq <- lift (subscript info "hq_country") ;;
    emp <- lift (subscript info "employees") ;;
    rev <- lift (subscript info "revenue") ;;
    dec <- lift (decide cfg company bucket detailed hq emp rev industry_pass) ;;
    ret {| o_score := score dec; o_decision := decision dec;
           o_reason := reason dec;
           o_service_bucket := bucket; o_detailed_service := detailed;
           o_hq := hq; o_employees := emp; o_revenue := rev;
           o_industry := industry_pass;
           o_confidence := confidence dec |}.

(** The record [run_qualification] appends for a row and its outcome. *)
Definition rec_of (company title url : string) (idx : Z) (o : Outcome) : rec :=
  {| r_company := company; r_title := title;
     r_detailed_service := o_detailed_service o;
     r_service_bucket := o_service_bucket o;
     r_hq := o_hq o; r_employees := o_employees o; r_revenue := o_revenue o;
     r_industry_match := o_industry o;
     r_decision := o_decision o; r_reason := o_reason o;
     r_confidence := o_confidence o; r_score := o_score o;
     r_url := url; r_source_index := idx |}.

(** The loop of [run_qualification] from the row of index [idx], [acc]
    being its list [results]: the cells are used as they are, no row is
    skipped and no exception is handled.  The progress display and the
    pause between rows are left out. *)
Fixpoint qualify_rows (idx : Z) (rows : list Row) (acc : list rec)
  : M (list rec) :=
  match rows with
  | [] => ret acc
  | row :: rest =>
      o <- run_icp_engine_logic (row_company row) (row_title row) ;;
      qualify_rows (idx + 1) rest
        (acc ++ [rec_of (row_company row) (row_title row)
                   (default EmptyString (row_url row)) idx o])
  end.

(** [run_qualification(df)] *)
Definition run_qualification (df : list Row) : M (list rec) :=
  qualify_rows 0 df [].

End WithConfig.

(** A world with empty caches and nothing on disk. *)
Definition fresh : World :=
  {| classify_cache := ∅; company_cache := ∅; industry_cache := ∅;
     classify_file := None; company_file := None; industry_file := None;
     partial_csv := None; checkpoint_file := None; output_xlsx := None;
     processed := ∅; results := []; seen_urls := ∅; calls := [] |}.

End Engine.

(* ================================================================== *)
(** * The request limiter and the retries of [rate_limited_groq] *)
(* ================================================================== *)

(** The engine above sees [rate_limited_groq] through the answer it
    returns.  This module follows its body: the window counter kept in the
    globals [CALLS_IN_WINDOW] and [WINDOW_START], and the loop of four
    attempts.  Clock readings are values of a type [time]; the test
    [now - WINDOW_START >= WINDOW_SEC] is the function [expired]. *)
Module Limiter.
Import PyStr.

Definition RPM_LIMIT : Z := 28.

Section Clock.
Variable time : Type.
Variable expired : time -> time -> bool.

Record Window : Type := {
  CALLS_IN_WINDOW : Z;
  WINDOW_START : time
}.

(** What one attempt meets: the reading [now] taken under the lock, the
    reading [woke] taken after the sleep if the limit was reached, and
    the content of the response, [None] when the request raised. *)
Record Attempt : Type := {
  now : time;
  woke : time;
  reply : option string
}.

(** The body of [with RATE_LOCK]: the window after it, and whether the
    call slept. *)
Definition acquire (a : Attempt) (l : Window) : Window * bool :=
  let l1 :=
    if expired (now a) (WINDOW_START l)
    then {| CALLS_IN_WINDOW := 0; WINDOW_START := now a |}
    else l in
  if RPM_LIMIT <=? CALLS_IN_WINDOW l1
  then ({| CALLS_IN_WINDOW := 0 + 1; WINDOW_START := woke a |}, true)
  else ({| CALLS_IN_WINDOW := CALLS_IN_WINDOW l1 + 1;
           WINDOW_START := WINDOW_START l1 |}, false).

(** The attempts [attempt], [attempt + 1], ... of the loop, [n] of them
    at most: the value returned, the window, and the number of requests
    sent. *)
Fixpoint attempts (env : nat -> Attempt) (n attempt : nat) (l : Window)
  : option string * Window * nat :=
  match n with
  | O => (None, l, O)
  | S n' =>
      let l' := fst (acquire (env attempt) l) in
      match reply (env attempt) with
      | Some content => (Some (strip content), l', 1%nat)
      | None =>
          let '(out, l'', sent) := attempts env n' (S attempt) l' in
          (out, l'', S sent)
      end
  end.

(** [rate_limited_groq(prompt, max_tokens)]; [client] tells whether the
    module holds a client. *)
Definition rate_limited_groq_body (client : bool) (env : nat -> Attempt)
    (l : Window) : option string * Window * nat :=
  if client then attempts env 4 0 l else (None, l, O).

End Clock.

End Limiter.

(* ================================================================== *)
(** * The link cell of the dashboard *)
(* ================================================================== *)

Module Dashboard.
Import PyStr Engine.

(** [make_link(u)] of [dashboard.py], for a URL cell that is a string. *)
Definition make_link (u : string) : string :=
  if is_empty u then EmptyString
  else
    let safe := replace (String dquote EmptyString) "%22" u in
    "<a href=" +:+ String dquote safe +:+ String dquote " target="
    +:+ String dquote "_blank" +:+ String dquote ">open</a>".

(** [df["decision"].str.lower().eq("qualified")], for one row. *)
Definition qualified_flag (r : rec) : bool :=
  String.eqb (lower (r_decision r)) "qualified".

(** [(df["decision"] == "Qualified").sum()] *)
Definition qualified (rs : list rec) : nat :=
  length (filter (fun r => r_decision r = "Qualified") rs).

(** The counts of the pie chart, for the slices Qualified and Not
    Qualified: [[qualified, total - qualified]].  The table of a run
    over no rows is a frame without columns, on which [df["score"]]
    raises before anything is counted. *)
Definition pie_counts (rs : list rec) : result (nat * nat) :=
  match rs with
  | [] => Raise KeyError
  | _ :: _ => Ok (qualified rs, (length rs - qualified rs)%nat)
  end.

End Dashboard.

(* ================================================================== *)
(** * Predicates of the statements and proofs *)
(* ================================================================== *)

Module Invariants.
Import PyStr Engine.

(** Keys in order of decreasing length. *)
Inductive decreasing : list string -> Prop :=
| decreasing_nil : decreasing []
| decreasing_cons (k : string) (l : list string) :
    (forall y, In y l -> (String.length y <= String.length k)%nat) ->
    decreasing l -> decreasing (k :: l).

(** The locals of the batch loop and the files it owns. *)
Definition same_locals (w w' : World) : Prop :=
  processed w' = processed w /\ results w' = results w
  /\ seen_urls w' = seen_urls w.

Definition keeps_locals {A : Type} (m : M A) : Prop :=
  forall w, same_locals w (snd (m w)).

(** No component was called and no cache entry was written. *)
Definition quiet (w w' : World) : Prop :=
  calls w' = calls w /\ classify_cache w' = classify_cache w
  /\ company_cache w' = company_cache w
  /\ industry_cache w' = industry_cache w.

(** What one iteration does to the locals: nothing or a mark when the
    row is skipped or fails, one record when it is classified. *)
Inductive step_kind (idx : Z) (row : Row) (w w' : World) : Prop :=
| step_skipped :
    results w' = results w -> seen_urls w' = seen_urls w ->
    processed w' = processed w \/ processed w' = {[idx]} ∪ processed w ->
    step_kind idx row w w'
| step_emitted (r : rec) :
    reaches_gate idx row w ->
    results w' = results w ++ [r] ->
    r_source_index r = idx -> r_url r = url_of row ->
    processed w' = {[idx]} ∪ processed w ->
    seen_urls w'
    = (if is_empty (url_of row) then seen_urls w
       else {[url_of row]} ∪ seen_urls w) ->
    step_kind idx row w w'.

(** The record stems from the row of its source index. *)
Definition of_table (df : list Row) (r : rec) : Prop :=
  exists (i : nat) (row : Row),
    r_source_index r = Z.of_nat i /\ df !! i = Some row
    /\ r_url r = url_of row.

(** The state of the loop before the row of index [k]. *)
Record loop_inv (df : list Row) (k : nat) (w : World) : Prop := {
  inv_index : forall r, r ∈ results w -> r_source_index r < Z.of_nat k;
  inv_table : forall r, r ∈ results w -> of_table df r;
  inv_seen : forall r, r ∈ results w -> is_empty (r_url r) = false ->
                       r_url r ∈ seen_urls w;
  inv_nodup : NoDup (nonempty_urls (results w));
  inv_processed : forall i, i ∈ processed w -> i < Z.of_nat k
}.

End Invariants.

(** ** Shapes of texts *)

Module Shapes.
Import PyStr.

(** Every character of [s] satisfies [p]. *)
Fixpoint all_chars (p : ascii -> bool) (s : string) : bool :=
  match s with
  | EmptyString => true
  | String c r => p c && all_chars p r
  end.

(** Words separated by one space each; with [prev] set, a word must come
    next: the text is not empty and does not start with a space. *)
Fixpoint tidy (prev : bool) (s : string) : bool :=
  match s with
  | EmptyString => negb prev
  | String c r =>
      if isspace c then is_code 32 c && negb prev && tidy true r
      else tidy false r
  end.

(** As [tidy], but a space may end the text. *)
Fixpoint loose (prev : bool) (s : string) : bool :=
  match s with
  | EmptyString => true
  | String c r =>
      if isspace c then is_code 32 c && negb prev && loose true r
      else loose false r
  end.

(** The text does not end in whitespace; with [prev] set, it is not
    empty either. *)
Fixpoint ends_in_word (prev : bool) (s : string) : bool :=
  match s with
  | EmptyString => negb prev
  | String c r =>
      if isspace c then ends_in_word true r else ends_in_word false r
  end.

End Shapes.

(** ** Criteria and rule keys *)

Module Criteria.
Import PyStr PyVal Engine.

(** The number of signals that score nothing. *)
Definition misses (points : list Z) : nat :=
  length (filter (fun p => p = 0) points).

(** The key occurs in the text and its value has an accepted shape. *)
Definition hit (m : list (string * pyval)) (t k : string) : bool :=
  contains k t
  && match get k m with
     | Some v => match rule_of v with Some _ => true | None => false end
     | None => false
     end.

End Criteria.

(** ** Effects on the caches and shapes of their values *)

Module Effects.
Import PyStr PyVal Engine.

(** Every cache entry of [w] is an entry of [w']. *)
Definition grows (w w' : World) : Prop :=
  classify_cache w ⊆ classify_cache w'
  /\ company_cache w ⊆ company_cache w'
  /\ industry_cache w ⊆ industry_cache w'.

(** From [w] to [w'] the caches have grown and at most [n] requests
    went to the oracle. *)
Definition effect (n : nat) (w w' : World) : Prop :=
  grows w w' /\ (oracle_calls w' <= oracle_calls w + n)%nat.

(** Whatever it returns, the computation has the effect above. *)
Definition bounded {A : Type} (n : nat) (m : M A) : Prop :=
  forall w, effect n w (snd (m w)).

(** A classification with the two keys a row reads. *)
Definition service_shaped (v : pyval) : Prop :=
  exists b d,
    subscript v "service_bucket" = Ok b
    /\ subscript v "detailed_service" = Ok d.

(** A country the scoring functions accept: a string or a false value. *)
Definition country_shaped (hq : pyval) : Prop :=
  truthy hq = false \/ exists s, hq = PStr s.

(** Company statistics with the three keys a row reads. *)
Definition company_shaped (v : pyval) : Prop :=
  exists hq emp rev,
    subscript v "hq_country" = Ok hq /\ subscript v "employees" = Ok emp
    /\ subscript v "revenue" = Ok rev /\ country_shaped hq.

(** A decoded reply that is nothing or an object, its country, if any,
    of an accepted shape. *)
Definition benign (v : pyval) : Prop :=
  v = PNone
  \/ exists d, v = PDict d
       /\ forall hq, get "hq_country" d = Some hq -> country_shaped hq.

Definition benign_oracle (oracle : nat -> string -> Z -> option string)
  : Prop :=
  forall n prompt t, benign (Repair.repair_json (strip <$> oracle n prompt t)).

(** Caches and trusted statistics hold values of the shapes above. *)
Definition well_formed (cfg : Config) (w : World) : Prop :=
  (forall k v, classify_cache w !! k = Some v -> service_shaped v)
  /\ (forall k v, company_cache w !! k = Some v -> company_shaped v)
  /\ (forall k v, TRUSTED_STATS cfg !! k = Some v -> company_shaped v).

Section Answers.
Variable cfg : Config.
Variable oracle : nat -> string -> Z -> option string.

(** The answer [detect_industry] computes when the cache has none,
    and whether the oracle is asked. *)
Definition fresh_answer (company : string) (w : World) : bool * bool :=
  let name := strip (lower company) in
  if mem name (forced_non_gaming cfg) then (false, false)
  else if existsb (fun n => contains n name) (trusted_game_companies cfg)
  then (true, false)
  else if any_in name_tokens name then (true, false)
  else (says_yes (strip <$> oracle (oracle_calls w)
                              (industry_prompt company) 12), true).

End Answers.

End Effects.

(** ** Result tables *)

Module Tables.
Import PyStr Normalizer Engine.

(** Every URL seen is the URL of a record. *)
Definition covered (w : World) : Prop :=
  forall u, u ∈ seen_urls w -> exists r, r ∈ results w /\ r_url r = u.

(** The record is the one of a row of the table: its index, its cleaned
    cells, one of the two decisions, and the fixed record when the title
    fails the gate. *)
Definition faithful (df : list Row) (r : rec) : Prop :=
  exists (i : nat) (row : Row),
    df !! i = Some row /\ r_source_index r = Z.of_nat i
    /\ r_company r = company_of row /\ r_title r = title_of row
    /\ r_url r = url_of row
    /\ is_empty (r_title r) = false /\ is_empty (r_company r) = false
    /\ (r_decision r = "Qualified" \/ r_decision r = "Not Qualified")
    /\ (is_game_role (r_title r) = false ->
        r = non_game_rec (r_company r) (r_title r) (r_url r)
              (r_source_index r)).

(** The record carries one of the two decisions. *)
Definition labelled (r : rec) : Prop :=
  r_decision r = "Qualified" \/ r_decision r = "Not Qualified".

(** Source indices grow along the list. *)
Definition increasing (rs : list rec) : Prop :=
  forall (a b : nat) (ra rb : rec),
    rs !! a = Some ra -> rs !! b = Some rb -> (a < b)%nat ->
    r_source_index ra < r_source_index rb.

(** The batch locals and the files of the batch are as they were. *)
Definition batch_state_kept (w w' : World) : Prop :=
  processed w' = processed w /\ results w' = results w
  /\ seen_urls w' = seen_urls w /\ partial_csv w' = partial_csv w
  /\ checkpoint_file w' = checkpoint_file w
  /\ output_xlsx w' = output_xlsx w.

(** What the loop keeps true of the results before the row of index
    [k]. *)
Definition table_inv (df : list Row) (k : nat) (w : World) : Prop :=
  (forall r, r ∈ results w -> faithful df r)
  /\ (forall r, r ∈ results w -> r_source_index r < Z.of_nat k)
  /\ increasing (results w).

End Tables.

(* ================================================================== *)
(** * Inputs of the examples *)
(* ================================================================== *)

Module Fixtures.
Import PyStr Files Defaults Engine.

(** Prose around a single-quoted object, as a completion service may
    answer. *)
Definition prose_single_quotes : string :=
  "here's your answer: {'detailed_service': 'Art', 'service_bucket': 'Art'} thanks".

Definition art_mapping : pyval :=
  PDict [("detailed_service", PStr "Art"); ("service_bucket", PStr "Art")].

(** A disk whose revenue mapping does not parse. *)
Definition malformed_disk : gmap string content :=
  {[ "config/revenue_mapping.json" := Text "{ranges: [<5M, " ]}.

(** The default tables with every weight set to 100. *)
Definition heavy_config : Config :=
  {| SERVICE_MAPPING := DEFAULT_SERVICE_MAPPING;
     forced_non_gaming := DEFAULT_FORCED_NON_GAMING;
     trusted_game_companies := DEFAULT_TRUSTED;
     GOOD_REGIONS := GOOD_REGIONS default_config;
     WEIGHTS := {| w_employees := 100; w_revenue := 100; w_region := 100;
                   w_service := 100; w_industry := 100 |};
     SCORE_THRESHOLD := 75;
     TRUSTED_STATS := DEFAULT_TRUSTED_STATS |}.

(** A mapping with the two keys of the precedence example, the shorter
    one first. *)
Definition two_keys : Config :=
  {| SERVICE_MAPPING :=
       [("engineer", pair_of "Programming" "Co-Dev");
        ("engine programmer", pair_of "Engine Programming" "Co-Dev")];
     forced_non_gaming := []; trusted_game_companies := [];
     GOOD_REGIONS := []; WEIGHTS := DEFAULT_WEIGHTS; SCORE_THRESHOLD := 75;
     TRUSTED_STATS := ∅ |}.

(** A mapping whose longer key has a value of neither accepted shape. *)
Definition misshapen_keys : Config :=
  {| SERVICE_MAPPING :=
       [("engineer", pair_of "Programming" "Co-Dev");
        ("engine programmer", PStr "Programming")];
     forced_non_gaming := []; trusted_game_companies := [];
     GOOD_REGIONS := []; WEIGHTS := DEFAULT_WEIGHTS; SCORE_THRESHOLD := 75;
     TRUSTED_STATS := ∅ |}.

(** A title in which three default keys occur. *)
Definition three_keys_title : string :=
  "Technical Animator / Engine Programmer / Engineer".

(** An oracle that is unavailable. *)
Definition silent : nat -> string -> Z -> option string := fun _ _ _ => None.

(** A classify cache that holds an earlier fallback answer for the
    title [engineer]. *)
Definition stale_classify : World :=
  set_classify_cache "engineer" unknown_service fresh.

(** A cached verdict for a company of the forced-exclusion list. *)
Definition stale_industry : World :=
  set_industry_cache (industry_key "Deloitte" "Game Designer") (PBool true)
    fresh.

(** An oracle whose every answer is the text 7. *)
Definition reply_seven : nat -> string -> Z -> option string :=
  fun _ _ _ => Some "7".

(** Two rows with the same URL. *)
Definition tester : Row :=
  {| row_company := "Epic Games"; row_title := "Game Tester";
     row_url := Some "http://jobs.example/1" |}.

Definition animator : Row :=
  {| row_company := "Epic Games"; row_title := "Senior Animator";
     row_url := Some "http://jobs.example/1" |}.

(** A state whose checkpoint names the first two rows, with no partial
    table on disk. *)
Definition checkpointed : World :=
  {| classify_cache := ∅; company_cache := ∅; industry_cache := ∅;
     classify_file := None; company_file := None; industry_file := None;
     partial_csv := None; checkpoint_file := Some ({[0]} ∪ {[1]});
     output_xlsx := None; processed := ∅; results := []; seen_urls := ∅;
     calls := [] |}.

End Fixtures.

(* ================================================================== *)
(** * Properties *)
(* ================================================================== *)

(** ** Text helpers *)

Module PyStrFacts.
Import PyStr.

Lemma startswith_refl_app (p s : string) : startswith p (p +:+ s) = true.
Proof.
  induction p as [|c p IH]; simpl; [reflexivity|].
  destruct (ascii_dec c c); [exact IH | congruence].
Qed.

Lemma contains_startswith (p s : string) :
  startswith p s = true -> contains p s = true.
Proof. intros H. destruct s; simpl in *; rewrite H; reflexivity. Qed.

Lemma contains_app_r (p a s : string) :
  contains p s = true -> contains p (a +:+ s) = true.
Proof.
  intros H. induction a as [|c a IH]; [exact H|].
  change (String c a +:+ s) with (String c (a +:+ s)).
  simpl. rewrite IH. apply orb_true_r.
Qed.

Lemma contains_app_mid (p a s : string) : contains p (a +:+ p +:+ s) = true.
Proof. apply contains_app_r, contains_startswith, startswith_refl_app. Qed.

Lemma is_empty_true (s : string) : is_empty s = true <-> s = EmptyString.
Proof. destruct s; simpl; split; congruence. Qed.

Lemma existsb_mem_true (x : string) (ks : list string) :
  mem x ks = true <-> In x ks.
Proof.
  unfold mem. rewrite existsb_exists. split.
  - intros (y & Hy & E). apply String.eqb_eq in E. subst. exact Hy.
  - intros H. exists x. split; [exact H | apply String.eqb_refl].
Qed.

Lemma any_in_true (ks : list string) (s : string) :
  any_in ks s = true <-> exists k, In k ks /\ contains k s = true.
Proof. unfold any_in. apply existsb_exists. Qed.

End PyStrFacts.

(** ** The JSON decoder: progress and fuel *)

Module JsonFacts.
Import PyStr PyVal Json.

Lemma skip_ws_length (s : string) :
  (String.length (skip_ws s) <= String.length s)%nat.
Proof.
  induction s as [|c s IH]; simpl; [lia|].
  destruct (is_ws c); simpl; lia.
Qed.

Lemma take_digits_length (s ds rest : string) :
  take_digits s = (ds, rest) -> (String.length rest <= String.length s)%nat.
Proof.
  revert ds rest. induction s as [|c s IH]; simpl; intros ds rest.
  - intros [= <- <-]. simpl. lia.
  - destruct (is_digit c).
    + destruct (take_digits s) as [ds' rest'] eqn:E. intros [= <- <-].
      specialize (IH _ _ eq_refl). lia.
    + intros [= <- <-]. simpl. lia.
Qed.

Lemma after_prefix_length (w s rest : string) :
  after_prefix w s = Some rest ->
  String.length s = (String.length w + String.length rest)%nat.
Proof.
  revert s. induction w as [|a w IH]; intros [|b s]; simpl;
    try discriminate; try (intros [= <-]; reflexivity).
  destruct (ascii_dec a b); [|discriminate].
  intros H. rewrite (IH _ H). reflexivity.
Qed.

Lemma literal_length (w : string) (v x : pyval) (s rest : string) :
  w <> EmptyString ->
  literal w v s = Some (x, rest) -> (String.length rest < String.length s)%nat.
Proof.
  unfold literal. intros Hw.
  destruct (after_prefix w s) as [r|] eqn:E; [|discriminate].
  intros [= _ <-]. apply after_prefix_length in E.
  destruct w; [congruence|]. simpl in E. lia.
Qed.

Lemma scan_string_length (s t rest : string) :
  scan_string s = Some (t, rest) -> (String.length rest < String.length s)%nat.
Proof.
  assert (H : forall n s t rest, (String.length s <= n)%nat ->
            scan_string s = Some (t, rest) ->
            (String.length rest < String.length s)%nat).
  { clear. induction n as [|n IH]; intros s t rest Hn;
      destruct s as [|c r]; simpl in *; try discriminate; [lia|].
    destruct (is_code 34 c); [intros [= _ <-]; lia|].
    destruct (is_code 92 c).
    - destruct r as [|e r1]; [discriminate|].
      destruct (is_code 117 e).
      + destruct r1 as [|h1 [|h2 [|h3 [|h4 r2]]]]; try discriminate.
        destruct (hex_val h1), (hex_val h2), (hex_val h3), (hex_val h4);
          try discriminate.
        destruct (Z.leb _ 255); [|discriminate].
        destruct (scan_string r2) as [[t' rest']|] eqn:E; [|discriminate].
        intros [= _ <-]. apply IH in E; simpl in *; lia.
      + destruct (unescape e); [|discriminate].
        destruct (scan_string r1) as [[t' rest']|] eqn:E; [|discriminate].
        intros [= _ <-]. apply IH in E; simpl in *; lia.
    - destruct (N.ltb _ 32); [discriminate|].
      destruct (scan_string r) as [[t' rest']|] eqn:E; [|discriminate].
      intros [= _ <-]. apply IH in E; simpl in *; lia. }
  apply (H (String.length s)). lia.
Qed.

Lemma scan_number_length (s : string) (v : pyval) (rest : string) :
  scan_number s = Some (v, rest) -> (String.length rest < String.length s)%nat.
Proof.
  unfold scan_number.
  set (p := match s with
            | String c r => if is_code 45 c then (true, r) else (false, s)
            | EmptyString => (false, s)
            end).
  assert (Hp : (String.length (snd p) <= String.length s)%nat).
  { unfold p. destruct s as [|c r]; simpl; [lia|].
    destruct (is_code 45 c); simpl; lia. }
  destruct p as [neg s1]. simpl in Hp.
  destruct (scan_int s1) as [[ip r1]|] eqn:Ei; [|discriminate].
  assert (H1 : (String.length r1 < String.length s1)%nat).
  { unfold scan_int in Ei. destruct s1 as [|c r]; [discriminate|].
    destruct (is_code 48 c); [injection Ei as _ <-; simpl; lia|].
    destruct (is_digit c) eqn:Ed; [|discriminate].
    injection Ei as Ei. simpl in Ei. rewrite Ed in Ei.
    destruct (take_digits r) as [ds rest'] eqn:Et. injection Ei as _ <-.
    apply take_digits_length in Et. simpl. lia. }
  destruct (scan_frac r1) as [fp r2] eqn:Ef.
  assert (H2 : (String.length r2 <= String.length r1)%nat).
  { unfold scan_frac in Ef. destruct r1 as [|c r]; [injection Ef as _ <-; lia|].
    destruct (is_code 46 c); [|injection Ef as _ <-; lia].
    destruct (take_digits r) as [ds rest'] eqn:Et.
    destruct (is_empty ds); injection Ef as _ <-; [lia|].
    apply take_digits_length in Et. simpl. lia. }
  destruct (scan_exp r2) as [ex r3] eqn:Ee.
  assert (H3 : (String.length r3 <= String.length r2)%nat).
  { unfold scan_exp in Ee. destruct r2 as [|c r]; [injection Ee as _ <-; lia|].
    destruct (_ || _); [|injection Ee as _ <-; lia].
    set (q := match r with
              | String sg r' =>
                  if is_code 45 sg then (true, r')
                  else if is_code 43 sg then (false, r') else (false, r)
              | EmptyString => (false, r)
              end) in Ee.
    assert (Hq : (String.length (snd q) <= String.length r)%nat).
    { unfold q. destruct r as [|sg r']; simpl; [lia|].
      destruct (is_code 45 sg); simpl; [lia|].
      destruct (is_code 43 sg); simpl; lia. }
    destruct q as [ng rr]. simpl in Hq.
    destruct (take_digits rr) as [ds rest'] eqn:Et.
    destruct (is_empty ds); injection Ee as _ <-; [lia|].
    apply take_digits_length in Et. simpl. lia. }
  destruct (is_empty fp), ex; intros [= _ <-]; lia.
Qed.

(** Every successful scan consumes at least one character. *)
Lemma scan_progress (fuel : nat) :
  (forall s v rest, scan_once fuel s = Some (v, rest) ->
                    (String.length rest < String.length s)%nat)
  /\ (forall acc s v rest, scan_members fuel acc s = Some (v, rest) ->
                           (String.length rest < String.length s)%nat)
  /\ (forall acc s v rest, scan_elements fuel acc s = Some (v, rest) ->
                           (String.length rest < String.length s)%nat).
Proof.
  induction fuel as [|f (IH1 & IH2 & IH3)];
    [repeat split; intros; discriminate|].
  repeat split.
  - intros s v rest. simpl. destruct s as [|c r0]; [discriminate|].
    destruct (is_code 34 c).
    { destruct (scan_string r0) as [[t r1]|] eqn:E; [|discriminate].
      intros [= _ <-]. apply scan_string_length in E. simpl. lia. }
    destruct (is_code 123 c).
    { pose proof (skip_ws_length r0) as Hw.
      destruct (skip_ws r0) as [|c1 r1]; [discriminate|].
      destruct (is_code 125 c1); [intros [= _ <-]; simpl in *; lia|].
      intros H. apply IH2 in H. simpl in *. lia. }
    destruct (is_code 91 c).
    { pose proof (skip_ws_length r0) as Hw.
      destruct (skip_ws r0) as [|c1 r1]; [discriminate|].
      destruct (is_code 93 c1); [intros [= _ <-]; simpl in *; lia|].
      intros H. apply IH3 in H. simpl in *. lia. }
    destruct (literal "null" PNone (String c r0)) as [[x r1]|] eqn:E1.
    { intros [= _ <-]. eapply literal_length; [|exact E1]. discriminate. }
    destruct (literal "true" (PBool true) (String c r0)) as [[x r1]|] eqn:E2.
    { intros [= _ <-]. eapply literal_length; [|exact E2]. discriminate. }
    destruct (literal "false" (PBool false) (String c r0)) as [[x r1]|] eqn:E3.
    { intros [= _ <-]. eapply literal_length; [|exact E3]. discriminate. }
    destruct (scan_number (String c r0)) as [[x r1]|] eqn:E4.
    { intros [= _ <-]. eapply scan_number_length; exact E4. }
    destruct (literal "NaN" PNaN (String c r0)) as [[x r1]|] eqn:E5.
    { intros [= _ <-]. eapply literal_length; [|exact E5]. discriminate. }
    destruct (literal "Infinity" (PInf false) (String c r0))
      as [[x r1]|] eqn:E6.
    { intros [= _ <-]. eapply literal_length; [|exact E6]. discriminate. }
    intros H. eapply literal_length; [|exact H]. discriminate.
  - intros acc s v rest. simpl. destruct s as [|q r0]; [discriminate|].
    destruct (is_code 34 q); [|discriminate].
    destruct (scan_string r0) as [[k r1]|] eqn:Ek; [|discriminate].
    apply scan_string_length in Ek.
    pose proof (skip_ws_length r1) as Hw1.
    destruct (skip_ws r1) as [|col r2]; [discriminate|].
    destruct (is_code 58 col); [|discriminate].
    pose proof (skip_ws_length r2) as Hw2.
    destruct (scan_once f (skip_ws r2)) as [[x r3]|] eqn:Ev; [|discriminate].
    apply IH1 in Ev.
    pose proof (skip_ws_length r3) as Hw3.
    destruct (skip_ws r3) as [|d r4]; [discriminate|].
    destruct (is_code 125 d); [intros [= _ <-]; simpl in *; lia|].
    destruct (is_code 44 d); [|discriminate].
    pose proof (skip_ws_length r4) as Hw4.
    intros H. apply IH2 in H. simpl in *. lia.
  - intros acc s v rest. simpl.
    destruct (scan_once f s) as [[x r1]|] eqn:Ev; [|discriminate].
    apply IH1 in Ev.
    pose proof (skip_ws_length r1) as Hw1.
    destruct (skip_ws r1) as [|d r2]; [discriminate|].
    destruct (is_code 93 d); [intros [= _ <-]; simpl in *; lia|].
    destruct (is_code 44 d); [|discriminate].
    pose proof (skip_ws_length r2) as Hw2.
    intros H. apply IH3 in H. simpl in *. lia.
Qed.

(** Fuel above twice the length of the text is as good as any larger
    fuel. *)
Lemma scan_fuel (fuel : nat) :
  forall fuel',
    (forall s, (2 * String.length s < fuel)%nat ->
               (2 * String.length s < fuel')%nat ->
               scan_once fuel s = scan_once fuel' s)
    /\ (forall acc s, (2 * String.length s < fuel)%nat -> (2 * String.length s < fuel')%nat ->
                      scan_members fuel acc s = scan_members fuel' acc s)
    /\ (forall acc s, (2 * String.length s + 1 < fuel)%nat ->
                      (2 * String.length s + 1 < fuel')%nat ->
                      scan_elements fuel acc s = scan_elements fuel' acc s).
Proof.
  induction fuel as [|f IH]; intros [|f'];
    try (repeat split; intros; simpl in *; lia).
  destruct (IH f') as (IH1 & IH2 & IH3).
  destruct (scan_progress f') as (P1 & _ & _).
  repeat split.
  - intros s Hf Hf'. simpl. destruct s as [|c r0]; [reflexivity|].
    simpl in Hf, Hf'.
    destruct (is_code 34 c); [reflexivity|].
    destruct (is_code 123 c).
    { pose proof (skip_ws_length r0) as Hw.
      destruct (skip_ws r0) as [|c1 r1]; [reflexivity|].
      destruct (is_code 125 c1); [reflexivity|].
      apply IH2; simpl in *; lia. }
    destruct (is_code 91 c).
    { pose proof (skip_ws_length r0) as Hw.
      destruct (skip_ws r0) as [|c1 r1]; [reflexivity|].
      destruct (is_code 93 c1); [reflexivity|].
      apply IH3; simpl in *; lia. }
    reflexivity.
  - intros acc s Hf Hf'. simpl. destruct s as [|q r0]; [reflexivity|].
    simpl in Hf, Hf'.
    destruct (is_code 34 q); [|reflexivity].
    destruct (scan_string r0) as [[k r1]|] eqn:Ek; [|reflexivity].
    apply scan_string_length in Ek.
    pose proof (skip_ws_length r1) as Hw1.
    destruct (skip_ws r1) as [|col r2]; [reflexivity|].
    destruct (is_code 58 col); [|reflexivity].
    pose proof (skip_ws_length r2) as Hw2.
    rewrite (IH1 (skip_ws r2)) by (simpl in *; lia).
    destruct (scan_once f' (skip_ws r2)) as [[x r3]|] eqn:Ev; [|reflexivity].
    apply P1 in Ev.
    pose proof (skip_ws_length r3) as Hw3.
    destruct (skip_ws r3) as [|d r4]; [reflexivity|].
    destruct (is_code 125 d); [reflexivity|].
    destruct (is_code 44 d); [|reflexivity].
    pose proof (skip_ws_length r4) as Hw4.
    apply IH2; simpl in *; lia.
  - intros acc s Hf Hf'. simpl.
    rewrite (IH1 s) by lia.
    destruct (scan_once f' s) as [[x r1]|] eqn:Ev; [|reflexivity].
    apply P1 in Ev.
    pose proof (skip_ws_length r1) as Hw1.
    destruct (skip_ws r1) as [|d r2]; [reflexivity|].
    destruct (is_code 93 d); [reflexivity|].
    destruct (is_code 44 d); [|reflexivity].
    pose proof (skip_ws_length r2) as Hw2.
    apply IH3; simpl in *; lia.
Qed.

(** [loads] does not depend on the fuel it gives the scanner. *)
Lemma loads_any_fuel (s : string) (fuel : nat) :
  (2 * String.length s < fuel)%nat ->
  loads s
  = match scan_once fuel (skip_ws s) with
    | Some (v, rest) => if is_empty (skip_ws rest) then Some v else None
    | None => None
    end.
Proof.
  intros H. unfold loads. pose proof (skip_ws_length s) as Hw.
  destruct (scan_fuel (S (2 * String.length s)) fuel) as (E & _ & _).
  rewrite (E (skip_ws s)) by lia. reflexivity.
Qed.

End JsonFacts.

(** ** JSON repair (C3) *)

Module RepairFacts.
Import PyStr Repair Fixtures.

(** The three attempts, one by one. *)
Lemma direct_parse_fails : Json.loads prose_single_quotes = None.
Proof. vm_compute. reflexivity. Qed.

(** The rejections do not come from the fuel of the scanner: the text
    starts with a letter that opens no value, and the extracted object
    with a single quote where a key must open with a double quote. *)
Lemma prose_rejected_at_any_fuel (fuel : nat) :
  Json.scan_once fuel (Json.skip_ws prose_single_quotes) = None.
Proof. destruct fuel; reflexivity. Qed.

Lemma single_quoted_rejected_at_any_fuel (fuel : nat) :
  Json.scan_once fuel
    (Json.skip_ws "{'detailed_service': 'Art', 'service_bucket': 'Art'}")
  = None.
Proof. destruct fuel as [|[|fuel]]; reflexivity. Qed.

Lemma substituted_rejected_at_any_fuel (fuel : nat) :
  Json.scan_once fuel (Json.skip_ws (fixed prose_single_quotes)) = None.
Proof. destruct fuel; reflexivity. Qed.

Lemma braces_found :
  search_braces prose_single_quotes
  = Some "{'detailed_service': 'Art', 'service_bucket': 'Art'}".
Proof. vm_compute. reflexivity. Qed.

Lemma braces_parse_fails :
  Json.loads "{'detailed_service': 'Art', 'service_bucket': 'Art'}" = None.
Proof. vm_compute. reflexivity. Qed.

Lemma substituted_text_keeps_prose :
  startswith "here" (fixed prose_single_quotes) = true
  /\ Json.loads (fixed prose_single_quotes) = None.
Proof. split; vm_compute; reflexivity. Qed.

(** The substitutions would repair the brace-delimited part; they are
    applied to the whole text instead. *)
Lemma substituted_braces_parse :
  Json.loads (fixed "{'detailed_service': 'Art', 'service_bucket': 'Art'}")
  = Some art_mapping.
Proof. vm_compute. reflexivity. Qed.

(** Without the prose, or with double quotes, the chain succeeds. *)
Lemma repair_single_quotes_only :
  repair_json (Some "{'detailed_service': 'Art', 'service_bucket': 'Art'}")
  = art_mapping.
Proof. vm_compute. reflexivity. Qed.

Lemma repair_prose_double_quotes :
  repair_json
    (Some (replace "'" (String dquote EmptyString)
             "answer: {'detailed_service': 'Art', 'service_bucket': 'Art'} thanks"))
  = art_mapping.
Proof. vm_compute. reflexivity. Qed.

(** C3.  On the text with prose around a single-quoted object,
    every attempt of [repair_json] fails and the function returns
    [None], not the mapping {detailed_service: Art, service_bucket: Art}:
    the direct parse fails, the brace-delimited substring is found but
    does not parse, and the substituted text still starts with the prose. *)
Theorem repair_json_prose_single_quotes :
  repair_json (Some prose_single_quotes) = PNone
  /\ repair_json (Some prose_single_quotes) <> art_mapping.
Proof. split; [vm_compute; reflexivity | vm_compute; discriminate]. Qed.

End RepairFacts.

(** ** Configuration loader (C4) *)

Module FilesFacts.
Import Files Fixtures.

(** A configuration file that exists and does not parse is read as the
    empty mapping, and the disk is left as it was. *)
Lemma load_config_malformed (dumps : pyval -> string)
    (disk : gmap string content) (name s : string) (default : pyval) :
  disk !! config_path name = Some (Text s) ->
  Json.loads s = None ->
  _load_config dumps disk name default = (PDict [], disk).
Proof.
  intros Hp Hs. unfold _load_config, load_json. rewrite Hp, Hs. reflexivity.
Qed.

Lemma load_config_malformed_witness :
  _load_config (fun _ => EmptyString)
    {[ "config/icp_rules.json" := Text "{oops" ]} "icp_rules" PNone
  = (PDict [], {[ "config/icp_rules.json" := Text "{oops" ]}).
Proof.
  apply (load_config_malformed _ _ "icp_rules" "{oops"); reflexivity.
Defined.

(** A missing file is created from the default, which is returned. *)
Lemma load_config_missing (dumps : pyval -> string)
    (disk : gmap string content) (name : string) (default : pyval) :
  disk !! config_path name = None ->
  _load_config dumps disk name default
  = (default, <[config_path name := Text (dumps default)]> disk).
Proof. intros Hp. unfold _load_config. rewrite Hp. reflexivity. Qed.

(** C4.  With [config/revenue_mapping.json] holding unparseable text,
    the loader raises nothing and leaves the file untouched, but what it
    returns is the empty mapping, not the default it was given. *)
Theorem load_config_malformed_returns_empty (dumps : pyval -> string) :
  _load_config dumps malformed_disk "revenue_mapping" DEFAULT_REVENUE_MAPPING
  = (PDict [], malformed_disk)
  /\ PDict [] <> DEFAULT_REVENUE_MAPPING.
Proof. split; [vm_compute; reflexivity | discriminate]. Qed.

End FilesFacts.

(** ** Scoring and decision (C5, C7, C10) *)

Module ScoringFacts.
Import PyStr PyVal Scoring Defaults Fixtures PyStrFacts.

Lemma score_employees_values (emp : pyval) :
  score_employees emp = 0 \/ score_employees emp = 60
  \/ score_employees emp = 100.
Proof.
  unfold score_employees.
  destruct (in_strs emp ["50-500"; "500-5000"]); [tauto|].
  destruct (in_strs emp ["5000-20000"; ">20000"]); tauto.
Qed.

Lemma score_revenue_values (rev : pyval) :
  score_revenue rev = 0 \/ score_revenue rev = 60 \/ score_revenue rev = 100.
Proof.
  unfold score_revenue.
  destruct (in_strs rev ["50M-500M"]); [tauto|].
  destruct (in_strs rev ["500M-1B"; ">1B"]); tauto.
Qed.

Lemma score_service_values (bucket : pyval) :
  score_service bucket = 0 \/ score_service bucket = 100.
Proof. unfold score_service. destruct (in_strs bucket _); tauto. Qed.

Lemma score_industry_values (ind : pyval) :
  score_industry ind = 0 \/ score_industry ind = 100.
Proof. unfold score_industry. destruct (truthy ind); tauto. Qed.

(** On a string, or on any false value, the region score is defined. *)
Lemma score_region_str (cfg : Config) (hq : string) :
  score_region cfg (PStr hq)
  = Ok (if negb (is_empty hq) && any_in (GOOD_REGIONS cfg) (lower hq)
        then 100 else 0).
Proof.
  unfold score_region. simpl. destruct (is_empty hq); reflexivity.
Qed.

Lemma score_region_values (cfg : Config) (hq : pyval) (reg : Z) :
  score_region cfg hq = Ok reg -> reg = 0 \/ reg = 100.
Proof.
  unfold score_region. destruct (negb (truthy hq)).
  - intros [= <-]. tauto.
  - destruct (lower_of hq); [|discriminate].
    intros [= <-]. destruct (any_in _ _); tauto.
Qed.

Lemma legacy_region_str (cfg : Config) (hq : string) :
  legacy_region cfg (PStr hq) = Ok (any_in (GOOD_REGIONS cfg) (lower hq)).
Proof.
  unfold legacy_region. destruct (GOOD_REGIONS cfg) eqn:E; [reflexivity|].
  simpl truthy. destruct hq; reflexivity.
Qed.

Lemma weighted_sum_range (w : Weights) (e r reg s i : Z) :
  percentages w ->
  0 <= e <= 100 -> 0 <= r <= 100 -> 0 <= reg <= 100 -> 0 <= s <= 100 ->
  0 <= i <= 100 ->
  0 <= weighted_sum w e r reg s i <= 10000.
Proof.
  unfold percentages, weighted_sum. intros (H1 & H2 & H3 & H4 & H5 & H6).
  intros. nia.
Qed.


(** On a country that is a string or a false value both region tests
    return; on any other value the region score raises. *)
Lemma score_region_shaped (cfg : Config) (hq : pyval) :
  Effects.country_shaped hq -> exists reg, score_region cfg hq = Ok reg.
Proof.
  intros [H|[s ->]]; [|rewrite score_region_str; eauto].
  unfold score_region. rewrite H. simpl. eauto.
Qed.

Lemma legacy_region_shaped (cfg : Config) (hq : pyval) :
  Effects.country_shaped hq -> exists b, legacy_region cfg hq = Ok b.
Proof.
  intros [H|[s ->]]; [|rewrite legacy_region_str; eauto].
  unfold legacy_region. rewrite H. destruct (GOOD_REGIONS cfg); simpl; eauto.
Qed.

Lemma score_region_raises (cfg : Config) (hq : pyval) :
  truthy hq = true -> (forall s, hq <> PStr s) ->
  lower_of hq = Raise AttributeError
  /\ score_region cfg hq = Raise AttributeError.
Proof.
  intros Ht Hn.
  assert (Hlow : lower_of hq = Raise AttributeError)
    by (destruct hq; try reflexivity; exfalso; eapply Hn; reflexivity).
  split; [exact Hlow|]. unfold score_region. rewrite Ht, Hlow. reflexivity.
Qed.

Lemma percentages_moderate (w : Weights) : percentages w -> moderate w.
Proof. unfold percentages, moderate. intros (?&?&?&?&?&?). lia. Qed.

(** Rounding to two decimals leaves a number of hundredths as it is. *)
Lemma round2_hundredths (n : Z) : round2 n 100 = n.
Proof.
  unfold round2. rewrite (Z.mul_comm 100 n), Z.div_mul, Z.mod_mul by lia.
  reflexivity.
Qed.

Lemma weighted_sum_moderate (w : Weights) (e r reg s i : Z) :
  moderate w ->
  0 <= e <= 100 -> 0 <= r <= 100 -> 0 <= reg <= 100 -> 0 <= s <= 100 ->
  0 <= i <= 100 ->
  Z.abs (weighted_sum w e r reg s i) < 1000000000000000.
Proof.
  unfold moderate, weighted_sum. intros (H1 & H2 & H3 & H4 & H5).
  intros. nia.
Qed.



(** *** Region matching (C10) *)

(** The default good regions are the names of the region mapping; the
    synonym [us] of the United States is not among them. *)
Lemma default_good_regions :
  GOOD_REGIONS default_config
  = ["united states"; "canada"; "france"; "uk"; "germany"; "japan";
     "china"; "finland"; "sweden"; "poland"; "australia"; "singapore";
     "india"]
  /\ mem "us" (GOOD_REGIONS default_config) = false.
Proof. split; vm_compute; reflexivity. Qed.

(** Belarus and Russia contain [us] but no default good region: both
    score 0 and fail the region criterion of the legacy gate. *)
Lemma belarus_russia_score_zero :
  score_region default_config (PStr "Belarus") = Ok 0
  /\ score_region default_config (PStr "Russia") = Ok 0
  /\ legacy_region default_config (PStr "Belarus") = Ok false
  /\ legacy_region default_config (PStr "Russia") = Ok false
  /\ contains "us" (lower "Belarus") = true
  /\ contains "us" (lower "Russia") = true.
Proof. repeat split; vm_compute; reflexivity. Qed.

(** C10 (amended).  Region matching tests whether a good-region name
    occurs as a substring of the lowercased country: for every non-empty
    country that contains one, [score_region] returns 100 and the region
    criterion of the legacy gate passes.  Under the default regions
    Ukraine, which is no good region itself, matches through [uk]. *)
Theorem region_substring_match :
  (forall (cfg : Config) (hq r : string),
      hq <> EmptyString -> In r (GOOD_REGIONS cfg) ->
      contains r (lower hq) = true ->
      score_region cfg (PStr hq) = Ok 100
      /\ legacy_region cfg (PStr hq) = Ok true)
  /\ (exists hq : string,
        hq = "Ukraine"
        /\ ~ In (lower hq) (GOOD_REGIONS default_config)
        /\ In "uk" (GOOD_REGIONS default_config)
        /\ contains "uk" (lower hq) = true
        /\ score_region default_config (PStr hq) = Ok 100
        /\ legacy_region default_config (PStr hq) = Ok true).
Proof.
  split.
  - intros cfg hq r Hne Hin Hsub.
    assert (Hany : any_in (GOOD_REGIONS cfg) (lower hq) = true)
      by (apply any_in_true; eauto).
    rewrite score_region_str, legacy_region_str, Hany.
    destruct hq; [congruence | split; reflexivity].
  - exists "Ukraine". split; [reflexivity|]. split.
    + rewrite <- existsb_mem_true. vm_compute. discriminate.
    + split; [rewrite <- existsb_mem_true; vm_compute; reflexivity|].
      repeat split; vm_compute; reflexivity.
Qed.

(** *** The legacy gate and the reconciliation (C5) *)

(** The gate answers Qualified, at 95%, exactly when the five criteria
    pass, and Not Qualified, at 75%, otherwise. *)
Lemma legacy_verdicts (cfg : Config) (company : string)
    (bucket detailed hq emp rev industry_pass : pyval) (legacy : Verdict) :
  legacy_qualify cfg company bucket detailed hq emp rev industry_pass
  = Ok legacy ->
  (five_pass cfg bucket hq emp rev industry_pass
   /\ v_decision legacy = "Qualified" /\ v_confidence legacy = "95%")
  \/ (~ five_pass cfg bucket hq emp rev industry_pass
      /\ v_decision legacy = "Not Qualified"
      /\ v_confidence legacy = "75%").
Proof.
  unfold legacy_qualify, five_pass.
  destruct (legacy_region cfg hq) as [region|x]; [|discriminate].
  destruct (emp_ok emp), (rev_ok rev), region, (bucket_ok bucket),
    (truthy industry_pass); simpl; intros [= <-]; simpl;
    solve [ left; repeat split; reflexivity
          | right; split; [intros (?&?&?&?&?); congruence
                          | split; reflexivity] ].
Qed.

(** On a string for the country, both policies return. *)
Lemma legacy_qualify_total (cfg : Config) (company hq : string)
    (bucket detailed emp rev industry_pass : pyval) :
  exists legacy,
    legacy_qualify cfg company bucket detailed (PStr hq) emp rev industry_pass
    = Ok legacy.
Proof.
  unfold legacy_qualify. rewrite legacy_region_str.
  destruct (_ && _); eauto.
Qed.

Lemma weighted_score_total (cfg : Config) (hq : string)
    (emp rev bucket industry_pass : pyval) :
  exists h, weighted_score cfg emp rev (PStr hq) bucket industry_pass = Ok h.
Proof. unfold weighted_score. rewrite score_region_str. eauto. Qed.

(** The reconciliation, for every input on which both policies return. *)
Lemma decide_cases (cfg : Config) (company : string)
    (bucket detailed hq emp rev industry_pass : pyval)
    (legacy : Verdict) (h : Z) :
  legacy_qualify cfg company bucket detailed hq emp rev industry_pass
  = Ok legacy ->
  weighted_score cfg emp rev hq bucket industry_pass = Ok h ->
  (v_decision legacy = "Qualified" ->
   decide cfg company bucket detailed hq emp rev industry_pass
   = Ok {| decision := "Qualified"; reason := v_reason legacy;
           confidence := v_confidence legacy; score := h |})
  /\ (v_decision legacy <> "Qualified" -> 100 * SCORE_THRESHOLD cfg <= h ->
      exists d,
        decide cfg company bucket detailed hq emp rev industry_pass = Ok d
        /\ decision d = "Qualified"
        /\ contains "passes weighted score" (reason d) = true
        /\ confidence d = str_of_Z (Z.quot h 100) +:+ "%"
        /\ score d = h)
  /\ (v_decision legacy <> "Qualified" -> h < 100 * SCORE_THRESHOLD cfg ->
      v_decision legacy = "Not Qualified"
      /\ decide cfg company bucket detailed hq emp rev industry_pass
         = Ok {| decision := "Not Qualified"; reason := v_reason legacy;
                 confidence := v_confidence legacy; score := h |}).
Proof.
  intros Hl Hw. unfold decide. rewrite Hl, Hw.
  split; [|split].
  - intros Hq. unfold with_score. rewrite Hq. reflexivity.
  - intros Hq Hge.
    destruct (String.eqb_spec (v_decision legacy) "Qualified") as [E|_];
      [congruence|].
    unfold meets. destruct (Z.leb_spec (100 * SCORE_THRESHOLD cfg) h); [|lia].
    eexists. split; [reflexivity|]. simpl.
    split; [reflexivity|]. split; [|split; reflexivity].
    apply (contains_app_r _ company). lazy. reflexivity.
  - intros Hq Hlt.
    destruct (String.eqb_spec (v_decision legacy) "Qualified") as [E|_];
      [congruence|].
    unfold meets. destruct (Z.leb_spec (100 * SCORE_THRESHOLD cfg) h); [lia|].
    destruct (legacy_verdicts _ _ _ _ _ _ _ _ _ Hl) as [(_&E&_)|(_&E&_)];
      [congruence|].
    split; [exact E|]. unfold with_score. rewrite E. reflexivity.
Qed.

(** A reply that gives the country as a list:  every other signal is at
    its best, and [decide] raises instead of returning a verdict. *)
Lemma decide_raises_on_list_country :
  truthy (PList [PStr "United States"]) = true
  /\ legacy_qualify default_config "Acme" (PStr "Art") (PStr "Animation")
       (PList [PStr "United States"]) (PStr ">20000") (PStr ">1B")
       (PBool true) = Raise AttributeError
  /\ decide default_config "Acme" (PStr "Art") (PStr "Animation")
       (PList [PStr "United States"]) (PStr ">20000") (PStr ">1B")
       (PBool true) = Raise AttributeError.
Proof. repeat split; vm_compute; reflexivity. Qed.

(** C5 (amended).  For integer weights of magnitude at most 10^12, on
    which the floats of the code are exact, and every input tuple
    (company, bucket, detailed, hq, employees, revenue, industry flag)
    whose country is a string or a false value, both policies return, the
    score is below 10^13 in magnitude (10^15 hundredths), and [decide]
    reconciles them: when the legacy gate, which answers Qualified
    exactly when its five criteria pass, returns Qualified, that verdict
    is returned with the weighted score attached; otherwise a score at or
    above the configured threshold (75 by default) gives Qualified, with
    a reason that mentions the weighted-score pass and the integer part
    of the score as confidence percentage; otherwise the legacy Not
    Qualified verdict is returned with its reasons and the score
    attached.  On a country that is true and not a string [decide]
    raises [AttributeError]. *)
Theorem decide_reconciliation (cfg : Config) (company : string)
    (bucket detailed hq emp rev industry_pass : pyval) :
  moderate (WEIGHTS cfg) ->
  (Effects.country_shaped hq ->
   exists (legacy : Verdict) (h : Z),
     legacy_qualify cfg company bucket detailed hq emp rev industry_pass
     = Ok legacy
     /\ weighted_score cfg emp rev hq bucket industry_pass = Ok h
     /\ Z.abs h < 1000000000000000
     /\ (v_decision legacy = "Qualified"
         <-> five_pass cfg bucket hq emp rev industry_pass)
     /\ (v_decision legacy = "Qualified" ->
         decide cfg company bucket detailed hq emp rev industry_pass
         = Ok {| decision := "Qualified"; reason := v_reason legacy;
                 confidence := v_confidence legacy; score := h |})
     /\ (v_decision legacy <> "Qualified" ->
         100 * SCORE_THRESHOLD cfg <= h ->
         exists d,
           decide cfg company bucket detailed hq emp rev industry_pass
           = Ok d
           /\ decision d = "Qualified"
           /\ contains "passes weighted score" (reason d) = true
           /\ confidence d = str_of_Z (Z.quot h 100) +:+ "%"
           /\ score d = h)
     /\ (v_decision legacy <> "Qualified" ->
         h < 100 * SCORE_THRESHOLD cfg ->
         v_decision legacy = "Not Qualified"
         /\ decide cfg company bucket detailed hq emp rev industry_pass
            = Ok {| decision := "Not Qualified"; reason := v_reason legacy;
                    confidence := v_confidence legacy; score := h |}))
  /\ (truthy hq = true -> (forall s, hq <> PStr s) ->
      decide cfg company bucket detailed hq emp rev industry_pass
      = Raise AttributeError)
  /\ SCORE_THRESHOLD default_config = 75.
Proof.
  intros Hmod. split; [|split; [|reflexivity]].
  - intros Hshape.
    destruct (legacy_region_shaped cfg hq Hshape) as (b & Hb).
    destruct (score_region_shaped cfg hq Hshape) as (reg & Hreg).
    assert (Hl : exists legacy,
               legacy_qualify cfg company bucket detailed hq emp rev
                 industry_pass = Ok legacy)
      by (unfold legacy_qualify; rewrite Hb; destruct (_ && _); eauto).
    destruct Hl as (legacy & Hl).
    assert (Hw : weighted_score cfg emp rev hq bucket industry_pass
                 = Ok (weighted_sum (WEIGHTS cfg) (score_employees emp)
                         (score_revenue rev) reg (score_service bucket)
                         (score_industry industry_pass)))
      by (unfold weighted_score; rewrite Hreg, round2_hundredths;
          reflexivity).
    destruct (decide_cases _ _ _ _ _ _ _ _ _ _ Hl Hw) as (H1 & H2 & H3).
    eexists legacy, _.
    split; [exact Hl|]. split; [exact Hw|]. split.
    { pose proof (score_employees_values emp).
      pose proof (score_revenue_values rev).
      pose proof (score_service_values bucket).
      pose proof (score_industry_values industry_pass).
      pose proof (score_region_values _ _ _ Hreg).
      apply weighted_sum_moderate; [exact Hmod|lia..]. }
    split.
    { destruct (legacy_verdicts _ _ _ _ _ _ _ _ _ Hl) as [(F&E&_)|(F&E&_)];
        rewrite E; split; intros H; try assumption; try reflexivity;
        [discriminate | contradiction]. }
    split; [exact H1|]. split; [exact H2|exact H3].
  - intros Ht Hn.
    destruct (score_region_raises cfg hq Ht Hn) as [Hlow Hs].
    unfold decide, legacy_qualify, weighted_score, legacy_region.
    rewrite Ht, Hlow, Hs. destruct (GOOD_REGIONS cfg); [|reflexivity].
    destruct (_ && _); reflexivity.
Qed.

Lemma decide_reconciliation_witness :
  exists d,
    decide default_config "Acme" (PStr "Art") (PStr "Animation") PNone
      (PStr ">20000") (PStr ">1B") (PBool true) = Ok d
    /\ decision d = "Qualified" /\ score d = 8000
    /\ confidence d = "80%".
Proof.
  destruct (decide_reconciliation default_config "Acme" (PStr "Art")
              (PStr "Animation") PNone (PStr ">20000") (PStr ">1B")
              (PBool true)) as (H & _).
  - vm_compute. repeat split; intros; discriminate.
  - destruct H as (legacy & h & Hl & Hw & _ & _ & _ & Hover & _);
      [left; reflexivity|].
    vm_compute in Hl. injection Hl as <-.
    vm_compute in Hw. injection Hw as <-.
    destruct Hover as (d & Hd & Hdec & _ & Hconf & Hsc);
      [discriminate | vm_compute; discriminate |].
    exists d. split; [exact Hd|]. split; [exact Hdec|].
    split; [exact Hsc|]. rewrite Hconf. vm_compute. reflexivity.
Defined.

(** A lead that fails the region criterion alone, with a score of 80:
    the weighted score overrides the legacy verdict. *)
Lemma reconciliation_override_example :
  legacy_qualify default_config "Acme" (PStr "Art") (PStr "Animation")
    (PStr "Brazil") (PStr ">20000") (PStr ">1B") (PBool true)
  = Ok {| v_decision := "Not Qualified";
          v_reason := "employee size ok, revenue ok, region outside ICP, service relevant, gaming industry match";
          v_confidence := "75%" |}
  /\ decide default_config "Acme" (PStr "Art") (PStr "Animation")
       (PStr "Brazil") (PStr ">20000") (PStr ">1B") (PBool true)
     = Ok {| decision := "Qualified";
             reason := "Acme passes weighted score (80.0 >= 75).";
             confidence := "80%"; score := 8000 |}.
Proof. split; vm_compute; reflexivity. Qed.

End ScoringFacts.

(** ** The rule classifier (C8) *)

Module RuleFacts.
Import PyStr PyVal Normalizer Engine Defaults Invariants Fixtures.

Lemma get_In_keys (m : list (string * pyval)) (k : string) (v : pyval) :
  get k m = Some v -> In k (keys m).
Proof.
  induction m as [|[k' v'] m IH]; simpl; [discriminate|].
  destruct (String.eqb_spec k k'); [left; congruence | right; auto].
Qed.

Lemma In_insert_key (k x : string) (l : list string) :
  In x (insert_key k l) <-> x = k \/ In x l.
Proof.
  induction l as [|y l IH]; simpl; [intuition congruence|].
  destruct (String.length k <? String.length y)%nat; simpl; rewrite ?IH;
    intuition congruence.
Qed.

Lemma In_longest_first (x : string) (ks : list string) :
  In x (longest_first ks) <-> In x ks.
Proof.
  induction ks as [|k ks IH]; simpl; [tauto|].
  rewrite In_insert_key, IH. intuition congruence.
Qed.

Lemma insert_key_decreasing (k : string) (l : list string) :
  decreasing l -> decreasing (insert_key k l).
Proof.
  induction 1 as [|y l Hy Hl IH]; simpl.
  - constructor; [intros ? []|constructor].
  - destruct (Nat.ltb_spec (String.length k) (String.length y)).
    + constructor; [|exact IH].
      intros z Hz. apply In_insert_key in Hz as [->|Hz]; [lia|auto].
    + constructor; [|constructor; assumption].
      intros z [<-|Hz]; [lia|]. specialize (Hy z Hz). lia.
Qed.

Lemma longest_first_decreasing (ks : list string) :
  decreasing (longest_first ks).
Proof.
  induction ks; simpl; [constructor | apply insert_key_decreasing; assumption].
Qed.

(** The loop returns the rule of the first key of the list that
    matches, and nothing when none does. *)
Lemma first_rule_none (m : list (string * pyval)) (t : string)
    (ks : list string) :
  first_rule m t ks = None -> forall k, In k ks -> ~ matching m t k.
Proof.
  induction ks as [|k0 ks IH]; simpl; [intros _ ? []|].
  intros H k [<-|Hin] [(v & r & Hv & Hr) Hc].
  - rewrite Hc, Hv, Hr in H. discriminate.
  - revert H. destruct (contains k0 t); [|intros H; eapply IH; eauto; split; eauto; exists v, r; auto].
    destruct (get k0 m) as [v0|];
      [destruct (rule_of v0); [discriminate|]|];
      intros H; eapply IH; eauto; split; eauto; exists v, r; auto.
Qed.

Lemma first_rule_some (m : list (string * pyval)) (t : string)
    (ks : list string) (r : pyval) :
  decreasing ks ->
  first_rule m t ks = Some r ->
  exists k v,
    In k ks /\ get k m = Some v /\ rule_of v = Some r
    /\ contains k t = true
    /\ forall k', In k' ks -> matching m t k' ->
                  (String.length k' <= String.length k)%nat.
Proof.
  induction 1 as [|k0 ks Hlen Hdec IH]; simpl; [discriminate|].
  assert (Hskip : first_rule m t ks = Some r -> ~ matching m t k0 ->
    exists k v,
      (k0 = k \/ In k ks) /\ get k m = Some v /\ rule_of v = Some r
      /\ contains k t = true
      /\ forall k', k0 = k' \/ In k' ks -> matching m t k' ->
                    (String.length k' <= String.length k)%nat).
  { intros H Hno. destruct (IH H) as (k & v & Hin & Hv & Hr & Hc & Hmax).
    exists k, v. repeat split; auto.
    intros k' [<-|Hin'] Hm; [contradiction | auto]. }
  destruct (contains k0 t) eqn:Hc;
    [|intros H; apply Hskip; [exact H | intros [_ Hc']; congruence]].
  destruct (get k0 m) as [v0|] eqn:Hv;
    [|intros H; apply Hskip; [exact H|];
      intros [(v & r' & Hv' & _) _]; congruence].
  destruct (rule_of v0) as [r0|] eqn:Hr;
    [|intros H; apply Hskip; [exact H|];
      intros [(v & r' & Hv' & Hr') _]; congruence].
  intros [= <-]. exists k0, v0. repeat split; auto.
  intros k' [<-|Hin'] _; [lia | auto].
Qed.

(** Both keys occur in the title; the longer one decides, although
    the shorter one is configured first. *)
Lemma longest_key_example :
  normalize_title "Senior Engine Programmer / Engineer"
  = "engine programmer engineer"
  /\ classify_service_rule two_keys "Senior Engine Programmer / Engineer"
     = Some (PDict [("detailed_service", PStr "Engine Programming");
                    ("service_bucket", PStr "Co-Dev")]).
Proof. split; vm_compute; reflexivity. Qed.

(** When some configured key occurs in the title, the classifier answers
    with the mapping of a matching key of maximal length. *)
Lemma rule_selects_longest (cfg : Config) (title k : string) :
  matching (SERVICE_MAPPING cfg) (normalize_title title) k ->
  exists k0 v0 r,
    classify_service_rule cfg title = Some r
    /\ get k0 (SERVICE_MAPPING cfg) = Some v0 /\ rule_of v0 = Some r
    /\ contains k0 (normalize_title title) = true
    /\ forall k', matching (SERVICE_MAPPING cfg) (normalize_title title) k' ->
                  (String.length k' <= String.length k0)%nat.
Proof.
  intros Hk. unfold classify_service_rule.
  set (m := SERVICE_MAPPING cfg) in *. set (t := normalize_title title) in *.
  destruct (first_rule m t (longest_first (keys m))) as [r|] eqn:E.
  - destruct (first_rule_some _ _ _ _ (longest_first_decreasing _) E)
      as (k0 & v0 & _ & Hv & Hr & Hc & Hmax).
    exists k0, v0, r. repeat split; auto.
    intros k' Hk'. apply Hmax; [|exact Hk'].
    apply In_longest_first. destruct Hk' as [(v & ? & Hv' & _) _].
    eapply get_In_keys; eauto.
  - exfalso. eapply first_rule_none; [exact E| |exact Hk].
    apply In_longest_first. destruct Hk as [(v & ? & Hv' & _) _].
    eapply get_In_keys; eauto.
Qed.

(** Both [engineer] and [engine programmer] are configured by default
    and occur in this title, and so does the longer key
    [technical animator]: the result is its mapping, Technical Animation /
    Art, not the one for [engine programmer]. *)
Lemma third_key_wins :
  contains "engineer" (normalize_title three_keys_title) = true
  /\ contains "engine programmer" (normalize_title three_keys_title) = true
  /\ get "engineer" (SERVICE_MAPPING default_config)
     = Some (pair_of "Programming" "Co-Dev")
  /\ get "engine programmer" (SERVICE_MAPPING default_config)
     = Some (pair_of "Programming" "Co-Dev")
  /\ classify_service_rule default_config three_keys_title
     = rule_of (pair_of "Technical Animation" "Art")
  /\ classify_service_rule default_config three_keys_title
     <> rule_of (pair_of "Programming" "Co-Dev").
Proof.
  repeat split; try (vm_compute; reflexivity).
  vm_compute. discriminate.
Qed.

(** An entry whose value is neither a list of two items nor a dict is
    passed over, although its key is the longest that occurs. *)
Lemma misshapen_value_skipped :
  contains "engine programmer"
    (normalize_title "Engine Programmer / Engineer") = true
  /\ rule_of (PStr "Programming") = None
  /\ classify_service_rule misshapen_keys "Engine Programmer / Engineer"
     = rule_of (pair_of "Programming" "Co-Dev").
Proof. repeat split; vm_compute; reflexivity. Qed.

(** C8 (amended).  A configured key counts when its value has one of the
    two accepted shapes.  When some configured key occurs in the
    normalized title, the rule classifier answers with the mapping of a
    matching key that no matching key exceeds in length.  When [engineer]
    and [engine programmer] both occur, the answer never comes from
    [engineer]; it is the mapping for [engine programmer] when these two
    are the configured keys that occur in the title. *)
Theorem longest_key_precedence (cfg : Config) (title : string) :
  let m := SERVICE_MAPPING cfg in
  let t := normalize_title title in
  (forall k, matching m t k ->
     exists k0 v0 r,
       classify_service_rule cfg title = Some r
       /\ get k0 m = Some v0 /\ rule_of v0 = Some r
       /\ contains k0 t = true
       /\ forall k', matching m t k' ->
                     (String.length k' <= String.length k0)%nat)
  /\ (matching m t "engineer" -> matching m t "engine programmer" ->
      exists k0 v0 r,
        classify_service_rule cfg title = Some r
        /\ get k0 m = Some v0 /\ rule_of v0 = Some r
        /\ contains k0 t = true
        /\ (String.length "engine programmer" <= String.length k0)%nat
        /\ k0 <> "engineer")
  /\ (matching m t "engineer" -> matching m t "engine programmer" ->
      (forall k', matching m t k' ->
                  k' = "engineer" \/ k' = "engine programmer") ->
      exists v r,
        get "engine programmer" m = Some v /\ rule_of v = Some r
        /\ classify_service_rule cfg title = Some r).
Proof.
  intros m t.
  assert (A := rule_selects_longest cfg title). fold m t in A.
  split; [exact A|]. split.
  - intros He Hp.
    destruct (A _ He) as (k0 & v0 & r & Hcls & Hv & Hr & Hc & Hmax).
    specialize (Hmax _ Hp). exists k0, v0, r.
    repeat split; auto. intros ->. simpl in Hmax. lia.
  - intros He Hp Honly.
    destruct (A _ He) as (k0 & v0 & r & Hcls & Hv & Hr & Hc & Hmax).
    assert (Hk0 : matching m t k0) by (split; [exists v0, r|]; auto).
    specialize (Hmax _ Hp).
    destruct (Honly _ Hk0) as [->| ->]; [simpl in Hmax; lia|].
    exists v0, r. auto.
Qed.

End RuleFacts.

(** ** The cached classifiers (C1, C2) *)

Module ClassifierFacts.
Import PyStr PyVal Normalizer Engine Defaults Fixtures RuleFacts.

(** The title contains the configured key [engineer], whose mapping is
    Programming / Co-Dev, yet the cached entry is what comes back: the
    cache is looked up before the rule table. *)
Lemma classify_service_stale_cache :
  contains "engineer" (normalize_title "Engineer") = true
  /\ get "engineer" (SERVICE_MAPPING default_config)
     = Some (pair_of "Programming" "Co-Dev")
  /\ classify_service_rule default_config "Engineer"
     = Some (PDict [("detailed_service", PStr "Programming");
                    ("service_bucket", PStr "Co-Dev")])
  /\ fst (classify_service default_config silent "Engineer" stale_classify)
     = Ok unknown_service
  /\ unknown_service
     <> PDict [("detailed_service", PStr "Programming");
               ("service_bucket", PStr "Co-Dev")].
Proof. repeat split; try (vm_compute; reflexivity). discriminate. Qed.

(** C1 (amended).  For a title whose normalized form contains a
    configured key, whatever the cache holds and whatever the oracle
    would answer, [classify_service] returns without a call to the
    oracle.  The classify cache is consulted first: a cached entry for
    the normalized title is returned as it is; when there is none, the
    value of the rule table is returned, {detailed_service,
    service_bucket} of a matching key, and stored in the cache. *)
Theorem classify_service_rule_path (cfg : Config)
    (oracle : nat -> string -> Z -> option string)
    (title k : string) (w : World) :
  matching (SERVICE_MAPPING cfg) (normalize_title title) k ->
  exists v w',
    classify_service cfg oracle title w = (Ok v, w')
    /\ calls w' = CallClassify title :: calls w
    /\ match classify_cache w !! normalize_title title with
       | Some c => v = c /\ classify_cache w' = classify_cache w
       | None =>
           classify_service_rule cfg title = Some v
           /\ (exists k0 v0,
                  get k0 (SERVICE_MAPPING cfg) = Some v0
                  /\ rule_of v0 = Some v
                  /\ contains k0 (normalize_title title) = true)
           /\ classify_cache w'
              = <[normalize_title title := v]> (classify_cache w)
           /\ classify_file w' = Some (classify_cache w')
       end.
Proof.
  intros Hk.
  destruct (rule_selects_longest cfg title k Hk)
    as (k0 & v0 & r & Hcls & Hv & Hr & Hc & _).
  unfold classify_service, bind, modify, gets, ret. simpl.
  destruct (classify_cache w !! normalize_title title) as [c|] eqn:E.
  - eexists _, _. split; [reflexivity|]. simpl. auto.
  - rewrite Hcls. eexists _, _. split; [reflexivity|]. simpl.
    repeat split; eauto.
Qed.

Lemma classify_service_rule_path_witness :
  exists w',
    classify_service default_config silent "Senior Engineer" fresh
    = (Ok (PDict [("detailed_service", PStr "Programming");
                  ("service_bucket", PStr "Co-Dev")]), w')
    /\ calls w' = [CallClassify "Senior Engineer"].
Proof.
  destruct (classify_service_rule_path default_config silent
              "Senior Engineer" "engineer" fresh)
    as (v & w' & Hrun & Hcalls & Hrule & _).
  - split; [|vm_compute; reflexivity].
    exists (pair_of "Programming" "Co-Dev"). eexists.
    split; vm_compute; reflexivity.
  - exists w'. split; [|exact Hcalls].
    rewrite Hrun. f_equal. f_equal.
    assert (E : classify_service_rule default_config "Senior Engineer"
                = Some (PDict [("detailed_service", PStr "Programming");
                               ("service_bucket", PStr "Co-Dev")]))
      by (vm_compute; reflexivity).
    change (classify_cache fresh !! normalize_title "Senior Engineer")
      with (@None pyval) in Hrule.
    congruence.
Defined.

(** Deloitte is on the forced-exclusion list, and the cached entry of
    the (company, title) key still decides. *)
Lemma detect_industry_cached_exclusion :
  mem (strip (lower "Deloitte")) (forced_non_gaming default_config) = true
  /\ fst (detect_industry default_config silent "Deloitte" "Game Designer"
            stale_industry) = Ok (PBool true).
Proof. split; vm_compute; reflexivity. Qed.

(** C2 (amended).  [detect_industry] resolves in the order: cache lookup
    by the (company, title) key; forced-exclusion list, false; trusted
    game company as a substring, true; gaming-adjacent name token as a
    substring, true; oracle, true exactly on an answer that contains yes.
    A company of the forced-exclusion list yields false when no entry is
    cached for the key.  Only the last branch calls the oracle, and every
    branch past the cache stores its answer. *)
Theorem detect_industry_order (cfg : Config)
    (oracle : nat -> string -> Z -> option string)
    (company title : string) (w : World) :
  let key := industry_key company title in
  let name := strip (lower company) in
  let forced := mem name (forced_non_gaming cfg) in
  let trusted :=
    existsb (fun n => contains n name) (trusted_game_companies cfg) in
  let token := any_in name_tokens name in
  let logged := log (CallDetect company title) w in
  let stored (b : bool) (w0 : World) :=
    save_industry (set_industry_cache key (PBool b) w0) in
  (forall v, industry_cache w !! key = Some v ->
     detect_industry cfg oracle company title w = (Ok v, logged))
  /\ (industry_cache w !! key = None -> forced = true ->
      detect_industry cfg oracle company title w
      = (Ok (PBool false), stored false logged))
  /\ (industry_cache w !! key = None -> forced = false -> trusted = true ->
      detect_industry cfg oracle company title w
      = (Ok (PBool true), stored true logged))
  /\ (industry_cache w !! key = None -> forced = false -> trusted = false ->
      token = true ->
      detect_industry cfg oracle company title w
      = (Ok (PBool true), stored true logged))
  /\ (industry_cache w !! key = None -> forced = false -> trusted = false ->
      token = false ->
      let out :=
        strip <$> oracle (oracle_calls w) (industry_prompt company) 12 in
      detect_industry cfg oracle company title w
      = (Ok (PBool (says_yes out)),
         stored (says_yes out)
           (log (CallOracle (industry_prompt company) 12) logged))).
Proof.
  intros key name forced trusted token logged stored.
  unfold detect_industry, bind, modify, gets, ret.
  cbn beta iota delta [industry_cache log].
  fold key name forced trusted token.
  repeat split.
  - intros v ->. reflexivity.
  - intros -> ->. reflexivity.
  - intros -> -> ->. reflexivity.
  - intros -> -> -> ->. reflexivity.
  - intros -> -> -> ->. reflexivity.
Qed.

End ClassifierFacts.

(** ** The batch processor (C6, C9) *)

Module BatchFacts.
Import PyStr PyVal Normalizer Scoring Engine Defaults Invariants Fixtures.
Local Open Scope engine_scope.

(** *** What the components leave alone *)

Lemma same_locals_refl (w : World) : same_locals w w.
Proof. repeat split. Qed.

Lemma same_locals_trans (w1 w2 w3 : World) :
  same_locals w1 w2 -> same_locals w2 w3 -> same_locals w1 w3.
Proof. unfold same_locals. intros (?&?&?) (?&?&?). repeat split; congruence. Qed.

Lemma keeps_ret {A : Type} (a : A) : keeps_locals (ret a).
Proof. intros w. apply same_locals_refl. Qed.

Lemma keeps_lift {A : Type} (r : result A) : keeps_locals (lift r).
Proof. intros w. apply same_locals_refl. Qed.

Lemma keeps_gets {A : Type} (f : World -> A) : keeps_locals (gets f).
Proof. intros w. apply same_locals_refl. Qed.

Lemma keeps_modify (f : World -> World) :
  (forall w, same_locals w (f w)) -> keeps_locals (modify f).
Proof. intros H w. apply H. Qed.

Lemma keeps_bind {A B : Type} (m : M A) (f : A -> M B) :
  keeps_locals m -> (forall a, keeps_locals (f a)) -> keeps_locals (bind m f).
Proof.
  intros Hm Hf w. unfold bind. specialize (Hm w).
  destruct (m w) as [[a|e] w1]; simpl in *; [|exact Hm].
  eapply same_locals_trans; [exact Hm | apply Hf].
Qed.

Lemma keeps_oracle (oracle : nat -> string -> Z -> option string)
    (prompt : string) (n : Z) :
  keeps_locals (rate_limited_groq oracle prompt n).
Proof. intros w. repeat split. Qed.

Ltac keeps_step :=
  lazymatch goal with
  | |- keeps_locals (ret _) => apply keeps_ret
  | |- keeps_locals (lift _) => apply keeps_lift
  | |- keeps_locals (gets _) => apply keeps_gets
  | |- keeps_locals (rate_limited_groq _ _ _) => apply keeps_oracle
  | |- keeps_locals (modify _) =>
      apply keeps_modify; intros ?; repeat split
  | |- keeps_locals (bind _ _) => apply keeps_bind; [|intros ?]
  | |- keeps_locals (match ?x with _ => _ end) => destruct x
  end.

Lemma keeps_classify_service (cfg : Config)
    (oracle : nat -> string -> Z -> option string) (title : string) :
  keeps_locals (classify_service cfg oracle title).
Proof. unfold classify_service. repeat keeps_step. Qed.

Lemma keeps_get_company_info (cfg : Config)
    (oracle : nat -> string -> Z -> option string) (company : string) :
  keeps_locals (get_company_info cfg oracle company).
Proof. unfold get_company_info. repeat keeps_step. Qed.

Lemma keeps_detect_industry (cfg : Config)
    (oracle : nat -> string -> Z -> option string) (company title : string) :
  keeps_locals (detect_industry cfg oracle company title).
Proof. unfold detect_industry. repeat keeps_step. Qed.

Lemma keeps_classify_row (cfg : Config)
    (oracle : nat -> string -> Z -> option string)
    (company title url : string) (idx : Z) :
  keeps_locals (classify_row cfg oracle company title url idx).
Proof.
  unfold classify_row.
  repeat first
    [ apply keeps_classify_service | apply keeps_get_company_info
    | apply keeps_detect_industry | keeps_step ].
Qed.

Lemma bind_ok {A B : Type} (m : M A) (f : A -> M B) (w w' : World) (b : B) :
  bind m f w = (Ok b, w') ->
  exists a w1, m w = (Ok a, w1) /\ f a w1 = (Ok b, w').
Proof.
  unfold bind. destruct (m w) as [[a|e] w1]; [eauto | discriminate].
Qed.

(** The record of a classified row carries the row's URL and index. *)
Lemma classify_row_record (cfg : Config)
    (oracle : nat -> string -> Z -> option string)
    (company title url : string) (idx : Z) (w w' : World) (r : rec) :
  classify_row cfg oracle company title url idx w = (Ok r, w') ->
  r_url r = url /\ r_source_index r = idx.
Proof.
  unfold classify_row. intros H.
  repeat (apply bind_ok in H as (? & ? & _ & H)).
  unfold ret in H. injection H as <- _. split; reflexivity.
Qed.

Lemma save_all_locals (w : World) : same_locals w (save_all w).
Proof. repeat split. Qed.

(** *** One row *)

Lemma emit_spec (r : rec) (idx : Z) (url : string) (w : World) :
  exists w1,
    emit r idx url w = (Ok tt, w1)
    /\ results w1 = results w ++ [r]
    /\ processed w1 = {[idx]} ∪ processed w
    /\ seen_urls w1
       = (if is_empty url then seen_urls w else {[url]} ∪ seen_urls w)
    /\ quiet w w1.
Proof.
  unfold emit, bind, modify, ret.
  destruct (is_empty url); eexists; (split; [reflexivity|]);
    repeat split.
Qed.

Lemma periodic_save_spec (total : nat) (w : World) :
  exists w1,
    periodic_save total w = (Ok tt, w1)
    /\ same_locals w w1 /\ quiet w w1.
Proof.
  unfold periodic_save, bind, gets, modify, ret.
  destruct (_ || _); eexists; (split; [reflexivity|]); repeat split.
Qed.

Section Rows.
Variable cfg : Config.
Variable oracle : nat -> string -> Z -> option string.
Variable total : nat.

Lemma try_row_invalid (idx : Z) (row : Row) (w : World) :
  is_empty (title_of row) || is_empty (company_of row) = true ->
  try_row cfg oracle total idx row w = (Ok tt, add_processed idx w).
Proof.
  intros H. unfold Engine.try_row. fold (title_of row) (company_of row).
  rewrite H. reflexivity.
Qed.

Lemma try_row_duplicate (idx : Z) (row : Row) (w : World) :
  is_empty (title_of row) = false -> is_empty (company_of row) = false ->
  is_empty (url_of row) = false -> url_of row ∈ seen_urls w ->
  try_row cfg oracle total idx row w = (Ok tt, add_processed idx w).
Proof.
  intros Ht Hc Hu Hs. unfold Engine.try_row.
  fold (title_of row) (company_of row) (url_of row).
  rewrite Ht, Hc, Hu. unfold bind, gets. simpl.
  rewrite bool_decide_eq_true_2 by exact Hs. reflexivity.
Qed.

Lemma try_row_gate (idx : Z) (row : Row) (w : World) :
  is_empty (title_of row) = false -> is_empty (company_of row) = false ->
  (is_empty (url_of row) = true \/ url_of row ∉ seen_urls w) ->
  try_row cfg oracle total idx row w
  = bind
      (if negb (is_game_role (title_of row))
       then emit (non_game_rec (company_of row) (title_of row)
                    (url_of row) idx) idx (url_of row)
       else bind (classify_row cfg oracle (company_of row) (title_of row)
                    (url_of row) idx)
              (fun r => emit r idx (url_of row)))
      (fun _ => periodic_save total) w.
Proof.
  intros Ht Hc Hu. unfold Engine.try_row.
  fold (title_of row) (company_of row) (url_of row).
  rewrite Ht, Hc. unfold bind at 1, gets. cbn [orb]. cbv beta iota.
  destruct Hu as [Hu|Hu].
  - rewrite Hu. reflexivity.
  - rewrite bool_decide_eq_false_2 by exact Hu.
    rewrite andb_false_r. reflexivity.
Qed.

(** The two ways out of the body for a row that reaches the gate: a
    record is appended, or the classification raises before any local
    is touched. *)
Lemma gate_outcome (idx : Z) (row : Row) (w : World) :
  is_empty (title_of row) = false -> is_empty (company_of row) = false ->
  (is_empty (url_of row) = true \/ url_of row ∉ seen_urls w) ->
  (exists r w',
      try_row cfg oracle total idx row w = (Ok tt, w')
      /\ results w' = results w ++ [r]
      /\ r_source_index r = idx /\ r_url r = url_of row
      /\ processed w' = {[idx]} ∪ processed w
      /\ seen_urls w'
         = (if is_empty (url_of row) then seen_urls w
            else {[url_of row]} ∪ seen_urls w)
      /\ (is_game_role (title_of row) = false ->
          r = non_game_rec (company_of row) (title_of row) (url_of row) idx
          /\ quiet w w'))
  \/ (exists e w',
        try_row cfg oracle total idx row w = (Raise e, w')
        /\ same_locals w w' /\ is_game_role (title_of row) = true).
Proof.
  intros Ht Hc Hu. rewrite try_row_gate by assumption.
  destruct (is_game_role (title_of row)) eqn:Hg; cbn [negb].
  - pose proof (keeps_classify_row cfg oracle (company_of row)
                  (title_of row) (url_of row) idx w) as Hk.
    unfold bind.
    destruct (classify_row cfg oracle (company_of row) (title_of row)
                (url_of row) idx w) as [[r|e] w0] eqn:Hrow;
      simpl in Hk; destruct Hk as (Hk1 & Hk2 & Hk3).
    + destruct (classify_row_record _ _ _ _ _ _ _ _ _ Hrow) as [Hru Hri].
      destruct (emit_spec r idx (url_of row) w0)
        as (w1 & -> & Hr & Hpr & Hse & _).
      destruct (periodic_save_spec total w1)
        as (w2 & -> & (Hp2 & Hr2 & Hs2) & _).
      left. exists r, w2. split; [reflexivity|].
      split; [congruence|]. split; [assumption|]. split; [assumption|].
      split; [congruence|]. split; [rewrite Hs2, Hse, Hk3; reflexivity|].
      intros; discriminate.
    + right. exists e, w0. repeat split; assumption.
  - unfold bind.
    destruct (emit_spec (non_game_rec (company_of row) (title_of row)
                (url_of row) idx) idx (url_of row) w)
      as (w1 & -> & Hr & Hpr & Hse & Hq1).
    destruct (periodic_save_spec total w1)
      as (w2 & -> & (Hp2 & Hr2 & Hs2) & Hq2).
    left.
    exists (non_game_rec (company_of row) (title_of row) (url_of row) idx), w2.
    split; [reflexivity|].
    split; [congruence|]. split; [reflexivity|]. split; [reflexivity|].
    split; [congruence|]. split; [rewrite Hs2, Hse; reflexivity|].
    intros _. split; [reflexivity|].
    destruct Hq1 as (?&?&?&?), Hq2 as (?&?&?&?).
    repeat split; congruence.
Qed.

Lemma row_step_kind (idx : Z) (row : Row) (w : World) :
  step_kind idx row w (row_step cfg oracle total idx row w).
Proof.
  unfold Engine.row_step. case_bool_decide as Hp.
  { apply step_skipped; auto. }
  destruct (is_empty (title_of row) || is_empty (company_of row)) eqn:Hv.
  { rewrite try_row_invalid by exact Hv. apply step_skipped; auto. }
  apply orb_false_iff in Hv as [Ht Hc].
  assert (Hcase : (is_empty (url_of row) = false /\ url_of row ∈ seen_urls w)
                  \/ (is_empty (url_of row) = true \/ url_of row ∉ seen_urls w)).
  { destruct (is_empty (url_of row)); [tauto|].
    destruct (base.decide (url_of row ∈ seen_urls w)); tauto. }
  destruct Hcase as [[Hu Hs]|Hu].
  { rewrite try_row_duplicate by assumption. apply step_skipped; auto. }
  destruct (gate_outcome idx row w Ht Hc Hu)
    as [(r & w' & -> & Hr & Hi & Hur & Hpr & Hse & _)
       |(e & w' & -> & (Hk1 & Hk2 & Hk3) & _)].
  - eapply (step_emitted _ _ _ _ r); eauto. repeat split; assumption.
  - apply step_skipped; simpl; auto.
Qed.

(** A row whose URL has been seen is marked and nothing else happens. *)
Lemma row_step_duplicate (idx : Z) (row : Row) (w : World) :
  idx ∉ processed w ->
  is_empty (title_of row) = false -> is_empty (company_of row) = false ->
  is_empty (url_of row) = false -> url_of row ∈ seen_urls w ->
  row_step cfg oracle total idx row w = add_processed idx w.
Proof.
  intros Hp Ht Hc Hu Hs. unfold Engine.row_step.
  rewrite bool_decide_eq_false_2 by exact Hp.
  rewrite try_row_duplicate by assumption. reflexivity.
Qed.

(** A row that fails the gate: no call, no cache write; the only record
    it can add is the fixed one. *)
Lemma row_step_non_game (idx : Z) (row : Row) (w : World) :
  is_game_role (title_of row) = false ->
  let w' := row_step cfg oracle total idx row w in
  quiet w w'
  /\ (results w' = results w
      \/ results w'
         = results w
           ++ [non_game_rec (company_of row) (title_of row) (url_of row) idx])
  /\ (reaches_gate idx row w ->
      results w'
      = results w
        ++ [non_game_rec (company_of row) (title_of row) (url_of row) idx]).
Proof.
  intros Hg. cbv zeta. unfold Engine.row_step. case_bool_decide as Hp.
  { split; [repeat split|]. split; [auto|]. intros (Hn & _). contradiction. }
  destruct (is_empty (title_of row) || is_empty (company_of row)) eqn:Hv.
  { rewrite try_row_invalid by exact Hv.
    split; [repeat split|]. split; [auto|].
    intros (_ & Ht & Hc & _). rewrite Ht, Hc in Hv. discriminate. }
  apply orb_false_iff in Hv as [Ht Hc].
  assert (Hcase : (is_empty (url_of row) = false /\ url_of row ∈ seen_urls w)
                  \/ (is_empty (url_of row) = true \/ url_of row ∉ seen_urls w)).
  { destruct (is_empty (url_of row)); [tauto|].
    destruct (base.decide (url_of row ∈ seen_urls w)); tauto. }
  destruct Hcase as [[Hu Hs]|Hu].
  { rewrite try_row_duplicate by assumption.
    split; [repeat split|]. split; [auto|].
    intros (_ & _ & _ & [Hu'|Hu']); congruence. }
  destruct (gate_outcome idx row w Ht Hc Hu)
    as [(r & w' & -> & Hr & _ & _ & _ & _ & Hng)
       |(e & w' & _ & _ & Hg')]; [|congruence].
  destruct (Hng Hg) as [-> Hq]. auto.
Qed.

End Rows.

(** *** The whole table *)

Section Table.
Variable cfg : Config.
Variable oracle : nat -> string -> Z -> option string.
Variable total : nat.
Variable df : list Row.

Lemma nonempty_urls_app (l1 l2 : list rec) :
  nonempty_urls (l1 ++ l2) = nonempty_urls l1 ++ nonempty_urls l2.
Proof. unfold nonempty_urls. rewrite map_app, filter_app. reflexivity. Qed.

Lemma elem_of_nonempty_urls (u : string) (l : list rec) :
  u ∈ nonempty_urls l
  <-> is_empty u = false /\ exists r, r ∈ l /\ r_url r = u.
Proof.
  unfold nonempty_urls. rewrite list_elem_of_filter, list_elem_of_In, in_map_iff.
  split; intros (H & r & H1 & H2); (split; [exact H|]); exists r.
  - rewrite list_elem_of_In. auto.
  - rewrite <- list_elem_of_In. auto.
Qed.

Lemma nonempty_urls_singleton (r : rec) :
  nonempty_urls [r] = if is_empty (r_url r) then [] else [r_url r].
Proof.
  unfold nonempty_urls. simpl. rewrite filter_cons, filter_nil.
  destruct (is_empty (r_url r)); case_decide; congruence.
Qed.

Lemma row_step_inv (k : nat) (row : Row) (w : World) :
  df !! k = Some row -> loop_inv df k w ->
  loop_inv df (S k) (row_step cfg oracle total (Z.of_nat k) row w).
Proof.
  intros Hrow [Hi Ht Hs Hn Hp].
  destruct (row_step_kind cfg oracle total (Z.of_nat k) row w)
    as [Hr Hse Hpr | r (_ & _ & _ & Hgate) Hr Hidx Hurl Hpr Hse].
  - split; rewrite ?Hr, ?Hse; auto.
    + intros r Hin. specialize (Hi r Hin). lia.
    + intros i Hin. destruct Hpr as [Hpr|Hpr]; rewrite Hpr in Hin.
      * specialize (Hp i Hin). lia.
      * apply elem_of_union in Hin as [Hin|Hin].
        -- apply elem_of_singleton in Hin. lia.
        -- specialize (Hp i Hin). lia.
  - split; rewrite ?Hr.
    + intros r0 [Hin|Hin%list_elem_of_singleton]%elem_of_app.
      * specialize (Hi r0 Hin). lia.
      * subst r0. lia.
    + intros r0 [Hin|Hin%list_elem_of_singleton]%elem_of_app; [auto|].
      subst r0. exists k, row. auto.
    + intros r0 Hin Hne. rewrite Hse.
      apply elem_of_app in Hin as [Hin|Hin%list_elem_of_singleton].
      * specialize (Hs r0 Hin Hne).
        destruct (is_empty (url_of row)); [exact Hs|].
        apply elem_of_union. right. exact Hs.
      * subst r0. rewrite Hurl in Hne |- *. rewrite Hne.
        apply elem_of_union. left. apply elem_of_singleton. reflexivity.
    + rewrite nonempty_urls_app, nonempty_urls_singleton, Hurl.
      destruct (is_empty (url_of row)) eqn:Hu.
      * rewrite app_nil_r. exact Hn.
      * apply NoDup_app. split; [exact Hn|]. split; [|apply NoDup_singleton].
        intros u Hin Hin2. apply list_elem_of_singleton in Hin2. subst u.
        apply elem_of_nonempty_urls in Hin as (_ & r0 & Hr0 & Hu0).
        destruct Hgate as [Hg|Hg]; [congruence|].
        apply Hg. rewrite <- Hu0. apply Hs; [exact Hr0|]. congruence.
    + intros i Hin. rewrite Hpr in Hin.
      apply elem_of_union in Hin as [Hin|Hin].
      * apply elem_of_singleton in Hin. lia.
      * specialize (Hp i Hin). lia.
Qed.

Lemma loop_inv_end (rows : list Row) (k : nat) (w : World) :
  (forall n row, rows !! n = Some row -> df !! (k + n)%nat = Some row) ->
  loop_inv df k w ->
  loop_inv df (k + length rows) (loop cfg oracle total (Z.of_nat k) rows w).
Proof.
  revert k w. induction rows as [|row rows IH]; intros k w Hdf Hinv; simpl.
  - rewrite Nat.add_0_r. exact Hinv.
  - replace (k + S (length rows))%nat with (S k + length rows)%nat by lia.
    replace (Z.of_nat k + 1) with (Z.of_nat (S k)) by lia.
    apply IH.
    + intros n r Hn. replace (S k + n)%nat with (k + S n)%nat by lia.
      apply Hdf. exact Hn.
    + apply row_step_inv; [|exact Hinv].
      specialize (Hdf 0%nat row eq_refl). rewrite Nat.add_0_r in Hdf. exact Hdf.
Qed.

(** The loop only appends records, of the indices it visits, and only
    adds marks. *)
Lemma loop_extends (rows : list Row) (k : nat) (w : World) :
  exists extra,
    results (loop cfg oracle total (Z.of_nat k) rows w) = results w ++ extra
    /\ (forall r, r ∈ extra -> Z.of_nat k <= r_source_index r)
    /\ processed w ⊆ processed (loop cfg oracle total (Z.of_nat k) rows w).
Proof.
  revert k w. induction rows as [|row rows IH]; intros k w; simpl.
  - exists []. rewrite app_nil_r. split; [reflexivity|].
    split; [intros r Hr; apply elem_of_nil in Hr; contradiction|set_solver].
  - replace (Z.of_nat k + 1) with (Z.of_nat (S k)) by lia.
    destruct (IH (S k) (row_step cfg oracle total (Z.of_nat k) row w))
      as (extra & Hres & Hidx & Hproc).
    destruct (row_step_kind cfg oracle total (Z.of_nat k) row w)
      as [Hr _ Hpr | r _ Hr Hri _ Hpr _].
    + exists extra. rewrite Hres, Hr. split; [reflexivity|]. split.
      * intros r Hin. specialize (Hidx r Hin). lia.
      * intros x Hx. apply Hproc.
        destruct Hpr as [E|E]; rewrite E; [exact Hx|].
        apply elem_of_union. right. exact Hx.
    + exists (r :: extra). rewrite Hres, Hr, <- app_assoc.
      split; [reflexivity|]. split.
      * intros r0 [->|Hin]%elem_of_cons; [lia|].
        specialize (Hidx r0 Hin). lia.
      * intros x Hx. apply Hproc. rewrite Hpr.
        apply elem_of_union. right. exact Hx.
Qed.

Lemma loop_app (l1 l2 : list Row) (idx : Z) (w : World) :
  loop cfg oracle total idx (l1 ++ l2) w
  = loop cfg oracle total (idx + Z.of_nat (length l1)) l2
      (loop cfg oracle total idx l1 w).
Proof.
  revert idx w. induction l1 as [|row l1 IH]; intros idx w; simpl.
  - rewrite Z.add_0_r. reflexivity.
  - rewrite IH. f_equal. lia.
Qed.

End Table.

(** *** Gate short-circuit (C6) *)

(** C6.  For a title that fails [is_game_role], the single-row helper
    returns Not Qualified, score 0 and service bucket None and leaves the
    world as it was; in the batch loop the row's iteration calls neither
    the service classifier, the company enricher, the industry detector
    nor the oracle and writes no cache entry, and the record it appends
    when the row reaches the gate has decision Not Qualified, score 0 and
    service bucket None. *)
Theorem gate_short_circuit (cfg : Config)
    (oracle : nat -> string -> Z -> option string) (title : string) :
  is_game_role title = false ->
  (forall (company : string) (w : World),
      exists o,
        run_icp_engine_logic cfg oracle company title w = (Ok o, w)
        /\ o_decision o = "Not Qualified" /\ o_score o = 0
        /\ o_service_bucket o = PStr "None")
  /\ (forall (total : nat) (idx : Z) (row : Row) (w : World),
         title_of row = title ->
         let w' := row_step cfg oracle total idx row w in
         calls w' = calls w
         /\ classify_cache w' = classify_cache w
         /\ company_cache w' = company_cache w
         /\ industry_cache w' = industry_cache w
         /\ (results w' = results w
             \/ exists r,
                 results w' = results w ++ [r]
                 /\ r_decision r = "Not Qualified" /\ r_score r = 0
                 /\ r_service_bucket r = PStr "None"
                 /\ r_source_index r = idx)
         /\ (reaches_gate idx row w ->
             exists r, results w' = results w ++ [r])).
Proof.
  intros Hg. split.
  - intros company w. unfold run_icp_engine_logic. rewrite Hg. simpl.
    eexists. split; [reflexivity|]. repeat split.
  - intros total idx row w Ht. cbv zeta. rewrite <- Ht in Hg.
    destruct (row_step_non_game cfg oracle total idx row w Hg)
      as ((Hc & H1 & H2 & H3) & Hres & Hreach).
    repeat split; try assumption.
    + destruct Hres as [Hres|Hres]; [left; exact Hres|].
      right. eexists. split; [exact Hres|]. repeat split.
    + intros Hr. eexists. apply Hreach. exact Hr.
Qed.

Lemma gate_short_circuit_witness :
  is_game_role "Senior Accountant" = false
  /\ exists o,
       run_icp_engine_logic default_config (fun _ _ _ => Some "YES")
         "Deloitte" "Senior Accountant" fresh = (Ok o, fresh)
       /\ o_decision o = "Not Qualified" /\ o_score o = 0
       /\ o_service_bucket o = PStr "None".
Proof.
  split; [vm_compute; reflexivity|].
  apply (gate_short_circuit default_config (fun _ _ _ => Some "YES")
           "Senior Accountant"). vm_compute. reflexivity.
Defined.

(** *** Duplicate URLs (C9) *)

(** Two rows share a URL.  The title of the first matches no rule, the
    oracle's reply parses to the number 7, and the membership test on it
    raises: the first row is dropped unmarked, its URL unseen, and the
    record in the output is the one of the second row. *)
Lemma second_row_emitted_after_error :
  url_of tester = url_of animator
  /\ is_empty (url_of animator) = false
  /\ fst (classify_service default_config reply_seven "Game Tester" fresh)
     = Raise TypeError
  /\ map r_source_index
       (results (process_dataframe default_config reply_seven
                   [tester; animator] fresh)) = [1]
  /\ elements
       (processed (process_dataframe default_config reply_seven
                     [tester; animator] fresh)) = [1].
Proof. repeat split; vm_compute; reflexivity. Qed.

(** C9 (amended).  In a run that starts without checkpoint and partial
    table, no two output rows share a non-empty URL, the output file holds
    the results and the checkpoint the processed indices; and for two rows
    with the same non-empty URL, the later one with title and company
    present: if the earlier row has a record in the output, the later row
    is marked processed and has no record in the output. *)
Theorem duplicate_url_suppression (cfg : Config)
    (oracle : nat -> string -> Z -> option string)
    (df : list Row) (w0 : World) :
  partial_csv w0 = None -> checkpoint_file w0 = None ->
  let w := process_dataframe cfg oracle df w0 in
  NoDup (nonempty_urls (results w))
  /\ output_xlsx w = Some (results w)
  /\ partial_csv w = Some (results w)
  /\ checkpoint_file w = Some (processed w)
  /\ forall (i j : nat) (ri rj : Row),
       (i < j)%nat -> df !! i = Some ri -> df !! j = Some rj ->
       url_of ri = url_of rj -> is_empty (url_of rj) = false ->
       is_empty (title_of rj) = false -> is_empty (company_of rj) = false ->
       (exists r, r ∈ results w /\ r_source_index r = Z.of_nat i) ->
       Z.of_nat j ∈ processed w
       /\ ~ exists r, r ∈ results w /\ r_source_index r = Z.of_nat j.
Proof.
  intros Hpart Hchk. cbv zeta. unfold process_dataframe.
  set (start := resume w0).
  assert (Hstart : loop_inv df 0 start).
  { unfold start, resume. rewrite Hpart, Hchk. simpl.
    split; simpl; try (intros ? H; apply elem_of_nil in H; contradiction).
    - unfold nonempty_urls. simpl. rewrite filter_nil. constructor.
    - intros i Hi. apply not_elem_of_empty in Hi. contradiction. }
  pose proof (loop_inv_end cfg oracle (length df) df df 0 start
                (fun n row H => H) Hstart) as Hend.
  change (Z.of_nat 0) with 0 in Hend.
  set (final := loop cfg oracle (length df) 0 df start) in *.
  change (results (finish final)) with (results final).
  change (processed (finish final)) with (processed final).
  split; [apply (inv_nodup _ _ _ Hend)|].
  split; [reflexivity|]. split; [reflexivity|]. split; [reflexivity|].
  intros i j ri rj Hij Hri Hrj Hurl Hne Ht Hc (r & Hr & Hidx).
  pose proof (take_drop_middle df j rj Hrj) as Hsplit.
  assert (Hlen : length (take j df) = j).
  { apply length_take_le. apply lookup_lt_Some in Hrj. lia. }
  pose proof (loop_inv_end cfg oracle (length df) df (take j df) 0 start) as Hj.
  rewrite Hlen in Hj. simpl in Hj.
  assert (Hinvj : loop_inv df j
                    (loop cfg oracle (length df) 0 (take j df) start)).
  { apply Hj; [|exact Hstart].
    intros n row Hn. rewrite lookup_take_Some in Hn. tauto. }
  set (wj := loop cfg oracle (length df) 0 (take j df) start) in *.
  assert (Hfinal : final
                   = loop cfg oracle (length df) (Z.of_nat (S j))
                       (drop (S j) df)
                       (row_step cfg oracle (length df) (Z.of_nat j) rj wj)).
  { unfold final. rewrite <- Hsplit at 2. rewrite loop_app, Hlen. simpl.
    f_equal. lia. }
  destruct (loop_extends cfg oracle (length df) (drop (S j) df) (S j)
              (row_step cfg oracle (length df) (Z.of_nat j) rj wj))
    as (extra & Hres & Hextra & Hproc).
  rewrite <- Hfinal in Hres, Hproc.
  (* the record of row [i] is already there before row [j] *)
  assert (Hbefore : r ∈ results wj).
  { rewrite Hres in Hr. apply elem_of_app in Hr as [Hr|Hr].
    - destruct (row_step_kind cfg oracle (length df) (Z.of_nat j) rj wj)
        as [Hr' _ _ | r' _ Hr' Hri' _ _ _]; rewrite Hr' in Hr; [exact Hr|].
      apply elem_of_app in Hr as [Hr|Hr%list_elem_of_singleton];
        [exact Hr | subst r'; lia].
    - specialize (Hextra r Hr). lia. }
  assert (Hseen : url_of rj ∈ seen_urls wj).
  { destruct (inv_table _ _ _ Hinvj r Hbefore) as (i' & row & Hi' & Hrow & Hu).
    assert (i' = i) by lia. subst i'.
    assert (row = ri) by congruence. subst row.
    rewrite <- Hurl, <- Hu. apply (inv_seen _ _ _ Hinvj r Hbefore).
    rewrite Hu, Hurl. exact Hne. }
  assert (Hfresh : Z.of_nat j ∉ processed wj).
  { intros Hin. pose proof (inv_processed _ _ _ Hinvj _ Hin). lia. }
  rewrite (row_step_duplicate cfg oracle (length df) (Z.of_nat j) rj wj
             Hfresh Ht Hc Hne Hseen) in Hres, Hproc.
  simpl in Hres, Hproc. split.
  - apply Hproc. set_solver.
  - intros (r' & Hr' & Hidx'). rewrite Hres in Hr'.
    apply elem_of_app in Hr' as [Hr'|Hr'].
    + pose proof (inv_index _ _ _ Hinvj r' Hr'). lia.
    + specialize (Hextra r' Hr'). lia.
Qed.

Lemma duplicate_url_suppression_witness :
  NoDup (nonempty_urls
           (results (process_dataframe default_config (fun _ _ _ => None)
                       [tester; animator] fresh)))
  /\ 1 ∈ processed (process_dataframe default_config (fun _ _ _ => None)
                      [tester; animator] fresh)
  /\ map r_source_index
       (results (process_dataframe default_config (fun _ _ _ => None)
                   [tester; animator] fresh)) = [0].
Proof.
  destruct (duplicate_url_suppression default_config (fun _ _ _ => None)
              [tester; animator] fresh eq_refl eq_refl)
    as (Hnodup & _ & _ & _ & Hpair).
  split; [exact Hnodup|]. split; [|vm_compute; reflexivity].
  apply (Hpair 0%nat 1%nat tester animator);
    [lia | reflexivity | reflexivity | reflexivity
    | vm_compute; reflexivity | vm_compute; reflexivity
    | vm_compute; reflexivity |].
  assert (E : exists r rest,
             results (process_dataframe default_config (fun _ _ _ => None)
                        [tester; animator] fresh) = r :: rest
             /\ r_source_index r = 0)
    by (vm_compute; eexists _, _; split; reflexivity).
  destruct E as (r & rest & E & Hidx).
  exists r. split; [|exact Hidx]. rewrite E. apply elem_of_cons. left.
  reflexivity.
Defined.

End BatchFacts.

(** ** Normalized texts *)

Module TextFacts.
Import PyStr Normalizer Shapes.

Lemma isspace_lower_char (c : ascii) : isspace (lower_char c) = isspace c.
Proof. destruct c as [[] [] [] [] [] [] [] []]; reflexivity. Qed.

Lemma lower_char_idem (c : ascii) : lower_char (lower_char c) = lower_char c.
Proof. destruct c as [[] [] [] [] [] [] [] []]; reflexivity. Qed.

Lemma lower_idem (s : string) : lower (lower s) = lower s.
Proof. induction s; simpl; [reflexivity|]. rewrite lower_char_idem, IHs. reflexivity. Qed.

Lemma space_is_32 (c : ascii) : is_code 32 c = true -> c = " "%char.
Proof. destruct c as [[] [] [] [] [] [] [] []]; simpl; intros H; try discriminate; reflexivity. Qed.

Lemma lower_collapse (b : bool) (s : string) :
  lower (collapse_ws b s) = collapse_ws b (lower s).
Proof.
  revert b. induction s as [|c r IH]; intros b; simpl; [reflexivity|].
  rewrite isspace_lower_char. destruct (isspace c).
  - destruct b; simpl; rewrite IH; reflexivity.
  - simpl. rewrite IH. reflexivity.
Qed.

Lemma tidy_lstrip (s : string) : tidy true s = true -> lstrip s = s.
Proof.
  destruct s as [|c r]; simpl; [reflexivity|].
  destruct (isspace c); [|reflexivity].
  rewrite andb_false_r. discriminate.
Qed.

Lemma tidy_rstrip (p : bool) (s : string) : tidy p s = true -> rstrip s = s.
Proof.
  revert p. induction s as [|c r IH]; intros p; simpl; [reflexivity|].
  destruct (isspace c).
  - intros [[_ _]%andb_prop H]%andb_prop. rewrite (IH _ H).
    destruct r; [discriminate|reflexivity].
  - intros H. rewrite (IH _ H). reflexivity.
Qed.

Lemma tidy_collapse (p b : bool) (s : string) :
  tidy p s = true -> (b = true -> p = true) -> collapse_ws b s = s.
Proof.
  revert p b. induction s as [|c r IH]; intros p b; simpl; [reflexivity|].
  destruct (isspace c).
  - intros [[Hc Hp]%andb_prop H]%andb_prop Hb.
    destruct b; [rewrite (Hb eq_refl) in Hp; discriminate|].
    rewrite (space_is_32 _ Hc). f_equal. apply (IH true true); auto.
  - intros H _. f_equal. apply (IH false false); [exact H | discriminate].
Qed.

Lemma tidy_no_double_space (p : bool) (s : string) :
  tidy p s = true -> contains "  " s = false.
Proof.
  revert p. induction s as [|c r IH]; intros p; [reflexivity|].
  intros H. cbn [contains]. apply orb_false_intro.
  - cbn [startswith]. destruct (ascii_dec " " c) as [<-|_]; [|reflexivity].
    destruct r as [|d r']; [reflexivity|].
    cbn [startswith]. destruct (ascii_dec " " d) as [<-|_]; [|reflexivity].
    simpl in H. rewrite andb_false_r in H. discriminate.
  - simpl in H. destruct (isspace c).
    + apply andb_prop in H as [_ H]. eapply IH; eauto.
    + eapply IH; eauto.
Qed.

Lemma tidy_last (p : bool) (s : string) (c : ascii) :
  tidy p s = true -> last_char s = Some c -> isspace c = false.
Proof.
  revert p. induction s as [|d r IH]; intros p; [discriminate|].
  simpl. destruct r as [|e r'].
  - intros H [= <-]. destruct (isspace d); [|reflexivity].
    simpl in H. rewrite andb_false_r in H. discriminate.
  - intros H Hl. destruct (isspace d).
    + apply andb_prop in H as [_ H]. eapply IH; eauto.
    + eapply IH; eauto.
Qed.

Lemma loose_collapse (b : bool) (s : string) :
  loose b (collapse_ws b s) = true.
Proof.
  revert b. induction s as [|c r IH]; intros b; simpl; [reflexivity|].
  destruct (isspace c) eqn:Hc.
  - destruct b; [apply IH|]. simpl. apply IH.
  - simpl. rewrite Hc. apply IH.
Qed.

Lemma loose_weaken (s : string) : loose true s = true -> loose false s = true.
Proof.
  destruct s as [|c r]; simpl; [reflexivity|].
  destruct (isspace c); [|auto]. rewrite andb_false_r. discriminate.
Qed.

Lemma loose_lstrip (p : bool) (s : string) :
  loose p s = true -> loose false (lstrip s) = true.
Proof.
  revert p. induction s as [|c r IH]; intros p; simpl; [reflexivity|].
  destruct (isspace c) eqn:Hc.
  - intros [_ H]%andb_prop. eapply IH; eauto.
  - intros H. simpl. rewrite Hc. exact H.
Qed.

Lemma lstrip_head (s : string) (c : ascii) (r : string) :
  lstrip s = String c r -> isspace c = false.
Proof.
  induction s as [|d s IH]; simpl; [discriminate|].
  destruct (isspace d) eqn:Hd; [exact IH|]. intros [= <- _]. exact Hd.
Qed.

Lemma loose_rstrip (p : bool) (s : string) :
  loose p s = true -> is_empty (rstrip s) = true \/ tidy p (rstrip s) = true.
Proof.
  revert p. induction s as [|c r IH]; intros p; simpl; [auto|].
  destruct (isspace c) eqn:Hc.
  - intros [[H32 Hp]%andb_prop H]%andb_prop.
    destruct (IH _ H) as [E|T].
    + rewrite E. simpl. auto.
    + destruct (rstrip r) eqn:Er; [discriminate|]. simpl negb. cbn [andb is_empty].
      right. cbn [tidy]. rewrite Hc, H32, Hp. exact T.
  - intros H. right. cbn [andb]. cbn [tidy]. rewrite Hc.
    destruct (IH _ H) as [E|T]; [|exact T].
    destruct (rstrip r); [reflexivity|discriminate].
Qed.

(** Stripping a text whose whitespace is collapsed leaves it empty or tidy. *)
Lemma strip_collapse_tidy (s : string) :
  let u := strip (collapse_ws false s) in
  is_empty u = true \/ tidy true u = true.
Proof.
  cbv zeta. unfold strip.
  pose proof (loose_lstrip _ _ (loose_collapse false s)) as H.
  destruct (lstrip (collapse_ws false s)) as [|c r] eqn:E; [left; reflexivity|].
  pose proof (lstrip_head _ _ _ E) as Hc.
  right. simpl in H. rewrite Hc in H.
  simpl. rewrite Hc. cbn [andb]. cbn [tidy]. rewrite Hc.
  destruct (loose_rstrip _ _ H) as [E'|T]; [|exact T].
  destruct (rstrip r); [reflexivity|discriminate].
Qed.

Lemma all_chars_lstrip (p : ascii -> bool) (s : string) :
  all_chars p s = true -> all_chars p (lstrip s) = true.
Proof.
  induction s as [|c r IH]; simpl; [auto|].
  intros [Hc H]%andb_prop. destruct (isspace c); [auto|].
  simpl. rewrite Hc, H. reflexivity.
Qed.

Lemma all_chars_rstrip (p : ascii -> bool) (s : string) :
  all_chars p s = true -> all_chars p (rstrip s) = true.
Proof.
  induction s as [|c r IH]; simpl; [auto|].
  intros [Hc H]%andb_prop. destruct (_ && _); [reflexivity|].
  simpl. rewrite Hc, (IH H). reflexivity.
Qed.

Lemma all_chars_collapse (p : ascii -> bool) (b : bool) (s : string) :
  p " "%char = true -> all_chars p s = true ->
  all_chars p (collapse_ws b s) = true.
Proof.
  intros Hsp. revert b. induction s as [|c r IH]; intros b; simpl; [auto|].
  intros [Hc H]%andb_prop. destruct (isspace c).
  - destruct b; [apply IH; exact H|]. simpl. rewrite Hsp. apply IH; exact H.
  - simpl. rewrite Hc. apply IH; exact H.
Qed.

Lemma all_chars_blank_others (s : string) :
  all_chars keeps (blank_others s) = true.
Proof.
  induction s as [|c r IH]; simpl; [reflexivity|].
  rewrite IH. destruct (keeps c) eqn:E; [rewrite E|]; reflexivity.
Qed.

(** X7.  [normalize_title] returns a canonical key: only the characters
    a-z, 0-9 and space, no space at either end and no two spaces in a
    row. *)
Theorem normalize_title_canonical (title : string) :
  let u := normalize_title title in
  all_chars keeps u = true
  /\ startswith " " u = false
  /\ last_char u <> Some " "%char
  /\ contains "  " u = false
  /\ strip u = u.
Proof.
  cbv zeta. unfold normalize_title.
  destruct (is_empty title).
  { repeat split; try reflexivity. discriminate. }
  set (y := blank_others _).
  assert (Hk : all_chars keeps (strip (collapse_ws false y)) = true).
  { apply all_chars_rstrip, all_chars_lstrip, all_chars_collapse;
      [reflexivity | apply all_chars_blank_others]. }
  split; [exact Hk|].
  destruct (strip_collapse_tidy y) as [E|T].
  - destruct (strip (collapse_ws false y)); [|discriminate].
    repeat split; try reflexivity. discriminate.
  - set (u := strip (collapse_ws false y)) in *.
    split; [|split; [|split]].
    + destruct u as [|c r]; [reflexivity|]. cbn [startswith].
      destruct (ascii_dec " " c) as [<-|]; [|reflexivity].
      simpl in T. discriminate.
    + intros Hl. pose proof (tidy_last _ _ _ T Hl). discriminate.
    + eapply tidy_no_double_space; eauto.
    + unfold strip. rewrite (tidy_lstrip _ T). eapply tidy_rstrip; eauto.
Qed.

Lemma ends_in_word_flag (b : bool) (c : ascii) (r : string) :
  ends_in_word b (String c r) = ends_in_word false (String c r).
Proof. reflexivity. Qed.

Lemma ends_in_word_rstrip (s : string) : ends_in_word false (rstrip s) = true.
Proof.
  induction s as [|c r IH]; simpl; [reflexivity|].
  destruct (isspace c) eqn:Hc; simpl.
  - destruct (rstrip r) as [|d r'] eqn:E; simpl; [reflexivity|].
    rewrite Hc. exact IH.
  - rewrite Hc. exact IH.
Qed.

Lemma ends_in_word_lower (b : bool) (s : string) :
  ends_in_word b (lower s) = ends_in_word b s.
Proof.
  revert b. induction s as [|c r IH]; intros b; simpl; [reflexivity|].
  rewrite isspace_lower_char. destruct (isspace c); apply IH.
Qed.

Lemma tidy_collapse_ends (b : bool) (s : string) :
  ends_in_word b s = true -> tidy b (collapse_ws b s) = true.
Proof.
  revert b. induction s as [|c r IH]; intros b; simpl; [auto|].
  destruct (isspace c) eqn:Hc.
  - intros H. destruct b; [apply IH; exact H|].
    simpl. apply IH. exact H.
  - intros H. simpl. rewrite Hc. apply IH. exact H.
Qed.

(** The result of [normalize_text] is empty or tidy. *)
Lemma normalize_text_tidy (s : string) :
  is_empty (normalize_text s) = true \/ tidy true (normalize_text s) = true.
Proof.
  unfold normalize_text, strip.
  pose proof (ends_in_word_rstrip (lstrip s)) as H.
  destruct (rstrip (lstrip s)) as [|c r] eqn:E; [left; reflexivity|].
  right.
  assert (Hc : isspace c = false).
  { destruct (lstrip s) as [|d r'] eqn:El; [discriminate|].
    pose proof (lstrip_head _ _ _ El) as Hd.
    simpl in E. rewrite Hd in E. simpl in E. injection E as -> _. exact Hd. }
  rewrite <- (ends_in_word_lower false) in H.
  simpl in H |- *. rewrite isspace_lower_char, Hc in H |- *.
  cbn [tidy]. rewrite isspace_lower_char, Hc.
  apply tidy_collapse_ends. exact H.
Qed.

(** X6.  [normalize_text] is idempotent, and its result is stripped and
    lowercased, with no two spaces in a row. *)
Theorem normalize_text_idempotent (s : string) :
  let t := normalize_text s in
  normalize_text t = t
  /\ strip t = t /\ lower t = t /\ contains "  " t = false.
Proof.
  cbv zeta.
  assert (Hl : lower (normalize_text s) = normalize_text s).
  { unfold normalize_text. rewrite lower_collapse, lower_idem. reflexivity. }
  destruct (normalize_text_tidy s) as [E|T].
  - destruct (normalize_text s); [|discriminate]. repeat split.
  - assert (Hs : strip (normalize_text s) = normalize_text s).
    { unfold strip. rewrite (tidy_lstrip _ T). eapply tidy_rstrip; eauto. }
    split; [|split; [exact Hs|split; [exact Hl|]]].
    + unfold normalize_text at 1. rewrite Hs, Hl.
      apply (tidy_collapse true false); [exact T | discriminate].
    + eapply tidy_no_double_space; eauto.
Qed.

End TextFacts.

(** ** Recovery of an object from a reply *)

Module RecoveryFacts.
Import PyStr Repair Shapes.

Lemma upto_last_close_none (s : string) :
  all_chars (fun c => negb (is_code 125 c)) s = true ->
  upto_last_close s = None.
Proof.
  induction s as [|c r IH]; simpl; [reflexivity|].
  intros [Hc H]%andb_prop. rewrite (IH H).
  destruct (is_code 125 c); [discriminate | reflexivity].
Qed.

Lemma upto_last_close_app (mid post : string) :
  all_chars (fun c => negb (is_code 125 c)) post = true ->
  upto_last_close (mid +:+ "}" +:+ post) = Some (mid +:+ "}").
Proof.
  intros H. induction mid as [|c r IH].
  - change (upto_last_close (String "}" post) = Some "}").
    cbn [upto_last_close]. rewrite (upto_last_close_none _ H). reflexivity.
  - change (upto_last_close (String c (r +:+ "}" +:+ post))
            = Some (String c (r +:+ "}"))).
    cbn [upto_last_close]. rewrite IH. reflexivity.
Qed.

Lemma search_braces_app (pre mid post : string) :
  all_chars (fun c => negb (is_code 123 c)) pre = true ->
  all_chars (fun c => negb (is_code 125 c)) post = true ->
  search_braces (pre +:+ "{" +:+ mid +:+ "}" +:+ post)
  = Some ("{" +:+ mid +:+ "}").
Proof.
  intros Hpre Hpost. induction pre as [|c r IH].
  - change (search_braces (String "{" (mid +:+ "}" +:+ post))
            = Some (String "{" (mid +:+ "}"))).
    cbn [search_braces]. change (is_code 123 "{") with true. cbv iota.
    rewrite upto_last_close_app by exact Hpost. reflexivity.
  - simpl in Hpre. apply andb_prop in Hpre as [Hc Hr].
    change (search_braces (String c (r +:+ "{" +:+ mid +:+ "}" +:+ post))
            = Some ("{" +:+ mid +:+ "}")).
    cbn [search_braces]. destruct (is_code 123 c); [discriminate|].
    apply IH. exact Hr.
Qed.

Lemma is_empty_app_brace (pre rest : string) :
  is_empty (pre +:+ "{" +:+ rest) = false.
Proof. destruct pre; reflexivity. Qed.



End RecoveryFacts.

(** ** The configuration files *)

Module LoaderFacts.
Import PyStr Files.

Lemma string_length_app (a b : string) :
  String.length (a +:+ b) = (String.length a + String.length b)%nat.
Proof. induction a; simpl; [reflexivity | rewrite IHa; reflexivity]. Qed.

Lemma string_app_inv_tail (a b t : string) : a +:+ t = b +:+ t -> a = b.
Proof.
  revert b. induction a as [|c a IH]; intros [|d b] H; simpl in H.
  - reflexivity.
  - apply (f_equal String.length) in H. rewrite !string_length_app in H.
    simpl in H. lia.
  - apply (f_equal String.length) in H. rewrite !string_length_app in H.
    simpl in H. lia.
  - injection H as -> H. f_equal. apply IH. exact H.
Qed.

Lemma config_path_inj (n1 n2 : string) :
  config_path n1 = config_path n2 -> n1 = n2.
Proof.
  unfold config_path. intros H.
  apply (String.app_inj "config/") in H. apply string_app_inv_tail in H. exact H.
Qed.

(** X1.  The loader never changes a file that exists: after
    [_load_config], every path that held something holds the same, and
    the only path that can appear is the file of the name asked for. *)
Theorem load_config_never_overwrites (dumps : pyval -> string)
    (disk : gmap string content) (name : string) (default : pyval)
    (p : string) :
  let disk' := snd (_load_config dumps disk name default) in
  (is_Some (disk !! p) -> disk' !! p = disk !! p)
  /\ (p <> config_path name -> disk' !! p = disk !! p)
  /\ is_Some (disk' !! config_path name).
Proof.
  cbv zeta. unfold _load_config, save_json.
  destruct (disk !! config_path name) eqn:E; simpl.
  - rewrite E. split; [auto|]. split; [auto|]. eauto.
  - split; [|split].
    + intros [x Hx]. rewrite lookup_insert_ne; [reflexivity|].
      intros <-. congruence.
    + intros Hp. rewrite lookup_insert_ne; [reflexivity|]. congruence.
    + rewrite lookup_insert_eq. eauto.
Qed.

(** X2.  First run, later runs: when the file is missing and the
    encoder's output decodes to the value encoded, the first call returns
    the default and writes it, and every later call returns that value,
    whatever default it is given, and leaves the disk as it is. *)
Theorem load_config_round_trip (dumps : pyval -> string)
    (disk : gmap string content) (name : string) (default : pyval) :
  disk !! config_path name = None ->
  Json.loads (dumps default) = Some default ->
  let disk' := snd (_load_config dumps disk name default) in
  fst (_load_config dumps disk name default) = default
  /\ disk' !! config_path name = Some (Text (dumps default))
  /\ forall later : pyval,
       _load_config dumps disk' name later = (default, disk').
Proof.
  intros Hmiss Hround. cbv zeta.
  assert (E : _load_config dumps disk name default
              = (default, <[config_path name := Text (dumps default)]> disk))
    by (unfold _load_config, save_json; rewrite Hmiss; reflexivity).
  rewrite E. cbn [fst snd].
  split; [reflexivity|]. split; [apply lookup_insert_eq|].
  intros later. unfold _load_config, load_json.
  rewrite lookup_insert_eq, Hround. reflexivity.
Qed.

Lemma load_config_round_trip_witness :
  fst (_load_config (fun _ => "[1, 2]")
         (snd (_load_config (fun _ => "[1, 2]") ∅ "weights"
                 (PList [PInt 1; PInt 2])))
         "weights" (PDict []))
  = PList [PInt 1; PInt 2].
Proof.
  destruct (load_config_round_trip (fun _ => "[1, 2]") ∅ "weights"
              (PList [PInt 1; PInt 2])) as (_ & _ & H).
  - apply lookup_empty.
  - vm_compute. reflexivity.
  - rewrite H. reflexivity.
Defined.

(** X3.  Configurations of different names do not interfere: loading one
    leaves what the other one reads, and the two loads commute on the
    disk. *)
Theorem load_config_independent (dumps : pyval -> string)
    (disk : gmap string content) (n1 n2 : string) (d1 d2 : pyval) :
  n1 <> n2 ->
  let after2 := snd (_load_config dumps disk n2 d2) in
  let after1 := snd (_load_config dumps disk n1 d1) in
  fst (_load_config dumps after2 n1 d1) = fst (_load_config dumps disk n1 d1)
  /\ snd (_load_config dumps after2 n1 d1)
     = snd (_load_config dumps after1 n2 d2).
Proof.
  intros Hne. cbv zeta.
  assert (Hp : config_path n1 <> config_path n2)
    by (intros H; apply Hne, config_path_inj, H).
  unfold _load_config, save_json, load_json.
  destruct (disk !! config_path n2) eqn:E2;
    destruct (disk !! config_path n1) eqn:E1; simpl;
    rewrite ?lookup_insert_ne by congruence;
    rewrite ?E1, ?E2; simpl; rewrite ?E1, ?E2; auto.
  split; [reflexivity|]. apply insert_insert_ne. congruence.
Qed.

Lemma load_config_independent_witness :
  fst (_load_config (fun _ => "{}")
         (snd (_load_config (fun _ => "{}") ∅ "weights" (PDict [])))
         "trusted" (PList []))
  = fst (_load_config (fun _ => "{}") ∅ "trusted" (PList [])).
Proof.
  apply (load_config_independent (fun _ => "{}") ∅ "trusted" "weights"
           (PList []) (PDict [])).
  discriminate.
Defined.

End LoaderFacts.

(** ** The two policies *)

Module PolicyFacts.
Import PyStr PyVal Scoring Defaults Criteria Effects PyStrFacts ScoringFacts.

(** A legacy criterion passes exactly when its signal scores points;
    a bucket that scores passes the legacy gate. *)
Lemma criteria_points (cfg : Config)
    (emp rev bucket industry_pass : pyval) (hq : string) :
  (emp_ok emp = true <-> 0 < score_employees emp)
  /\ (rev_ok rev = true <-> 0 < score_revenue rev)
  /\ (truthy industry_pass = true <-> 0 < score_industry industry_pass)
  /\ (hq <> EmptyString ->
      (legacy_region cfg (PStr hq) = Ok true
       <-> score_region cfg (PStr hq) = Ok 100))
  /\ (0 < score_service bucket -> bucket_ok bucket = true).
Proof.
  split; [|split; [|split; [|split]]].
  - unfold emp_ok, score_employees, in_strs. cbn [existsb].
    destruct (eq_str emp "50-500"), (eq_str emp "500-5000"),
      (eq_str emp "5000-20000"), (eq_str emp ">20000"); simpl;
      split; intros; first [reflexivity | lia | discriminate].
  - unfold rev_ok, score_revenue, in_strs. cbn [existsb].
    destruct (eq_str rev "50M-500M"), (eq_str rev "500M-1B"),
      (eq_str rev ">1B"); simpl;
      split; intros; first [reflexivity | lia | discriminate].
  - unfold score_industry. destruct (truthy industry_pass);
      split; intros; first [reflexivity | lia | discriminate].
  - intros Hne. rewrite legacy_region_str, score_region_str.
    destruct hq; [congruence|]. cbn [is_empty negb andb].
    destruct (any_in _ _); split; intros; congruence.
  - unfold score_service, bucket_ok, in_strs, eq_str. cbn [existsb].
    destruct bucket; simpl; try lia.
    destruct (String.eqb_spec s "None") as [->|]; [simpl; lia | reflexivity].
Qed.

(** X12.  The two policies judge the same criteria: a legacy criterion on
    employees, revenue, industry or a non-empty country passes exactly
    when the signal scores points.  On the service they differ: every
    bucket that scores passes the legacy gate, but the gate accepts every
    value other than the text None, such as the null of a reply, which
    scores nothing. *)
Theorem criteria_match_points (cfg : Config)
    (emp rev bucket industry_pass : pyval) (hq : string) :
  (emp_ok emp = true <-> 0 < score_employees emp)
  /\ (rev_ok rev = true <-> 0 < score_revenue rev)
  /\ (truthy industry_pass = true <-> 0 < score_industry industry_pass)
  /\ (hq <> EmptyString ->
      (legacy_region cfg (PStr hq) = Ok true
       <-> score_region cfg (PStr hq) = Ok 100))
  /\ (0 < score_service bucket -> bucket_ok bucket = true)
  /\ bucket_ok PNone = true /\ score_service PNone = 0.
Proof.
  destruct (criteria_points cfg emp rev bucket industry_pass hq)
    as (He & Hr & Hi & Hg & Hs).
  repeat (split; [assumption|]). split; reflexivity.
Qed.

Lemma decide_returns (cfg : Config) (company : string)
    (bucket detailed hq emp rev industry_pass : pyval) :
  country_shaped hq ->
  exists d h,
    decide cfg company bucket detailed hq emp rev industry_pass = Ok d
    /\ weighted_score cfg emp rev hq bucket industry_pass = Ok h.
Proof.
  intros H.
  assert (Hl : exists b, legacy_region cfg hq = Ok b).
  { destruct H as [H|[s ->]]; [|rewrite legacy_region_str; eauto].
    unfold legacy_region. rewrite H. destruct (GOOD_REGIONS cfg); simpl; eauto. }
  assert (Hs : exists reg, score_region cfg hq = Ok reg).
  { destruct H as [H|[s ->]]; [|rewrite score_region_str; eauto].
    unfold score_region. rewrite H. simpl. eauto. }
  destruct Hl as [b Hl], Hs as [reg Hs].
  unfold decide, legacy_qualify, weighted_score. rewrite Hl, Hs.
  destruct (_ && _); simpl; [eauto|]. destruct (meets _ _); eauto.
Qed.



Lemma decision_of_decide (cfg : Config) (company hq : string)
    (bucket detailed emp rev industry_pass : pyval) :
  exists d h,
    decide cfg company bucket detailed (PStr hq) emp rev industry_pass = Ok d
    /\ weighted_score cfg emp rev (PStr hq) bucket industry_pass = Ok h
    /\ score d = h
    /\ (five_pass cfg bucket (PStr hq) emp rev industry_pass ->
        decision d = "Qualified")
    /\ (~ five_pass cfg bucket (PStr hq) emp rev industry_pass ->
        h < 100 * SCORE_THRESHOLD cfg -> decision d = "Not Qualified")
    /\ (100 * SCORE_THRESHOLD cfg <= h -> decision d = "Qualified").
Proof.
  destruct (legacy_qualify_total cfg company hq bucket detailed emp rev
              industry_pass) as (legacy & Hl).
  destruct (weighted_score_total cfg hq emp rev bucket industry_pass)
    as (h & Hw).
  destruct (decide_cases _ _ _ _ _ _ _ _ _ _ Hl Hw) as (H1 & H2 & H3).
  destruct (legacy_verdicts _ _ _ _ _ _ _ _ _ Hl) as [(F&E&_)|(F&E&_)].
  - specialize (H1 E). eexists _, h. split; [exact H1|].
    split; [exact Hw|]. simpl. repeat split; auto. contradiction.
  - assert (Hq : v_decision legacy <> "Qualified") by (rewrite E; discriminate).
    destruct (Z.le_gt_cases (100 * SCORE_THRESHOLD cfg) h) as [Hge|Hlt].
    + destruct (H2 Hq Hge) as (d & Hd & Hdec & _ & _ & Hsc).
      exists d, h. repeat split; auto. intros; lia.
    + destruct (H3 Hq ltac:(lia)) as (_ & Hd).
      eexists _, h. split; [exact Hd|]. split; [exact Hw|]. simpl.
      repeat split; auto; try contradiction. intros; lia.
Qed.

(** X14.  Under the default tables the weighted score forgives one failed
    criterion at most: when two or more of the five signals score
    nothing, the decision is Not Qualified, with a score of 70 at most
    (7000 hundredths); when every signal scores, the decision is
    Qualified; and a lead that passes the five legacy criteria scores 65
    at least, 80 when its bucket is one that scores. *)
Theorem default_override_forgives_one (company hq : string)
    (bucket detailed emp rev industry_pass : pyval) :
  exists (d : Decision) (reg : Z),
    decide default_config company bucket detailed (PStr hq) emp rev
      industry_pass = Ok d
    /\ score_region default_config (PStr hq) = Ok reg
    /\ let n := misses [score_employees emp; score_revenue rev; reg;
                        score_service bucket; score_industry industry_pass] in
       ((2 <= n)%nat -> decision d = "Not Qualified" /\ score d <= 7000)
       /\ (n = 0%nat -> decision d = "Qualified")
       /\ (five_pass default_config bucket (PStr hq) emp rev industry_pass ->
           6500 <= score d
           /\ (0 < score_service bucket -> 8000 <= score d)).
Proof.
  destruct (decision_of_decide default_config company hq bucket detailed emp
              rev industry_pass) as (d & h & Hd & Hw & Hsc & Hq & Hn & Ho).
  pose proof (criteria_points default_config emp rev bucket
                industry_pass hq) as (Ce & Cr & Ci & Cg & Cs).
  pose proof (score_employees_values emp) as Ve.
  pose proof (score_revenue_values rev) as Vr.
  pose proof (score_service_values bucket) as Vs.
  pose proof (score_industry_values industry_pass) as Vi.
  destruct (score_region default_config (PStr hq)) as [reg|] eqn:Hreg;
    [|rewrite score_region_str in Hreg; discriminate].
  pose proof (score_region_values _ _ _ Hreg) as Vg.
  assert (Hh : h = weighted_sum DEFAULT_WEIGHTS (score_employees emp)
                     (score_revenue rev) reg (score_service bucket)
                     (score_industry industry_pass)).
  { unfold weighted_score in Hw.
    rewrite Hreg, round2_hundredths in Hw. injection Hw as <-.
    reflexivity. }
  unfold weighted_sum in Hh. simpl in Hh.
  assert (Hreg_pass : legacy_region default_config (PStr hq) = Ok true ->
                      reg = 100).
  { destruct hq as [|c hq']; [vm_compute; discriminate|].
    rewrite legacy_region_str. rewrite score_region_str in Hreg.
    cbn [is_empty negb andb] in Hreg.
    set (a := any_in _ _) in *. intros [= Ha]. rewrite Ha in Hreg.
    congruence. }
  exists d, reg. split; [exact Hd|]. split; [reflexivity|].
  cbv zeta. rewrite Hsc. change (SCORE_THRESHOLD default_config) with 75 in *.
  unfold misses. rewrite !filter_cons, filter_nil.
  split; [|split].
  - intros H2.
    assert (Hlow : h <= 7000).
    { revert H2. repeat case_decide; simpl; intros; try lia. }
    split; [|exact Hlow]. apply Hn; [|lia].
    intros (Fe & Fr & Fg & Fb & Fi).
    apply Ce in Fe. apply Cr in Fr. apply Ci in Fi. apply Hreg_pass in Fg.
    revert H2. repeat case_decide; simpl; intros; lia.
  - intros H0. apply Hq.
    revert H0. repeat case_decide; simpl; intros; try lia.
    repeat split.
    + apply Ce. lia.
    + apply Cr. lia.
    + rewrite legacy_region_str.
      rewrite score_region_str in Hreg.
      set (a := any_in _ _) in *. destruct a; [reflexivity|].
      rewrite andb_false_r in Hreg. injection Hreg as <-. lia.
    + apply Cs. lia.
    + apply Ci. lia.
  - intros (Fe & Fr & Fg & Fb & Fi).
    apply Ce in Fe. apply Cr in Fr. apply Ci in Fi. apply Hreg_pass in Fg.
    split; [lia|]. intros. lia.
Qed.

End PolicyFacts.

(** ** Order of the rule keys *)

Module OrderFacts.
Import PyStr PyVal Normalizer Engine Defaults Invariants Criteria Fixtures
  RuleFacts.

Lemma hit_matching (m : list (string * pyval)) (t k : string) :
  hit m t k = true <-> matching m t k.
Proof.
  unfold hit, matching, usable. split.
  - intros [Hc H]%andb_prop. split; [|exact Hc].
    destruct (get k m) as [v|]; [|discriminate].
    destruct (rule_of v) as [r|] eqn:E; [|discriminate]. eauto.
  - intros [(v & r & Hv & Hr) Hc]. rewrite Hc, Hv, Hr. reflexivity.
Qed.

Lemma first_rule_filter (m : list (string * pyval)) (t : string)
    (ks : list string) :
  first_rule m t ks
  = match filter (fun k => hit m t k = true) ks with
    | [] => None
    | k :: _ => get k m ≫= rule_of
    end.
Proof.
  induction ks as [|k ks IH]; [reflexivity|].
  rewrite filter_cons. cbn [first_rule].
  destruct (hit m t k) eqn:Eh.
  - rewrite decide_True by reflexivity.
    unfold hit in Eh. apply andb_prop in Eh as [Hc Hv]. rewrite Hc.
    destruct (get k m) as [v|]; [|discriminate].
    destruct (rule_of v) eqn:Er; [|discriminate].
    simpl. rewrite Er. reflexivity.
  - rewrite decide_False by discriminate. rewrite <- IH.
    unfold hit in Eh. destruct (contains k t); [|reflexivity].
    simpl in Eh. destruct (get k m) as [v|]; [|reflexivity].
    destruct (rule_of v); [discriminate|reflexivity].
Qed.

Lemma filter_insert_key (P : string -> Prop) `{forall x, Decision (P x)}
    (k : string) (l : list string) :
  decreasing l ->
  filter P (insert_key k l)
  = if base.decide (P k) then insert_key k (filter P l) else filter P l.
Proof.
  induction 1 as [|y l Hy Hl IH]; simpl.
  - rewrite filter_cons, filter_nil. destruct (base.decide (P k)); reflexivity.
  - destruct (Nat.ltb_spec (String.length k) (String.length y)) as [Hlt|Hge].
    + rewrite filter_cons, IH, (filter_cons _ y).
      destruct (base.decide (P y)), (base.decide (P k)); try reflexivity.
      simpl. apply Nat.ltb_lt in Hlt. rewrite Hlt. reflexivity.
    + rewrite (filter_cons _ k).
      destruct (base.decide (P k)) as [Hk|Hk]; [|reflexivity].
      f_equal.
      (* every key kept from [y :: l] is at most as long as [k] *)
      assert (Hall : forall z, In z (filter P (y :: l)) ->
                       (String.length z <= String.length k)%nat).
      { intros z Hz. apply list_elem_of_In, list_elem_of_filter in Hz
          as [_ Hz].
        apply elem_of_cons in Hz as [->|Hz]; [lia|].
        apply list_elem_of_In in Hz. specialize (Hy z Hz). lia. }
      destruct (filter P (y :: l)) as [|z r] eqn:E; [reflexivity|].
      simpl. specialize (Hall z (or_introl eq_refl)).
      destruct (Nat.ltb_spec (String.length k) (String.length z));
        [lia|reflexivity].
Qed.

Lemma filter_longest_first (P : string -> Prop) `{forall x, Decision (P x)}
    (ks : list string) :
  filter P (longest_first ks) = longest_first (filter P ks).
Proof.
  induction ks as [|k ks IH]; [reflexivity|].
  cbn [longest_first foldr]. fold (longest_first ks).
  rewrite filter_insert_key by apply longest_first_decreasing.
  rewrite filter_cons, IH.
  destruct (base.decide (P k)); reflexivity.
Qed.

(** The head of the sorted list is the first of the longest keys. *)
Lemma longest_first_head (l : list string) (k0 : string) (rest : list string) :
  longest_first l = k0 :: rest ->
  exists l1 l2,
    l = l1 ++ k0 :: l2
    /\ (forall y, In y l1 -> (String.length y < String.length k0)%nat)
    /\ (forall y, In y l2 -> (String.length y <= String.length k0)%nat).
Proof.
  revert k0 rest. induction l as [|k ks IH]; intros k0 rest; [discriminate|].
  cbn [longest_first foldr]. fold (longest_first ks).
  destruct (longest_first ks) as [|y r] eqn:E.
  - simpl. intros [= <- <-]. exists [], ks. split; [reflexivity|].
    split; [intros ? []|].
    intros z Hz. apply In_longest_first in Hz. rewrite E in Hz. destruct Hz.
  - simpl.
    destruct (Nat.ltb_spec (String.length k) (String.length y)) as [Hlt|Hge].
    + intros [= <- <-].
      destruct (IH y r eq_refl) as (l1 & l2 & -> & H1 & H2).
      exists (k :: l1), l2. split; [reflexivity|]. split; [|exact H2].
      intros z [<-|Hz]; [exact Hlt | auto].
    + intros [= <- <-]. exists [], ks. split; [reflexivity|].
      split; [intros ? []|].
      intros z Hz. apply In_longest_first in Hz. rewrite E in Hz.
      pose proof (longest_first_decreasing ks) as Hd. rewrite E in Hd.
      inversion Hd as [|? ? Hy _]; subst.
      destruct Hz as [<-|Hz]; [lia|]. specialize (Hy z Hz). lia.
Qed.

Lemma filter_split (P : string -> Prop) `{forall x, Decision (P x)}
    (l f1 f2 : list string) (x : string) :
  filter P l = f1 ++ x :: f2 ->
  exists l1 l2, l = l1 ++ x :: l2 /\ filter P l1 = f1 /\ filter P l2 = f2.
Proof.
  revert f1. induction l as [|y l IH]; intros f1.
  - rewrite filter_nil. destruct f1; discriminate.
  - rewrite filter_cons. destruct (base.decide (P y)) as [Hy|Hy].
    + destruct f1 as [|z f1]; simpl.
      * intros [= -> Hf]. exists [], l. rewrite filter_nil. auto.
      * intros [= -> Hf]. destruct (IH f1 Hf) as (l1 & l2 & -> & H1 & H2).
        exists (z :: l1), l2. rewrite filter_cons, decide_True by exact Hy.
        rewrite H1. auto.
    + intros Hf. destruct (IH f1 Hf) as (l1 & l2 & -> & H1 & H2).
      exists (y :: l1), l2. rewrite filter_cons, decide_False by exact Hy.
      auto.
Qed.

(** X8.  Ties between keys of the same length go to the key listed
    first: when the rule classifier answers, its answer is the mapping
    of a key that occurs in the normalized title, is longer than every
    matching key listed before it and at least as long as every matching
    key listed after it; and it answers nothing exactly when no
    configured key with a usable value occurs in the title. *)
Theorem first_listed_longest_wins (cfg : Config) (title : string) :
  let m := SERVICE_MAPPING cfg in
  let t := normalize_title title in
  (forall r,
      classify_service_rule cfg title = Some r ->
      exists k0 v0 before after,
        keys m = before ++ k0 :: after
        /\ get k0 m = Some v0 /\ rule_of v0 = Some r
        /\ contains k0 t = true
        /\ (forall y, In y before -> matching m t y ->
                      (String.length y < String.length k0)%nat)
        /\ (forall y, In y after -> matching m t y ->
                      (String.length y <= String.length k0)%nat))
  /\ (classify_service_rule cfg title = None
      <-> forall k, ~ matching m t k).
Proof.
  cbv zeta. set (m := SERVICE_MAPPING cfg). set (t := normalize_title title).
  assert (Heq : classify_service_rule cfg title
                = match longest_first
                          (filter (fun k => hit m t k = true) (keys m)) with
                  | [] => None
                  | k :: _ => get k m ≫= rule_of
                  end).
  { unfold classify_service_rule. fold m t.
    rewrite first_rule_filter, filter_longest_first. reflexivity. }
  split.
  - intros r Hr. rewrite Heq in Hr.
    destruct (longest_first (filter (fun k => hit m t k = true) (keys m)))
      as [|k0 rest] eqn:E; [discriminate|].
    destruct (longest_first_head _ _ _ E) as (f1 & f2 & Hf & H1 & H2).
    destruct (filter_split _ _ _ _ _ Hf) as (l1 & l2 & Hk & <- & <-).
    assert (Hhit : hit m t k0 = true).
    { assert (Hin : k0 ∈ filter (fun k => hit m t k = true) (keys m)).
      { rewrite Hf. apply elem_of_app. right. apply elem_of_cons. auto. }
      apply list_elem_of_filter in Hin as [Hin _]. exact Hin. }
    apply hit_matching in Hhit as [(v0 & r0 & Hv & Hr0) Hc].
    rewrite Hv in Hr. simpl in Hr.
    exists k0, v0, l1, l2. repeat split; auto.
    + intros y Hy Hm. apply H1. apply list_elem_of_In, list_elem_of_filter.
      split; [apply hit_matching; exact Hm | apply list_elem_of_In; exact Hy].
    + intros y Hy Hm. apply H2. apply list_elem_of_In, list_elem_of_filter.
      split; [apply hit_matching; exact Hm | apply list_elem_of_In; exact Hy].
  - split.
    + intros Hn k Hk.
      destruct (rule_selects_longest cfg title k Hk) as (? & ? & r & Hr & _).
      congruence.
    + intros Hno. rewrite Heq.
      destruct (longest_first (filter (fun k => hit m t k = true) (keys m)))
        as [|k0 rest] eqn:E; [reflexivity|].
      exfalso. apply (Hno k0). apply hit_matching.
      assert (Hin : In k0 (longest_first
                             (filter (fun k => hit m t k = true) (keys m))))
        by (rewrite E; left; reflexivity).
      apply In_longest_first, list_elem_of_In, list_elem_of_filter in Hin
        as [Hin _]. exact Hin.
Qed.

End OrderFacts.

(** ** Caches and requests *)

Module CacheFacts.
Import PyStr PyVal Normalizer Scoring Engine Defaults Invariants Fixtures.
Import Effects BatchFacts.
Local Open Scope engine_scope.

Lemma grows_refl (w : World) : grows w w.
Proof. repeat split; reflexivity. Qed.

Lemma grows_trans (w1 w2 w3 : World) : grows w1 w2 -> grows w2 w3 -> grows w1 w3.
Proof.
  intros (?&?&?) (?&?&?). repeat split; etrans; eauto.
Qed.

Lemma effect_refl (w : World) : effect 0 w w.
Proof. split; [apply grows_refl | lia]. Qed.

Lemma effect_trans (n m : nat) (w1 w2 w3 : World) :
  effect n w1 w2 -> effect m w2 w3 -> effect (n + m) w1 w3.
Proof.
  intros [G1 B1] [G2 B2]. split; [eapply grows_trans; eauto | lia].
Qed.

Lemma effect_weaken (n m : nat) (w w' : World) :
  (n <= m)%nat -> effect n w w' -> effect m w w'.
Proof. intros H [G B]. split; [exact G | lia]. Qed.

Lemma oracle_calls_log (c : call) (w : World) :
  oracle_calls (log c w)
  = (if is_oracle_call c then S (oracle_calls w) else oracle_calls w).
Proof.
  unfold oracle_calls. simpl. rewrite filter_cons.
  destruct (is_oracle_call c); case_decide; simpl; congruence.
Qed.

Ltac count_calls :=
  unfold oracle_calls;
  cbn [calls log save_classify save_company save_industry
       set_classify_cache set_company_cache set_industry_cache];
  rewrite ?filter_cons; repeat case_decide; cbn [length is_oracle_call] in *;
  try congruence; try lia.

Ltac caches :=
  cbn [classify_cache company_cache industry_cache log
       save_classify save_company save_industry
       set_classify_cache set_company_cache set_industry_cache].

Section Classifiers.
Variable cfg : Config.
Variable oracle : nat -> string -> Z -> option string.

(** What [classify_service] does, case by case. *)
Lemma classify_service_cases (title : string) (w : World) :
  let key := normalize_title title in
  let w0 := log (CallClassify title) w in
  let w1 := log (CallOracle (classify_prompt title) 150) w0 in
  let parsed :=
    Repair.repair_json
      (strip <$> oracle (oracle_calls w) (classify_prompt title) 150) in
  let stored v w := save_classify (set_classify_cache key v w) in
  classify_service cfg oracle title w
  = match classify_cache w !! key with
    | Some v => (Ok v, w0)
    | None =>
        match classify_service_rule cfg title with
        | Some r => (Ok r, stored r w0)
        | None =>
            match has_keys ["detailed_service"; "service_bucket"] parsed with
            | Raise e => (Raise e, w1)
            | Ok ok =>
                let v := if ok then parsed else unknown_service in
                (Ok v, stored v w1)
            end
        end
    end.
Proof.
  cbv zeta. unfold classify_service, bind, modify, gets, ret, lift,
    rate_limited_groq. cbn [classify_cache log].
  destruct (classify_cache w !! normalize_title title); [reflexivity|].
  destruct (classify_service_rule cfg title); [reflexivity|].
  rewrite oracle_calls_log. cbn [is_oracle_call].
  destruct (has_keys _ _) as [[]|]; reflexivity.
Qed.

Lemma get_company_info_cases (company : string) (w : World) :
  let key := strip (lower company) in
  let w0 := log (CallCompanyInfo company) w in
  let w1 := log (CallOracle (company_prompt company) 180) w0 in
  let parsed :=
    Repair.repair_json
      (strip <$> oracle (oracle_calls w) (company_prompt company) 180) in
  let stored v w := save_company (set_company_cache key v w) in
  get_company_info cfg oracle company w
  = match TRUSTED_STATS cfg !! key with
    | Some v => (Ok v, w0)
    | None =>
        match company_cache w !! key with
        | Some v => (Ok v, w0)
        | None =>
            match has_keys ["hq_country"; "employees"; "revenue"] parsed with
            | Raise e => (Raise e, w1)
            | Ok ok =>
                let v := if ok then parsed else unknown_company in
                (Ok v, stored v w1)
            end
        end
    end.
Proof.
  cbv zeta. unfold get_company_info, bind, modify, gets, ret, lift,
    rate_limited_groq. cbn [company_cache log].
  destruct (TRUSTED_STATS cfg !! strip (lower company)); [reflexivity|].
  cbn [company_cache log].
  destruct (company_cache w !! strip (lower company)); [reflexivity|].
  rewrite oracle_calls_log. cbn [is_oracle_call].
  destruct (has_keys _ _) as [[]|]; reflexivity.
Qed.

Lemma detect_industry_cases (company title : string) (w : World) :
  let key := industry_key company title in
  let w0 := log (CallDetect company title) w in
  let w1 := log (CallOracle (industry_prompt company) 12) w0 in
  let stored b w := save_industry (set_industry_cache key (PBool b) w) in
  detect_industry cfg oracle company title w
  = match industry_cache w !! key with
    | Some v => (Ok v, w0)
    | None =>
        let '(b, asked) := fresh_answer cfg oracle company w in
        (Ok (PBool b), stored b (if asked then w1 else w0))
    end.
Proof.
  cbv zeta. unfold detect_industry, fresh_answer, bind, modify, gets, ret,
    rate_limited_groq. cbn [industry_cache log].
  destruct (industry_cache w !! industry_key company title); [reflexivity|].
  destruct (mem _ _); [reflexivity|].
  destruct (existsb _ _); [reflexivity|].
  destruct (any_in _ _); [reflexivity|].
  rewrite oracle_calls_log. reflexivity.
Qed.

Lemma classify_service_effect (title : string) (w : World) :
  let w' := snd (classify_service cfg oracle title w) in
  effect 1 w w'
  /\ company_cache w' = company_cache w
  /\ industry_cache w' = industry_cache w.
Proof.
  cbv zeta. rewrite classify_service_cases.
  destruct (classify_cache w !! normalize_title title) eqn:E;
    [|destruct (classify_service_rule cfg title);
      [|destruct (has_keys _ _) as [[]|]]];
    cbn [snd]; (split; [split; [repeat split; caches;
      try reflexivity; apply insert_subseteq; exact E | count_calls]
                       | split; reflexivity]).
Qed.

Lemma get_company_info_effect (company : string) (w : World) :
  let w' := snd (get_company_info cfg oracle company w) in
  effect 1 w w'
  /\ classify_cache w' = classify_cache w
  /\ industry_cache w' = industry_cache w.
Proof.
  cbv zeta. rewrite get_company_info_cases.
  destruct (TRUSTED_STATS cfg !! strip (lower company));
    [|destruct (company_cache w !! strip (lower company)) eqn:E;
      [|destruct (has_keys _ _) as [[]|]]];
    cbn [snd]; (split; [split; [repeat split; caches;
      try reflexivity; apply insert_subseteq; exact E | count_calls]
                       | split; reflexivity]).
Qed.

Lemma detect_industry_effect (company title : string) (w : World) :
  let w' := snd (detect_industry cfg oracle company title w) in
  effect 1 w w'
  /\ classify_cache w' = classify_cache w
  /\ company_cache w' = company_cache w.
Proof.
  cbv zeta. rewrite detect_industry_cases.
  destruct (industry_cache w !! industry_key company title) eqn:E;
    [|destruct (fresh_answer cfg oracle company w) as [b []]];
    cbn [snd]; (split; [split; [repeat split; caches;
      try reflexivity; apply insert_subseteq; exact E | count_calls]
                       | split; reflexivity]).
Qed.

Lemma bounded_ret {A : Type} (a : A) : bounded 0 (ret a).
Proof. intros w. apply effect_refl. Qed.

Lemma bounded_lift {A : Type} (r : result A) : bounded 0 (lift r).
Proof. intros w. apply effect_refl. Qed.

Lemma bounded_bind {A B : Type} (n k : nat) (m : M A) (f : A -> M B) :
  bounded n m -> (forall a, bounded k (f a)) -> bounded (n + k) (bind m f).
Proof.
  intros Hm Hf w. unfold bind. specialize (Hm w).
  destruct (m w) as [[a|e] w1]; cbn [snd] in *.
  - eapply effect_trans; [exact Hm | apply Hf].
  - eapply effect_weaken; [|exact Hm]. lia.
Qed.

Lemma bounded_classify_row (company title url : string) (idx : Z) :
  bounded 3 (classify_row cfg oracle company title url idx).
Proof.
  unfold classify_row.
  apply (bounded_bind 1 2); [intros w; apply classify_service_effect|].
  intros svc.
  apply (bounded_bind 1 1); [intros w; apply get_company_info_effect|].
  intros info.
  apply (bounded_bind 1 0); [intros w; apply detect_industry_effect|].
  intros ind.
  repeat (apply (bounded_bind 0 0); [apply bounded_lift|intros ?]).
  apply bounded_ret.
Qed.

Lemma bounded_run_icp_engine_logic (company title : string) :
  bounded (if is_game_role title then 3 else 0)
    (run_icp_engine_logic cfg oracle company title).
Proof.
  unfold run_icp_engine_logic. destruct (is_game_role title); cbn [negb].
  - apply (bounded_bind 1 2); [intros w; apply classify_service_effect|].
    intros svc.
    apply (bounded_bind 1 1); [intros w; apply get_company_info_effect|].
    intros info.
    apply (bounded_bind 1 0); [intros w; apply detect_industry_effect|].
    intros ind.
    repeat (apply (bounded_bind 0 0); [apply bounded_lift|intros ?]).
    apply bounded_ret.
  - apply bounded_ret.
Qed.

End Classifiers.
End CacheFacts.

Module RunFacts.
Import PyStr PyVal Normalizer Scoring Engine Defaults Invariants Fixtures.
Import Effects BatchFacts CacheFacts.
Local Open Scope engine_scope.

Section Steps.
Variable cfg : Config.
Variable oracle : nat -> string -> Z -> option string.
Variable total : nat.

Lemma periodic_save_cases (w : World) :
  (periodic_save total w = (Ok tt, w))
  \/ (periodic_save total w = (Ok tt, save_all w)).
Proof.
  unfold periodic_save, bind, gets, modify, ret.
  destruct (_ || _); auto.
Qed.

(** The four ways through one iteration. *)
Lemma row_step_cases (idx : Z) (row : Row) (w : World) :
  let w' := row_step cfg oracle total idx row w in
  ((idx ∈ processed w) /\ w' = w)
  \/ ((idx ∉ processed w) /\ ~ reaches_gate idx row w
      /\ w' = add_processed idx w)
  \/ (reaches_gate idx row w
      /\ exists r w0 w1,
           ((is_game_role (title_of row) = false
             /\ r = non_game_rec (company_of row) (title_of row)
                      (url_of row) idx
             /\ w0 = w)
            \/ (is_game_role (title_of row) = true
                /\ classify_row cfg oracle (company_of row) (title_of row)
                     (url_of row) idx w = (Ok r, w0)))
           /\ emit r idx (url_of row) w0 = (Ok tt, w1)
           /\ (w' = w1 \/ w' = save_all w1))
  \/ (reaches_gate idx row w
      /\ is_game_role (title_of row) = true
      /\ exists e w0,
           classify_row cfg oracle (company_of row) (title_of row)
             (url_of row) idx w = (Raise e, w0)
           /\ w' = save_all w0).
Proof.
  cbv zeta. unfold Engine.row_step. case_bool_decide as Hp; [left; auto|].
  right.
  destruct (is_empty (title_of row) || is_empty (company_of row)) eqn:Hv.
  { rewrite try_row_invalid by exact Hv. left. split; [exact Hp|].
    split; [|reflexivity]. intros (_ & Ht & Hc & _).
    rewrite Ht, Hc in Hv. discriminate. }
  apply orb_false_iff in Hv as [Ht Hc].
  assert (Hcase : (is_empty (url_of row) = false /\ url_of row ∈ seen_urls w)
                  \/ (is_empty (url_of row) = true \/ url_of row ∉ seen_urls w)).
  { destruct (is_empty (url_of row)); [tauto|].
    destruct (base.decide (url_of row ∈ seen_urls w)); tauto. }
  destruct Hcase as [[Hu Hs]|Hu].
  { rewrite try_row_duplicate by assumption. left. split; [exact Hp|].
    split; [|reflexivity]. intros (_ & _ & _ & [Hu'|Hu']); congruence. }
  right.
  assert (Hgate : reaches_gate idx row w) by (repeat split; assumption).
  rewrite try_row_gate by assumption.
  destruct (is_game_role (title_of row)) eqn:Hg; cbn [negb]; unfold bind.
  - destruct (classify_row cfg oracle (company_of row) (title_of row)
                (url_of row) idx w) as [[r|e] w0] eqn:Hrow.
    + left. split; [exact Hgate|].
      destruct (emit_spec r idx (url_of row) w0) as (w1 & He & _).
      rewrite He. exists r, w0, w1. split; [right; auto|].
      split; [exact He|].
      destruct (periodic_save_cases w1) as [-> | ->]; auto.
    + right. split; [exact Hgate|]. split; [reflexivity|].
      exists e, w0. auto.
  - left. split; [exact Hgate|].
    destruct (emit_spec (non_game_rec (company_of row) (title_of row)
                (url_of row) idx) idx (url_of row) w) as (w1 & He & _).
    rewrite He. eexists _, w, w1. split; [left; auto|].
    split; [exact He|].
    destruct (periodic_save_cases w1) as [-> | ->]; auto.
Qed.

Lemma effect_same (w w' : World) :
  calls w' = calls w -> classify_cache w' = classify_cache w ->
  company_cache w' = company_cache w -> industry_cache w' = industry_cache w ->
  effect 0 w w'.
Proof.
  intros Hc H1 H2 H3. split; [repeat split; rewrite ?H1, ?H2, ?H3; reflexivity|].
  unfold oracle_calls. rewrite Hc. lia.
Qed.

Lemma effect_quiet (w w' : World) : quiet w w' -> effect 0 w w'.
Proof. intros (?&?&?&?). apply effect_same; assumption. Qed.

Lemma effect_save_all (w : World) : effect 0 w (save_all w).
Proof. apply effect_same; reflexivity. Qed.

Lemma effect_emit (r : rec) (idx : Z) (url : string) (w w1 : World) :
  emit r idx url w = (Ok tt, w1) -> effect 0 w w1.
Proof.
  intros H. destruct (emit_spec r idx url w) as (w1' & He & _ & _ & _ & Hq).
  rewrite He in H. injection H as <-. apply effect_quiet, Hq.
Qed.

(** One iteration: the caches grow, and the oracle is asked three times
    at most, and not at all for a title that fails the gate. *)
Lemma row_step_effect (idx : Z) (row : Row) (w : World) :
  effect (if is_game_role (title_of row) then 3 else 0) w
    (row_step cfg oracle total idx row w).
Proof.
  destruct (row_step_cases idx row w)
    as [[_ ->]|[(_ & _ & ->)|[(_ & r & w0 & w1 & Hsrc & He & Hw)
                            |(_ & Hg & e & w0 & Hrow & ->)]]].
  - eapply effect_weaken; [|apply effect_refl]. lia.
  - eapply effect_weaken; [|apply effect_same; reflexivity]. lia.
  - assert (H0 : effect (if is_game_role (title_of row) then 3 else 0) w w0).
    { destruct Hsrc as [(Hg & _ & ->)|(Hg & Hrow)]; rewrite Hg.
      - apply effect_refl.
      - pose proof (bounded_classify_row cfg oracle (company_of row)
                      (title_of row) (url_of row) idx w) as H.
        rewrite Hrow in H. exact H. }
    assert (H1 : effect 0 w0 w1) by (eapply effect_emit; eauto).
    assert (H2 : effect 0 w1 (row_step cfg oracle total idx row w)).
    { destruct Hw as [-> | ->]; [apply effect_refl | apply effect_save_all]. }
    pose proof (effect_trans _ _ _ _ _ (effect_trans _ _ _ _ _ H0 H1) H2) as H.
    eapply effect_weaken; [|exact H]. lia.
  - rewrite Hg.
    pose proof (bounded_classify_row cfg oracle (company_of row)
                  (title_of row) (url_of row) idx w) as H.
    rewrite Hrow in H. cbn [snd] in H.
    pose proof (effect_trans _ _ _ _ _ H (effect_save_all w0)) as H'.
    eapply effect_weaken; [|exact H']. lia.
Qed.

(** The rows whose title passes the game-role gate. *)
Lemma loop_effect (rows : list Row) (idx : Z) (w : World) :
  effect (3 * length (filter (fun row => is_game_role (title_of row) = true)
                        rows))
    w (loop cfg oracle total idx rows w).
Proof.
  revert idx w. induction rows as [|row rows IH]; intros idx w; simpl.
  - apply effect_refl.
  - rewrite filter_cons.
    pose proof (row_step_effect idx row w) as H1.
    pose proof (IH (idx + 1) (row_step cfg oracle total idx row w)) as H2.
    pose proof (effect_trans _ _ _ _ _ H1 H2) as H.
    eapply effect_weaken; [|exact H].
    destruct (is_game_role (title_of row)); case_decide; simpl;
      try congruence; lia.
Qed.

End Steps.

Lemma process_dataframe_effect (cfg : Config)
    (oracle : nat -> string -> Z -> option string)
    (df : list Row) (w : World) :
  effect (3 * length (filter (fun row => is_game_role (title_of row) = true)
                        df))
    w (process_dataframe cfg oracle df w).
Proof.
  unfold process_dataframe.
  assert (H0 : effect 0 w (resume w)).
  { apply effect_same; unfold resume;
      destruct (partial_csv w) as [[|]|]; reflexivity. }
  pose proof (loop_effect cfg oracle (length df) df 0 (resume w)) as H1.
  assert (H2 : effect 0 (loop cfg oracle (length df) 0 df (resume w))
                 (finish (loop cfg oracle (length df) 0 df (resume w))))
    by (apply effect_same; reflexivity).
  pose proof (effect_trans _ _ _ _ _ (effect_trans _ _ _ _ _ H0 H1) H2) as H.
  eapply effect_weaken; [|exact H]. lia.
Qed.

Lemma qualify_rows_effect (cfg : Config)
    (oracle : nat -> string -> Z -> option string)
    (rows : list Row) (idx : Z) (acc : list rec) :
  bounded (3 * length (filter (fun row => is_game_role (row_title row) = true)
                         rows))
    (qualify_rows cfg oracle idx rows acc).
Proof.
  revert idx acc. induction rows as [|row rows IH]; intros idx acc; simpl.
  - apply bounded_ret.
  - rewrite filter_cons. intros w.
    pose proof (bounded_bind _ _ _ _
                  (bounded_run_icp_engine_logic cfg oracle (row_company row)
                     (row_title row))
                  (fun o => IH (idx + 1)
                     (acc ++ [rec_of (row_company row) (row_title row)
                                (default EmptyString (row_url row)) idx o]))
                  w) as H.
    eapply effect_weaken; [|exact H].
    destruct (is_game_role (row_title row)); case_decide; simpl;
      try congruence; lia.
Qed.

(** X17.  Cached answers are permanent: every entry the three caches hold
    before a batch run, or before a run of [run_qualification], is still
    there afterwards, with the same value. *)
Theorem cache_entries_permanent (cfg : Config)
    (oracle : nat -> string -> Z -> option string)
    (df : list Row) (w : World) (k : string) (v : pyval) :
  let batch := process_dataframe cfg oracle df w in
  let single := snd (run_qualification cfg oracle df w) in
  (classify_cache w !! k = Some v ->
   classify_cache batch !! k = Some v /\ classify_cache single !! k = Some v)
  /\ (company_cache w !! k = Some v ->
      company_cache batch !! k = Some v /\ company_cache single !! k = Some v)
  /\ (industry_cache w !! k = Some v ->
      industry_cache batch !! k = Some v
      /\ industry_cache single !! k = Some v).
Proof.
  cbv zeta.
  destruct (process_dataframe_effect cfg oracle df w) as [(B1 & B2 & B3) _].
  destruct (qualify_rows_effect cfg oracle df 0 [] w) as [(S1 & S2 & S3) _].
  fold (run_qualification cfg oracle df) in S1, S2, S3.
  split; [|split]; intros H; (split; (eapply lookup_weaken; [exact H|assumption])).
Qed.

(** X18.  [rate_limited_groq] is called three times per game-role row
    at most: a batch run and a run of [run_qualification] over a table
    add to the calls made so far at most three times the number of rows
    whose title passes the gate. *)
Theorem oracle_budget (cfg : Config)
    (oracle : nat -> string -> Z -> option string)
    (df : list Row) (w : World) :
  (oracle_calls (process_dataframe cfg oracle df w)
   <= oracle_calls w
      + 3 * length (filter (fun row => is_game_role (title_of row) = true)
                      df))%nat
  /\ (oracle_calls (snd (run_qualification cfg oracle df w))
      <= oracle_calls w
         + 3 * length (filter (fun row => is_game_role (row_title row) = true)
                         df))%nat.
Proof.
  split.
  - apply process_dataframe_effect.
  - apply (qualify_rows_effect cfg oracle df 0 [] w).
Qed.

End RunFacts.

(** ** Memoization *)

Module MemoFacts.
Import PyStr PyVal Normalizer Scoring Engine Defaults Invariants Fixtures.
Import Effects BatchFacts CacheFacts RunFacts.
Local Open Scope engine_scope.

Section Memo.
Variable cfg : Config.

Lemma classify_service_stores (oracle : nat -> string -> Z -> option string)
    (title : string) (w w1 : World) (v : pyval) :
  classify_service cfg oracle title w = (Ok v, w1) ->
  classify_cache w1 !! normalize_title title = Some v.
Proof.
  rewrite classify_service_cases.
  destruct (classify_cache w !! normalize_title title) eqn:E;
    [|destruct (classify_service_rule cfg title);
      [|destruct (has_keys _ _) as [[]|]]];
    intros [= <- <-]; caches; rewrite ?lookup_insert_eq; auto.
Qed.

Lemma classify_service_hit (oracle : nat -> string -> Z -> option string)
    (title : string) (w : World) (v : pyval) :
  classify_cache w !! normalize_title title = Some v ->
  classify_service cfg oracle title w = (Ok v, log (CallClassify title) w).
Proof. intros H. rewrite classify_service_cases, H. reflexivity. Qed.

Lemma get_company_info_stores (oracle : nat -> string -> Z -> option string)
    (company : string) (w w1 : World) (v : pyval) :
  get_company_info cfg oracle company w = (Ok v, w1) ->
  TRUSTED_STATS cfg !! strip (lower company) = Some v
  \/ (TRUSTED_STATS cfg !! strip (lower company) = None
      /\ company_cache w1 !! strip (lower company) = Some v).
Proof.
  rewrite get_company_info_cases.
  destruct (TRUSTED_STATS cfg !! strip (lower company));
    [|destruct (company_cache w !! strip (lower company)) eqn:E;
      [|destruct (has_keys _ _) as [[]|]]];
    intros [= <- <-]; caches; rewrite ?lookup_insert_eq; auto.
Qed.

Lemma get_company_info_hit (oracle : nat -> string -> Z -> option string)
    (company : string) (w : World) (v : pyval) :
  TRUSTED_STATS cfg !! strip (lower company) = Some v
  \/ (TRUSTED_STATS cfg !! strip (lower company) = None
      /\ company_cache w !! strip (lower company) = Some v) ->
  get_company_info cfg oracle company w
  = (Ok v, log (CallCompanyInfo company) w).
Proof.
  intros [H|[H1 H2]]; rewrite get_company_info_cases.
  - rewrite H. reflexivity.
  - rewrite H1, H2. reflexivity.
Qed.

Lemma detect_industry_stores (oracle : nat -> string -> Z -> option string)
    (company title : string) (w w1 : World) (v : pyval) :
  detect_industry cfg oracle company title w = (Ok v, w1) ->
  industry_cache w1 !! industry_key company title = Some v.
Proof.
  rewrite detect_industry_cases.
  destruct (industry_cache w !! industry_key company title) eqn:E;
    [|destruct (fresh_answer cfg oracle company w) as [b []]];
    intros [= <- <-]; caches; rewrite ?lookup_insert_eq; auto.
Qed.

Lemma detect_industry_hit (oracle : nat -> string -> Z -> option string)
    (company title : string) (w : World) (v : pyval) :
  industry_cache w !! industry_key company title = Some v ->
  detect_industry cfg oracle company title w
  = (Ok v, log (CallDetect company title) w).
Proof. intros H. rewrite detect_industry_cases, H. reflexivity. Qed.

(** X9.  Classification is memoized on the normalized title: once
    [classify_service] has answered for a title, it gives the same answer
    for every title of the same normalized form, in every later state
    whose caches have only grown, whatever the oracle would say; it then
    logs its call and changes nothing else. *)
Theorem classify_service_memoized
    (oracle oracle' : nat -> string -> Z -> option string)
    (title title' : string) (w w1 w2 : World) (v : pyval) :
  classify_service cfg oracle title w = (Ok v, w1) ->
  normalize_title title' = normalize_title title ->
  grows w1 w2 ->
  classify_service cfg oracle' title' w2
  = (Ok v, log (CallClassify title') w2).
Proof.
  intros Hrun Hkey (G & _ & _).
  apply classify_service_hit. rewrite Hkey.
  eapply lookup_weaken; [|exact G].
  eapply classify_service_stores; eauto.
Qed.

Lemma run_game_role_steps (oracle : nat -> string -> Z -> option string)
    (company title : string) (w w1 : World) (o : Outcome) :
  is_game_role title = true ->
  run_icp_engine_logic cfg oracle company title w = (Ok o, w1) ->
  exists svc info ind wa wb bucket detailed hq emp rev dec,
    classify_service cfg oracle title w = (Ok svc, wa)
    /\ get_company_info cfg oracle company wa = (Ok info, wb)
    /\ detect_industry cfg oracle company title wb = (Ok ind, w1)
    /\ subscript svc "service_bucket" = Ok bucket
    /\ subscript svc "detailed_service" = Ok detailed
    /\ subscript info "hq_country" = Ok hq
    /\ subscript info "employees" = Ok emp
    /\ subscript info "revenue" = Ok rev
    /\ decide cfg company bucket detailed hq emp rev ind = Ok dec
    /\ o = {| o_score := score dec; o_decision := decision dec;
              o_reason := reason dec;
              o_service_bucket := bucket; o_detailed_service := detailed;
              o_hq := hq; o_employees := emp; o_revenue := rev;
              o_industry := ind; o_confidence := confidence dec |}.
Proof.
  intros Hg. unfold run_icp_engine_logic. rewrite Hg. cbn [negb].
  intros H.
  apply bind_ok in H as (svc & wa & Hs & H).
  apply bind_ok in H as (info & wb & Hi & H).
  apply bind_ok in H as (ind & wc & Hd & H).
  apply bind_ok in H as (bucket & w3 & Hb & H).
  apply bind_ok in H as (detailed & w4 & Hdt & H).
  apply bind_ok in H as (hq & w5 & Hhq & H).
  apply bind_ok in H as (emp & w6 & Hemp & H).
  apply bind_ok in H as (rev & w7 & Hrev & H).
  apply bind_ok in H as (dec & w8 & Hdec & H).
  unfold lift in *. unfold ret in H.
  injection Hb as Hb <-. injection Hdt as Hdt <-. injection Hhq as Hhq <-.
  injection Hemp as Hemp <-. injection Hrev as Hrev <-.
  injection Hdec as Hdec <-. injection H as <- <-.
  exists svc, info, ind, wa, wb, bucket, detailed, hq, emp, rev, dec.
  repeat split; assumption.
Qed.

(** X15.  Qualifying the same lead again costs nothing and changes
    nothing: once [run_icp_engine_logic] has returned for a company and a
    title, it returns the same outcome in every later state whose caches
    have only grown, whatever the oracle would say, without a request to
    the oracle and without a change of the caches. *)
Theorem qualification_repeatable
    (oracle oracle' : nat -> string -> Z -> option string)
    (company title : string) (w w1 w2 : World) (o : Outcome) :
  run_icp_engine_logic cfg oracle company title w = (Ok o, w1) ->
  grows w1 w2 ->
  exists w3,
    run_icp_engine_logic cfg oracle' company title w2 = (Ok o, w3)
    /\ oracle_calls w3 = oracle_calls w2
    /\ classify_cache w3 = classify_cache w2
    /\ company_cache w3 = company_cache w2
    /\ industry_cache w3 = industry_cache w2.
Proof.
  intros Hrun Hgrow.
  destruct (is_game_role title) eqn:Hg.
  2:{ unfold run_icp_engine_logic in *. rewrite Hg in *. cbn [negb] in *.
      unfold ret in *. injection Hrun as <- <-. exists w2. repeat split. }
  destruct (run_game_role_steps _ _ _ _ _ _ Hg Hrun)
    as (svc & info & ind & wa & wb & bucket & detailed & hq & emp & rev & dec
        & Hs & Hi & Hd & Hb & Hdt & Hhq & Hemp & Hrev & Hdec & ->).
  pose proof (classify_service_stores _ _ _ _ _ Hs) as Ks.
  pose proof (get_company_info_stores _ _ _ _ _ Hi) as Ki.
  pose proof (detect_industry_stores _ _ _ _ _ _ Hd) as Kd.
  pose proof (get_company_info_effect cfg oracle company wa) as (_ & Fi1 & _).
  pose proof (detect_industry_effect cfg oracle company title wb)
    as (_ & Fd1 & Fd2).
  rewrite Hi in Fi1. rewrite Hd in Fd1, Fd2. cbn [snd] in *.
  destruct Hgrow as (G1 & G2 & G3).
  assert (Ks2 : classify_cache w2 !! normalize_title title = Some svc).
  { eapply lookup_weaken; [|exact G1]. rewrite Fd1, Fi1. exact Ks. }
  assert (Ki2 : TRUSTED_STATS cfg !! strip (lower company) = Some info
                \/ (TRUSTED_STATS cfg !! strip (lower company) = None
                    /\ company_cache w2 !! strip (lower company) = Some info)).
  { destruct Ki as [Ki|[Ki1 Ki2]]; [left; exact Ki|right].
    split; [exact Ki1|]. eapply lookup_weaken; [|exact G2].
    rewrite Fd2. exact Ki2. }
  assert (Kd2 : industry_cache w2 !! industry_key company title = Some ind)
    by (eapply lookup_weaken; [exact Kd | exact G3]).
  eexists. split.
  - unfold run_icp_engine_logic. rewrite Hg. cbn [negb].
    unfold bind at 1. rewrite (classify_service_hit oracle' _ _ _ Ks2).
    unfold bind at 1. rewrite (get_company_info_hit oracle' company _ info)
      by exact Ki2.
    unfold bind at 1. rewrite (detect_industry_hit oracle' company title _ ind)
      by exact Kd2.
    unfold bind, lift, ret. rewrite Hb, Hdt, Hhq, Hemp, Hrev, Hdec.
    reflexivity.
  - split; [count_calls|]. repeat split.
Qed.

End Memo.

Lemma classify_service_memoized_witness :
  classify_service default_config reply_seven "ENGINEER (Senior)"
    (snd (classify_service default_config silent "Senior Engineer" fresh))
  = (Ok (PDict [("detailed_service", PStr "Programming");
                ("service_bucket", PStr "Co-Dev")]),
     log (CallClassify "ENGINEER (Senior)")
       (snd (classify_service default_config silent "Senior Engineer" fresh))).
Proof.
  apply (classify_service_memoized default_config silent reply_seven
           "Senior Engineer" "ENGINEER (Senior)" fresh
           (snd (classify_service default_config silent "Senior Engineer"
                   fresh))).
  - vm_compute. reflexivity.
  - vm_compute. reflexivity.
  - apply grows_refl.
Defined.

Lemma qualification_repeatable_witness :
  exists o w1 w3,
    run_icp_engine_logic default_config silent "Epic Games" "Senior Animator"
      fresh = (Ok o, w1)
    /\ run_icp_engine_logic default_config reply_seven "Epic Games"
         "Senior Animator" w1 = (Ok o, w3)
    /\ oracle_calls w3 = oracle_calls w1.
Proof.
  destruct (run_icp_engine_logic default_config silent "Epic Games"
              "Senior Animator" fresh) as [[o|e] w1] eqn:E;
    [|vm_compute in E; discriminate].
  destruct (qualification_repeatable default_config silent reply_seven
              "Epic Games" "Senior Animator" fresh w1 w1 o E (grows_refl w1))
    as (w3 & H1 & H2 & _).
  exists o, w1, w3. auto.
Defined.

(** X10.  Answers given during an outage stay: when the oracle returns
    nothing, a title that no rule and no cache entry covers is classified
    Unknown / None, a company without trusted or cached statistics gets
    Unknown for country, employees and revenue, and a company that no
    list and no cache entry decides is taken as not gaming; each of these
    fallbacks is cached, so later calls return it without asking, also
    once the oracle answers again. *)
Theorem outage_answers_are_cached (cfg : Config)
    (oracle oracle' : nat -> string -> Z -> option string)
    (company title : string) (w : World) :
  (forall n prompt t, oracle n prompt t = None) ->
  (classify_cache w !! normalize_title title = None ->
   classify_service_rule cfg title = None ->
   exists w1,
     classify_service cfg oracle title w = (Ok unknown_service, w1)
     /\ forall w2, grows w1 w2 ->
          classify_service cfg oracle' title w2
          = (Ok unknown_service, log (CallClassify title) w2))
  /\ (TRUSTED_STATS cfg !! strip (lower company) = None ->
      company_cache w !! strip (lower company) = None ->
      exists w1,
        get_company_info cfg oracle company w = (Ok unknown_company, w1)
        /\ forall w2, grows w1 w2 ->
             get_company_info cfg oracle' company w2
             = (Ok unknown_company, log (CallCompanyInfo company) w2))
  /\ (industry_cache w !! industry_key company title = None ->
      mem (strip (lower company)) (forced_non_gaming cfg) = false ->
      existsb (fun n => contains n (strip (lower company)))
        (trusted_game_companies cfg) = false ->
      any_in name_tokens (strip (lower company)) = false ->
      exists w1,
        detect_industry cfg oracle company title w = (Ok (PBool false), w1)
        /\ forall w2, grows w1 w2 ->
             detect_industry cfg oracle' company title w2
             = (Ok (PBool false), log (CallDetect company title) w2)).
Proof.
  intros Hout. split; [|split].
  - intros Hc Hr.
    assert (E : exists w1,
               classify_service cfg oracle title w = (Ok unknown_service, w1)).
    { rewrite classify_service_cases, Hc, Hr, Hout. eexists. reflexivity. }
    destruct E as (w1 & E). exists w1. split; [exact E|].
    intros w2 (G & _). apply classify_service_hit.
    eapply lookup_weaken; [|exact G].
    eapply classify_service_stores; eauto.
  - intros Ht Hc.
    assert (E : exists w1,
               get_company_info cfg oracle company w
               = (Ok unknown_company, w1)).
    { rewrite get_company_info_cases, Ht, Hc, Hout. eexists. reflexivity. }
    destruct E as (w1 & E). exists w1. split; [exact E|].
    intros w2 (_ & G & _). apply get_company_info_hit. right.
    split; [exact Ht|].
    destruct (get_company_info_stores _ _ _ _ _ _ E) as [K|[_ K]];
      [congruence|].
    eapply lookup_weaken; [exact K | exact G].
  - intros Hc Hf Htr Htok.
    assert (E : exists w1,
               detect_industry cfg oracle company title w
               = (Ok (PBool false), w1)).
    { rewrite detect_industry_cases, Hc. unfold fresh_answer.
      rewrite Hf, Htr, Htok, Hout. eexists. reflexivity. }
    destruct E as (w1 & E). exists w1. split; [exact E|].
    intros w2 (_ & _ & G). apply detect_industry_hit.
    eapply lookup_weaken; [|exact G].
    eapply detect_industry_stores; eauto.
Qed.

Lemma outage_answers_are_cached_witness :
  exists w1,
    get_company_info default_config silent "Tiny Studio" fresh
    = (Ok unknown_company, w1)
    /\ get_company_info default_config (fun _ _ _ => Some "{}") "Tiny Studio"
         w1
       = (Ok unknown_company, log (CallCompanyInfo "Tiny Studio") w1).
Proof.
  destruct (outage_answers_are_cached default_config silent
              (fun _ _ _ => Some "{}") "Tiny Studio" "QA Tester" fresh)
    as (_ & H & _); [reflexivity|].
  destruct H as (w1 & H1 & H2); [vm_compute; reflexivity | reflexivity |].
  exists w1. split; [exact H1|]. apply H2. apply grows_refl.
Defined.

End MemoFacts.

(** ** Well-shaped runs *)

Module ShapeFacts.
Import PyStr PyVal Normalizer Scoring Engine Defaults Invariants Fixtures.
Import Effects Tables ScoringFacts PolicyFacts BatchFacts CacheFacts RunFacts
  MemoFacts.
Local Open Scope engine_scope.

Lemma rule_of_shaped (val r : pyval) :
  rule_of val = Some r -> service_shaped r.
Proof.
  destruct val as [| | | | | | |[|v0 [|v1 l]]|d]; try discriminate;
    intros [= <-]; eexists _, _; split; reflexivity.
Qed.

Lemma first_rule_shaped (m : list (string * pyval)) (t : string)
    (ks : list string) (r : pyval) :
  first_rule m t ks = Some r -> service_shaped r.
Proof.
  induction ks as [|k ks IH]; simpl; [discriminate|].
  destruct (contains k t); [|exact IH].
  destruct (get k m) as [val|]; [|exact IH].
  destruct (rule_of val) as [r0|] eqn:E; [|exact IH].
  intros [= <-]. eapply rule_of_shaped; eauto.
Qed.

Lemma all_keys_dict (ks : list string) (d : list (string * pyval)) :
  exists ok,
    all_keys ks (PDict d) = Ok ok
    /\ (ok = true -> forall k, In k ks -> is_Some (get k d)).
Proof.
  induction ks as [|k ks (ok & IH & Hok)]; simpl.
  - exists true. split; [reflexivity|]. intros _ ? [].
  - destruct (get k d) as [x|] eqn:E.
    + exists ok. split; [exact IH|]. intros Ht k' [<-|Hin]; [eauto|auto].
    + exists false. split; [reflexivity|]. discriminate.
Qed.

Lemma has_keys_benign (ks : list string) (v : pyval) :
  benign v ->
  exists ok,
    has_keys ks v = Ok ok
    /\ (ok = true ->
        exists d, v = PDict d /\ forall k, In k ks -> is_Some (get k d)).
Proof.
  intros [->|(d & -> & _)].
  - exists false. split; [reflexivity|discriminate].
  - unfold has_keys. destruct (truthy (PDict d)).
    + destruct (all_keys_dict ks d) as (ok & H & Hok).
      exists ok. split; [exact H|]. intros Ht. exists d. auto.
    + exists false. split; [reflexivity|discriminate].
Qed.

Lemma elem_of_mark (idx : Z) (s : gset Z) : idx ∈ {[idx]} ∪ s.
Proof. apply elem_of_union. left. apply elem_of_singleton. reflexivity. Qed.

Lemma unknown_service_shaped : service_shaped unknown_service.
Proof. eexists _, _. split; reflexivity. Qed.

Lemma unknown_company_shaped : company_shaped unknown_company.
Proof.
  eexists _, _, _. repeat split; try reflexivity. right. eauto.
Qed.

Lemma well_formed_same (cfg : Config) (w w' : World) :
  classify_cache w' = classify_cache w -> company_cache w' = company_cache w ->
  well_formed cfg w -> well_formed cfg w'.
Proof. intros H1 H2 (A & B & C). repeat split; rewrite ?H1, ?H2; auto. Qed.

Section Shaped.
Variable cfg : Config.
Variable oracle : nat -> string -> Z -> option string.
Hypothesis Hbenign : benign_oracle oracle.

Lemma classify_service_ok (title : string) (w : World) :
  well_formed cfg w ->
  exists v w',
    classify_service cfg oracle title w = (Ok v, w')
    /\ service_shaped v /\ well_formed cfg w'.
Proof.
  intros (A & B & C). rewrite classify_service_cases.
  assert (Hins : forall v w0,
             classify_cache w0 = classify_cache w ->
             company_cache w0 = company_cache w ->
             service_shaped v ->
             well_formed cfg
               (save_classify
                  (set_classify_cache (normalize_title title) v w0))).
  { intros v w0 H1 H2 Hv. repeat split; caches; rewrite ?H1, ?H2; auto.
    intros k x [[_ <-]|[_ Hx]]%lookup_insert_Some; eauto. }
  destruct (classify_cache w !! normalize_title title) as [v|] eqn:E.
  { eexists _, _. split; [reflexivity|]. split; [eauto|].
    repeat split; auto. }
  destruct (classify_service_rule cfg title) as [r|] eqn:Er.
  { eexists _, _. split; [reflexivity|].
    assert (service_shaped r) by (eapply first_rule_shaped; exact Er).
    split; [assumption|]. apply Hins; auto. }
  destruct (has_keys_benign ["detailed_service"; "service_bucket"] _
              (Hbenign (oracle_calls w) (classify_prompt title) 150))
    as (ok & -> & Hok).
  eexists _, _. split; [reflexivity|].
  assert (Hv : service_shaped
                 (if ok
                  then Repair.repair_json
                         (strip <$> oracle (oracle_calls w)
                                      (classify_prompt title) 150)
                  else unknown_service)).
  { destruct ok; [|apply unknown_service_shaped].
    destruct (Hok eq_refl) as (d & -> & Hk).
    destruct (Hk "service_bucket") as [b Hb]; [simpl; auto|].
    destruct (Hk "detailed_service") as [dt Hdt]; [simpl; auto|].
    exists b, dt. simpl. rewrite Hb, Hdt. auto. }
  split; [exact Hv|]. apply Hins; auto.
Qed.

Lemma get_company_info_ok (company : string) (w : World) :
  well_formed cfg w ->
  exists v w',
    get_company_info cfg oracle company w = (Ok v, w')
    /\ company_shaped v /\ well_formed cfg w'.
Proof.
  intros (A & B & C). rewrite get_company_info_cases.
  assert (Hins : forall v w0,
             classify_cache w0 = classify_cache w ->
             company_cache w0 = company_cache w ->
             company_shaped v ->
             well_formed cfg
               (save_company
                  (set_company_cache (strip (lower company)) v w0))).
  { intros v w0 H1 H2 Hv. repeat split; caches; rewrite ?H1, ?H2; auto.
    intros k x [[_ <-]|[_ Hx]]%lookup_insert_Some; eauto. }
  destruct (TRUSTED_STATS cfg !! strip (lower company)) as [v|] eqn:Et.
  { eexists _, _. split; [reflexivity|]. split; [eauto|].
    repeat split; auto. }
  destruct (company_cache w !! strip (lower company)) as [v|] eqn:E.
  { eexists _, _. split; [reflexivity|]. split; [eauto|].
    repeat split; auto. }
  pose proof (Hbenign (oracle_calls w) (company_prompt company) 180) as Hb.
  destruct (has_keys_benign ["hq_country"; "employees"; "revenue"] _ Hb)
    as (ok & -> & Hok).
  eexists _, _. split; [reflexivity|].
  assert (Hv : company_shaped
                 (if ok
                  then Repair.repair_json
                         (strip <$> oracle (oracle_calls w)
                                      (company_prompt company) 180)
                  else unknown_company)).
  { destruct ok; [|apply unknown_company_shaped].
    destruct (Hok eq_refl) as (d & Hd & Hk).
    rewrite Hd in Hb |- *.
    destruct Hb as [Hb|(d' & [= <-] & Hhq)]; [discriminate|].
    destruct (Hk "hq_country") as [hq Eh]; [simpl; auto|].
    destruct (Hk "employees") as [emp Ee]; [simpl; auto|].
    destruct (Hk "revenue") as [rev Ev]; [simpl; auto 6|].
    exists hq, emp, rev. simpl. rewrite Eh, Ee, Ev. auto. }
  split; [exact Hv|]. apply Hins; auto.
Qed.

Lemma detect_industry_ok (company title : string) (w : World) :
  well_formed cfg w ->
  exists v w',
    detect_industry cfg oracle company title w = (Ok v, w')
    /\ well_formed cfg w'.
Proof.
  intros Hw. rewrite detect_industry_cases.
  destruct (industry_cache w !! industry_key company title) as [v|].
  - eexists _, _. split; [reflexivity|].
    eapply well_formed_same; [| |exact Hw]; reflexivity.
  - destruct (fresh_answer cfg oracle company w) as [b []];
      eexists _, _; (split; [reflexivity|]);
      (eapply well_formed_same; [| |exact Hw]; reflexivity).
Qed.

Lemma classify_row_ok (company title url : string) (idx : Z) (w : World) :
  well_formed cfg w ->
  exists r w',
    classify_row cfg oracle company title url idx w = (Ok r, w')
    /\ well_formed cfg w'.
Proof.
  intros Hw. unfold classify_row.
  destruct (classify_service_ok title w Hw)
    as (svc & wa & Hs & (bucket & detailed & Hb & Hd) & Hwa).
  destruct (get_company_info_ok company wa Hwa)
    as (info & wb & Hi & (hq & emp & rev & Hhq & Hemp & Hrev & Hshape) & Hwb).
  destruct (detect_industry_ok company title wb Hwb)
    as (ind & wc & Hdi & Hwc).
  destruct (decide_returns cfg company bucket detailed hq emp rev ind Hshape)
    as (dec & h & Hdec & Hws).
  unfold bind at 1. rewrite Hs.
  unfold bind at 1. rewrite Hi.
  unfold bind at 1. rewrite Hdi.
  unfold bind, lift, ret. rewrite Hb, Hd, Hhq, Hemp, Hrev, Hdec, Hws.
  eexists _, _. split; [reflexivity|exact Hwc].
Qed.

Lemma run_icp_engine_logic_ok (company title : string) (w : World) :
  well_formed cfg w ->
  exists o w',
    run_icp_engine_logic cfg oracle company title w = (Ok o, w')
    /\ well_formed cfg w'.
Proof.
  intros Hw. unfold run_icp_engine_logic.
  destruct (is_game_role title); cbn [negb];
    [|eexists _, _; split; [reflexivity|exact Hw]].
  destruct (classify_service_ok title w Hw)
    as (svc & wa & Hs & (bucket & detailed & Hb & Hd) & Hwa).
  destruct (get_company_info_ok company wa Hwa)
    as (info & wb & Hi & (hq & emp & rev & Hhq & Hemp & Hrev & Hshape) & Hwb).
  destruct (detect_industry_ok company title wb Hwb)
    as (ind & wc & Hdi & Hwc).
  destruct (decide_returns cfg company bucket detailed hq emp rev ind Hshape)
    as (dec & h & Hdec & Hws).
  unfold bind at 1. rewrite Hs.
  unfold bind at 1. rewrite Hi.
  unfold bind at 1. rewrite Hdi.
  unfold bind, lift, ret. rewrite Hb, Hd, Hhq, Hemp, Hrev, Hdec.
  eexists _, _. split; [reflexivity|exact Hwc].
Qed.

Variable total : nat.

Lemma emit_caches (r : rec) (idx : Z) (url : string) (w w1 : World) :
  emit r idx url w = (Ok tt, w1) ->
  classify_cache w1 = classify_cache w /\ company_cache w1 = company_cache w.
Proof.
  intros H. destruct (emit_spec r idx url w)
    as (w1' & He & _ & _ & _ & (_ & H1 & H2 & _)).
  rewrite He in H. injection H as <-. auto.
Qed.

(** With a benign oracle no iteration fails: the row's index is marked
    and the caches keep their shape. *)
Lemma row_step_ok (idx : Z) (row : Row) (w : World) :
  well_formed cfg w ->
  let w' := row_step cfg oracle total idx row w in
  well_formed cfg w' /\ idx ∈ processed w'
  /\ (reaches_gate idx row w ->
      exists r, results w' = results w ++ [r] /\ r_url r = url_of row
                /\ r_source_index r = idx).
Proof.
  intros Hw. cbv zeta.
  destruct (row_step_cases cfg oracle total idx row w)
    as [[Hp ->]|[(Hp & Hng & ->)|[(Hgate & r & w0 & w1 & Hsrc & He & Hw')
                            |(_ & _ & e & w0 & Hrow & _)]]].
  - split; [exact Hw|]. split; [exact Hp|].
    intros (Hn & _). contradiction.
  - split; [eapply well_formed_same; [| |exact Hw]; reflexivity|].
    split; [apply elem_of_mark|]. intros; contradiction.
  - assert (Hw0 : well_formed cfg w0 /\ same_locals w w0
                  /\ r_url r = url_of row /\ r_source_index r = idx).
    { destruct Hsrc as [(_ & -> & ->)|(_ & Hrow)].
      - split; [exact Hw|]. split; [apply same_locals_refl|]. split; reflexivity.
      - destruct (classify_row_ok (company_of row) (title_of row)
                    (url_of row) idx w Hw) as (r' & w0' & Hrow' & Hw0).
        rewrite Hrow in Hrow'. injection Hrow' as <- <-.
        split; [exact Hw0|].
        pose proof (keeps_classify_row cfg oracle (company_of row)
                      (title_of row) (url_of row) idx w) as Hk.
        rewrite Hrow in Hk. split; [exact Hk|].
        eapply classify_row_record; eauto. }
    destruct Hw0 as (Hw0 & (Hl1 & Hl2 & Hl3) & Hu & Hi).
    destruct (emit_spec r idx (url_of row) w0)
      as (w1' & He' & Hr & Hpr & _ & (_ & H1 & H2 & _)).
    rewrite He in He'. injection He' as <-.
    assert (Hw1 : well_formed cfg w1)
      by (eapply well_formed_same; [| |exact Hw0]; assumption).
    destruct Hw' as [-> | ->].
    + split; [exact Hw1|]. split; [rewrite Hpr; apply elem_of_mark|].
      intros _. exists r. rewrite Hr, Hl2. auto.
    + split; [eapply well_formed_same; [| |exact Hw1]; reflexivity|].
      split; [simpl; rewrite Hpr; apply elem_of_mark|].
      intros _. exists r. simpl. rewrite Hr, Hl2. auto.
  - exfalso.
    destruct (classify_row_ok (company_of row) (title_of row)
                (url_of row) idx w Hw) as (r' & w0' & Hrow' & _).
    congruence.
Qed.

Lemma row_step_covered (idx : Z) (row : Row) (w : World) :
  covered w -> covered (row_step cfg oracle total idx row w).
Proof.
  intros Hc.
  destruct (row_step_kind cfg oracle total idx row w)
    as [Hr Hse _ | r _ Hr _ Hurl _ Hse]; intros u Hu; rewrite ?Hr.
  - rewrite Hse in Hu. exact (Hc u Hu).
  - rewrite Hse in Hu.
    assert (Hcase : u ∈ seen_urls w \/ u = url_of row).
    { destruct (is_empty (url_of row)); [auto|].
      apply elem_of_union in Hu as [Hu%elem_of_singleton|Hu]; auto. }
    destruct Hcase as [Hin| ->].
    + destruct (Hc u Hin) as (r0 & Hr0 & Hu0).
      exists r0. split; [apply elem_of_app; auto | exact Hu0].
    + exists r. split; [|exact Hurl].
      apply elem_of_app. right. apply list_elem_of_singleton. reflexivity.
Qed.

Lemma loop_ok (rows : list Row) (idx : Z) (w : World) :
  well_formed cfg w -> covered w ->
  well_formed cfg (loop cfg oracle total idx rows w)
  /\ covered (loop cfg oracle total idx rows w).
Proof.
  revert idx w. induction rows as [|row rows IH]; intros idx w Hw Hc; simpl.
  - auto.
  - apply IH; [apply row_step_ok; exact Hw | apply row_step_covered; exact Hc].
Qed.

End Shaped.


Lemma silent_benign : benign_oracle silent.
Proof. intros n p t. left. reflexivity. Qed.

Lemma default_stats_shaped (k : string) (v : pyval) :
  TRUSTED_STATS default_config !! k = Some v -> company_shaped v.
Proof.
  unfold default_config, DEFAULT_TRUSTED_STATS. cbn [TRUSTED_STATS].
  rewrite !lookup_insert_Some, lookup_empty.
  intros H.
  assert (exists a b c, v = stats a b c) as (a & b & c & ->).
  { unfold stats in *. intuition (subst; eauto || discriminate). }
  exists (PStr a), (PStr b), (PStr c). repeat split. right. eauto.
Qed.

Lemma fresh_well_formed : well_formed default_config fresh.
Proof.
  split; [|split].
  - intros k v H. simpl in H. rewrite lookup_empty in H. discriminate.
  - intros k v H. simpl in H. rewrite lookup_empty in H. discriminate.
  - apply default_stats_shaped.
Qed.


End ShapeFacts.

(** ** The output table *)

Module TableFacts.
Import PyStr PyVal Normalizer Scoring Engine Defaults Invariants Fixtures.
Import Effects Tables ScoringFacts BatchFacts CacheFacts RunFacts MemoFacts
  ShapeFacts.
Local Open Scope engine_scope.

Lemma decide_labels (cfg : Config) (company : string)
    (bucket detailed hq emp rev industry_pass : pyval) (d : Decision) :
  decide cfg company bucket detailed hq emp rev industry_pass = Ok d ->
  decision d = "Qualified" \/ decision d = "Not Qualified".
Proof.
  unfold decide.
  destruct (legacy_qualify cfg company bucket detailed hq emp rev
              industry_pass) as [legacy|] eqn:Hl; [|discriminate].
  destruct (weighted_score cfg emp rev hq bucket industry_pass) as [h|];
    [|discriminate].
  assert (Hv : v_decision legacy = "Qualified"
               \/ v_decision legacy = "Not Qualified")
    by (destruct (legacy_verdicts _ _ _ _ _ _ _ _ _ Hl)
          as [(_&E&_)|(_&E&_)]; auto).
  destruct (String.eqb _ _); [intros [= <-]; exact Hv|].
  destruct (meets _ _); intros [= <-]; [left; reflexivity | exact Hv].
Qed.

Lemma classify_row_fields (cfg : Config)
    (oracle : nat -> string -> Z -> option string)
    (company title url : string) (idx : Z) (w w' : World) (r : rec) :
  classify_row cfg oracle company title url idx w = (Ok r, w') ->
  r_company r = company /\ r_title r = title
  /\ (r_decision r = "Qualified" \/ r_decision r = "Not Qualified").
Proof.
  unfold classify_row. intros H.
  do 8 (apply bind_ok in H as (? & ? & _ & H)).
  apply bind_ok in H as (dec & ? & Hdec & H).
  apply bind_ok in H as (? & ? & _ & H).
  unfold ret in H. injection H as <- _. unfold lift in Hdec.
  injection Hdec as Hdec _. simpl.
  split; [reflexivity|]. split; [reflexivity|].
  eapply decide_labels; eauto.
Qed.

Lemma increasing_snoc (rs : list rec) (r : rec) :
  increasing rs ->
  (forall x, x ∈ rs -> r_source_index x < r_source_index r) ->
  increasing (rs ++ [r]).
Proof.
  intros Hinc Hlt a b ra rb Ha Hb Hab.
  pose proof (lookup_lt_Some _ _ _ Hb) as Hbl. rewrite length_app in Hbl.
  simpl in Hbl.
  assert (Hal : (a < length rs)%nat) by lia.
  rewrite lookup_app_l in Ha by exact Hal.
  destruct (base.decide (b < length rs)%nat) as [Hb'|Hb'].
  - rewrite lookup_app_l in Hb by exact Hb'. eapply Hinc; eauto.
  - rewrite lookup_app_r in Hb by lia.
    replace (b - length rs)%nat with 0%nat in Hb by lia.
    injection Hb as <-. apply Hlt. eapply list_elem_of_lookup_2; eauto.
Qed.

Section Table.
Variable cfg : Config.
Variable oracle : nat -> string -> Z -> option string.
Variable total : nat.
Variable df : list Row.

Lemma row_step_table (k : nat) (row : Row) (w : World) :
  df !! k = Some row -> table_inv df k w ->
  table_inv df (S k) (row_step cfg oracle total (Z.of_nat k) row w).
Proof.
  intros Hrow (Hf & Hi & Hinc).
  assert (Hkeep : forall w', results w' = results w -> table_inv df (S k) w').
  { intros w' E. unfold table_inv. rewrite E. repeat split; auto.
    intros r Hr. specialize (Hi r Hr). lia. }
  destruct (row_step_cases cfg oracle total (Z.of_nat k) row w)
    as [[_ ->]|[(_ & _ & ->)|[(Hgate & r & w0 & w1 & Hsrc & He & Hw')
                            |(_ & _ & e & w0 & Hfail & ->)]]].
  - apply Hkeep. reflexivity.
  - apply Hkeep. reflexivity.
  - assert (Hr : results w0 = results w /\ faithful df r
                 /\ r_source_index r = Z.of_nat k).
    { destruct Hgate as (_ & Ht & Hc & _).
      destruct Hsrc as [(Hg & -> & ->)|(Hg & Hcls)].
      - split; [reflexivity|]. split; [|reflexivity].
        exists k, row. simpl. repeat split; auto.
      - pose proof (keeps_classify_row cfg oracle (company_of row)
                      (title_of row) (url_of row) (Z.of_nat k) w) as Hk.
        rewrite Hcls in Hk. destruct Hk as (_ & Hk & _).
        destruct (classify_row_record _ _ _ _ _ _ _ _ _ Hcls) as [Hu Hx].
        destruct (classify_row_fields _ _ _ _ _ _ _ _ _ Hcls)
          as (Hco & Hti & Hde).
        split; [exact Hk|]. split; [|exact Hx].
        exists k, row. rewrite Hco, Hti. repeat split; auto.
        intros Hng. congruence. }
    destruct Hr as (Hr0 & Hfr & Hidx).
    destruct (emit_spec r (Z.of_nat k) (url_of row) w0)
      as (w1' & He' & Hres & _).
    rewrite He in He'. injection He' as <-.
    assert (Hres' : results (row_step cfg oracle total (Z.of_nat k) row w)
                    = results w ++ [r]).
    { destruct Hw' as [-> | ->]; simpl; rewrite Hres, Hr0; reflexivity. }
    unfold table_inv. rewrite Hres'. repeat split.
    + intros x [Hx|Hx%list_elem_of_singleton]%elem_of_app;
        [auto | subst x; exact Hfr].
    + intros x [Hx|Hx%list_elem_of_singleton]%elem_of_app.
      * specialize (Hi x Hx). lia.
      * subst x. lia.
    + apply increasing_snoc; [exact Hinc|].
      intros x Hx. specialize (Hi x Hx). lia.
  - apply Hkeep. simpl.
    pose proof (keeps_classify_row cfg oracle (company_of row)
                  (title_of row) (url_of row) (Z.of_nat k) w) as Hk.
    rewrite Hfail in Hk. destruct Hk as (_ & Hk & _). exact Hk.
Qed.

Lemma loop_table (rows : list Row) (k : nat) (w : World) :
  (forall n row, rows !! n = Some row -> df !! (k + n)%nat = Some row) ->
  table_inv df k w ->
  table_inv df (k + length rows) (loop cfg oracle total (Z.of_nat k) rows w).
Proof.
  revert k w. induction rows as [|row rows IH]; intros k w Hdf Hinv; simpl.
  - rewrite Nat.add_0_r. exact Hinv.
  - replace (k + S (length rows))%nat with (S k + length rows)%nat by lia.
    replace (Z.of_nat k + 1) with (Z.of_nat (S k)) by lia.
    apply IH.
    + intros n r Hn. replace (S k + n)%nat with (k + S n)%nat by lia.
      apply Hdf. exact Hn.
    + apply row_step_table; [|exact Hinv].
      specialize (Hdf 0%nat row eq_refl). rewrite Nat.add_0_r in Hdf. exact Hdf.
Qed.

(** The loop adds records only for indices that were not processed
    when it started. *)
Lemma loop_new_indices (rows : list Row) (idx : Z) (w : World) :
  exists extra,
    results (loop cfg oracle total idx rows w) = results w ++ extra
    /\ (forall r, r ∈ extra -> r_source_index r ∉ processed w)
    /\ processed w ⊆ processed (loop cfg oracle total idx rows w).
Proof.
  revert idx w. induction rows as [|row rows IH]; intros idx w; simpl.
  - exists []. rewrite app_nil_r. split; [reflexivity|].
    split; [intros r Hr; apply elem_of_nil in Hr; contradiction|reflexivity].
  - destruct (IH (idx + 1) (row_step cfg oracle total idx row w))
      as (extra & Hres & Hidx & Hproc).
    destruct (row_step_kind cfg oracle total idx row w)
      as [Hr _ Hpr | r (Hnew & _) Hr Hri _ Hpr _].
    + assert (Hsub : processed w
                     ⊆ processed (row_step cfg oracle total idx row w)).
      { destruct Hpr as [-> | ->]; [reflexivity|].
        intros x Hx. apply elem_of_union. right. exact Hx. }
      exists extra. rewrite Hres, Hr. split; [reflexivity|]. split.
      * intros r Hin Hp. apply (Hidx r Hin). apply Hsub. exact Hp.
      * etrans; eauto.
    + assert (Hsub : processed w
                     ⊆ processed (row_step cfg oracle total idx row w)).
      { rewrite Hpr. intros x Hx. apply elem_of_union. right. exact Hx. }
      exists (r :: extra). rewrite Hres, Hr, <- app_assoc.
      split; [reflexivity|]. split.
      * intros r0 [->|Hin]%elem_of_cons; [rewrite Hri; exact Hnew|].
        intros Hp. apply (Hidx r0 Hin). apply Hsub. exact Hp.
      * etrans; eauto.
Qed.

Lemma loop_skips (rows : list Row) (idx : Z) (w : World) :
  (forall n, (n < length rows)%nat -> idx + Z.of_nat n ∈ processed w) ->
  loop cfg oracle total idx rows w = w.
Proof.
  revert idx. induction rows as [|row rows IH]; intros idx H; simpl;
    [reflexivity|].
  assert (H0 : idx ∈ processed w).
  { specialize (H 0%nat). rewrite Z.add_0_r in H. apply H. simpl. lia. }
  unfold Engine.row_step. rewrite bool_decide_eq_true_2 by exact H0.
  apply IH. intros n Hn.
  replace (idx + 1 + Z.of_nat n) with (idx + Z.of_nat (S n)) by lia.
  apply H. simpl. lia.
Qed.

End Table.

(** X20.  In a run that starts without checkpoint and partial table, every
    output record is the record of a row of the table: it carries the
    row's index and its stripped company, title and URL, both present,
    its decision is Qualified or Not Qualified, and it is the fixed
    Non-Game record when the title fails the gate; and the records come
    in the order of the rows, one per row at most. *)
Theorem records_follow_rows (cfg : Config)
    (oracle : nat -> string -> Z -> option string)
    (df : list Row) (w0 : World) :
  partial_csv w0 = None -> checkpoint_file w0 = None ->
  let w := process_dataframe cfg oracle df w0 in
  (forall r, r ∈ results w -> faithful df r)
  /\ increasing (results w)
  /\ (length (results w) <= length df)%nat.
Proof.
  intros Hpart Hchk. cbv zeta. unfold process_dataframe.
  set (start := resume w0).
  assert (Hstart : table_inv df 0 start).
  { unfold start, resume. rewrite Hpart. simpl. repeat split;
      try (intros ? H; apply elem_of_nil in H; contradiction).
    intros a b ra rb Ha. simpl in Ha. rewrite lookup_nil in Ha. discriminate. }
  pose proof (loop_table cfg oracle (length df) df df 0 start
                (fun n row H => H) Hstart) as (Hf & Hi & Hinc).
  change (Z.of_nat 0) with 0 in *. simpl in Hi.
  set (final := loop cfg oracle (length df) 0 df start) in *.
  change (results (finish final)) with (results final).
  split; [exact Hf|]. split; [exact Hinc|].
  (* an increasing list of indices below the length *)
  assert (Hbound : forall (rs : list rec) (n : nat),
             increasing rs ->
             (forall r, r ∈ rs -> 0 <= r_source_index r < Z.of_nat n) ->
             (length rs <= n)%nat).
  { intros rs. induction rs as [|r rs IH] using rev_ind; intros n Hincr Hb;
      [simpl; lia|].
    rewrite length_app. simpl.
    assert (Hr : 0 <= r_source_index r < Z.of_nat n).
    { apply Hb. apply elem_of_app. right. apply list_elem_of_singleton.
      reflexivity. }
    destruct n as [|n]; [lia|].
    assert (length rs <= n)%nat; [|lia].
    apply IH.
    - intros a b ra rb Ha Hb' Hab.
      apply (Hincr a b); [| |exact Hab].
      + rewrite lookup_app_l; [exact Ha | eapply lookup_lt_Some; eauto].
      + rewrite lookup_app_l; [exact Hb' | eapply lookup_lt_Some; eauto].
    - intros x Hx.
      assert (Hx0 : 0 <= r_source_index x < Z.of_nat (S n))
        by (apply Hb, elem_of_app; auto).
      split; [lia|].
      apply list_elem_of_lookup_1 in Hx as (a & Ha).
      assert (r_source_index x < r_source_index r); [|lia].
      apply (Hincr a (length rs)); [| |eapply lookup_lt_Some; eauto].
      + rewrite lookup_app_l; [exact Ha | eapply lookup_lt_Some; eauto].
      + rewrite lookup_app_r by lia. rewrite Nat.sub_diag. reflexivity. }
  apply Hbound; [exact Hinc|].
  intros r Hr. split; [|replace (0 + length df)%nat with (length df) in Hi by lia; auto].
  destruct (Hf r Hr) as (i & _ & _ & -> & _). lia.
Qed.

Lemma records_follow_rows_witness :
  increasing
    (results (process_dataframe default_config silent [tester; animator]
                fresh)).
Proof.
  destruct (records_follow_rows default_config silent
              [tester; animator] fresh eq_refl eq_refl) as (_ & H & _).
  exact H.
Defined.

(** X22.  A run never goes back to a checkpointed row.  Whatever the
    partial table on disk, the checkpoint written at the end contains
    the one read at the start, and when the checkpoint read covers every
    row of the table the run calls no component and leaves the three
    caches as they are.  When there is no partial table on disk, no
    output record carries a checkpointed index, and a checkpoint that
    covers every row gives the empty table. *)
Theorem resume_skips_checkpointed (cfg : Config)
    (oracle : nat -> string -> Z -> option string)
    (df : list Row) (w0 : World) :
  let w := process_dataframe cfg oracle df w0 in
  let done := default ∅ (checkpoint_file w0) in
  (exists p, checkpoint_file w = Some p /\ done ⊆ p)
  /\ ((forall i, (i < length df)%nat -> Z.of_nat i ∈ done) ->
      calls w = calls w0
      /\ classify_cache w = classify_cache w0
      /\ company_cache w = company_cache w0
      /\ industry_cache w = industry_cache w0)
  /\ (partial_csv w0 = None ->
      (forall r, r ∈ results w -> r_source_index r ∉ done)
      /\ ((forall i, (i < length df)%nat -> Z.of_nat i ∈ done) ->
          results w = [])).
Proof.
  cbv zeta. unfold process_dataframe.
  set (start := resume w0).
  assert (Hproc0 : default ∅ (checkpoint_file w0) ⊆ processed start).
  { unfold start, resume. intros i H.
    destruct (partial_csv w0) as [[|r rs]|];
      cbn [processed set_locals]; [exact H| |exact H].
    apply elem_of_union. left. exact H. }
  assert (Hsame : calls start = calls w0
                  /\ classify_cache start = classify_cache w0
                  /\ company_cache start = company_cache w0
                  /\ industry_cache start = industry_cache w0).
  { unfold start, resume. destruct (partial_csv w0) as [[|]|]; repeat split. }
  set (final := loop cfg oracle (length df) 0 df start).
  change (results (finish final)) with (results final).
  change (calls (finish final)) with (calls final).
  change (classify_cache (finish final)) with (classify_cache final).
  change (company_cache (finish final)) with (company_cache final).
  change (industry_cache (finish final)) with (industry_cache final).
  change (checkpoint_file (finish final)) with (Some (processed final)).
  destruct (loop_new_indices cfg oracle (length df) df 0 start)
    as (extra & Hres & Hnew & Hgrow).
  fold final in Hres, Hgrow.
  assert (Hskip : (forall i, (i < length df)%nat ->
                     Z.of_nat i ∈ default ∅ (checkpoint_file w0)) ->
                  final = start).
  { intros Hall. apply loop_skips. intros n Hn. apply Hproc0.
    rewrite Z.add_0_l. apply Hall. exact Hn. }
  split; [|split].
  - exists (processed final). split; [reflexivity|]. etrans; eauto.
  - intros Hall. rewrite (Hskip Hall). exact Hsame.
  - intros Hpart.
    assert (Hres0 : results start = [])
      by (unfold start, resume; rewrite Hpart; reflexivity).
    split.
    + intros r Hr. rewrite Hres, Hres0 in Hr. simpl in Hr.
      intros Hd. apply (Hnew r Hr). apply Hproc0. exact Hd.
    + intros Hall. rewrite (Hskip Hall). exact Hres0.
Qed.

Lemma resume_skips_checkpointed_witness :
  results (process_dataframe default_config Fixtures.silent
             [Fixtures.tester; Fixtures.animator] Fixtures.checkpointed)
  = []
  /\ calls (process_dataframe default_config Fixtures.silent
              [Fixtures.tester; Fixtures.animator] Fixtures.checkpointed)
     = [].
Proof.
  destruct (resume_skips_checkpointed default_config Fixtures.silent
              [Fixtures.tester; Fixtures.animator] Fixtures.checkpointed)
    as (_ & Hcalls & Hnone).
  assert (Hall : forall i : nat,
             (i < length [Fixtures.tester; Fixtures.animator])%nat ->
             Z.of_nat i
             ∈ default ∅ (checkpoint_file Fixtures.checkpointed)).
  { change (default ∅ (checkpoint_file Fixtures.checkpointed))
      with ({[0]} ∪ {[1]} : gset Z).
    intros [|[|i]] Hi; cbn [length] in Hi; [| |lia]; apply elem_of_union.
    - left. apply elem_of_singleton. reflexivity.
    - right. apply elem_of_singleton. reflexivity. }
  split.
  - destruct (Hnone eq_refl) as (_ & H). exact (H Hall).
  - destruct (Hcalls Hall) as (H & _). exact H.
Defined.

End TableFacts.

(** ** Failures, and the two ways to a record *)

Module PathFacts.
Import PyStr PyVal Normalizer Scoring Engine Defaults Invariants Fixtures.
Import Effects Tables ScoringFacts BatchFacts CacheFacts RunFacts MemoFacts
  ShapeFacts TableFacts.
Local Open Scope engine_scope.

Lemma decide_ok_score (cfg : Config) (company : string)
    (bucket detailed hq emp rev industry_pass : pyval) (d : Decision) :
  decide cfg company bucket detailed hq emp rev industry_pass = Ok d ->
  exists h, weighted_score cfg emp rev hq bucket industry_pass = Ok h.
Proof.
  unfold decide.
  destruct (legacy_qualify _ _ _ _ _ _ _ _); [|discriminate].
  destruct (weighted_score cfg emp rev hq bucket industry_pass);
    [eauto|discriminate].
Qed.

(** X16.  The batch processor and the single-row helper agree: for the
    same company, title and state, the record the batch loop builds for a
    row that reaches the gate, whether its title passes or not, is the
    record made of the outcome of [run_icp_engine_logic], with the same
    calls and the same cache writes, and one raises exactly when the
    other does. *)
Theorem batch_row_matches_helper (cfg : Config)
    (oracle : nat -> string -> Z -> option string)
    (company title url : string) (idx : Z) (w : World) :
  (if is_game_role title
   then classify_row cfg oracle company title url idx w
   else (Ok (non_game_rec company title url idx), w))
  = match run_icp_engine_logic cfg oracle company title w with
    | (Ok o, w') => (Ok (rec_of company title url idx o), w')
    | (Raise e, w') => (Raise e, w')
    end.
Proof.
  unfold run_icp_engine_logic, classify_row.
  destruct (is_game_role title); cbn [negb]; [|reflexivity].
  unfold bind at 1 11.
  destruct (classify_service cfg oracle title w) as [[svc|e] wa];
    [|reflexivity].
  unfold bind at 1 10.
  destruct (get_company_info cfg oracle company wa) as [[info|e] wb];
    [|reflexivity].
  unfold bind at 1 9.
  destruct (detect_industry cfg oracle company title wb) as [[ind|e] wc];
    [|reflexivity].
  unfold bind, lift, ret.
  destruct (subscript svc "service_bucket") as [bucket|]; [|reflexivity].
  destruct (subscript svc "detailed_service") as [detailed|]; [|reflexivity].
  destruct (subscript info "hq_country") as [hq|]; [|reflexivity].
  destruct (subscript info "employees") as [emp|]; [|reflexivity].
  destruct (subscript info "revenue") as [rev|]; [|reflexivity].
  destruct (decide cfg company bucket detailed hq emp rev ind) as [dec|] eqn:E;
    [|reflexivity].
  destruct (decide_ok_score _ _ _ _ _ _ _ _ _ E) as (h & ->).
  reflexivity.
Qed.

Lemma industry_key_title (company t1 t2 : string) :
  industry_key company t1 = industry_key company t2 ->
  normalize_title t1 = normalize_title t2.
Proof.
  unfold industry_key. intros H.
  apply (String.app_inj (strip (lower company))) in H.
  apply (String.app_inj "||") in H. exact H.
Qed.

(** X11.  The industry answer is cached per company and title: for a
    company that no list and no name token decides, the answer stored for
    one title is not used for a title of another normalized form; when
    the cache has no entry for the second one either, the oracle is asked
    once more, and its new answer decides. *)
Theorem industry_answer_per_title (cfg : Config)
    (oracle : nat -> string -> Z -> option string)
    (company title1 title2 : string) (w w1 : World) (v1 : pyval) :
  normalize_title title1 <> normalize_title title2 ->
  industry_cache w !! industry_key company title2 = None ->
  mem (strip (lower company)) (forced_non_gaming cfg) = false ->
  existsb (fun n => contains n (strip (lower company)))
    (trusted_game_companies cfg) = false ->
  any_in name_tokens (strip (lower company)) = false ->
  detect_industry cfg oracle company title1 w = (Ok v1, w1) ->
  exists w2,
    detect_industry cfg oracle company title2 w1
    = (Ok (PBool (says_yes (strip <$> oracle (oracle_calls w1)
                                        (industry_prompt company) 12))), w2)
    /\ oracle_calls w2 = S (oracle_calls w1).
Proof.
  intros Hne Hmiss Hf Htr Htok Hrun.
  assert (Hmiss1 : industry_cache w1 !! industry_key company title2 = None).
  { revert Hrun. rewrite detect_industry_cases.
    destruct (industry_cache w !! industry_key company title1);
      [|destruct (fresh_answer cfg oracle company w) as [b []]];
      intros [= <- <-]; caches; try exact Hmiss;
      (rewrite lookup_insert_ne; [exact Hmiss|]);
      intros Heq; apply Hne; eapply industry_key_title; exact Heq. }
  rewrite detect_industry_cases, Hmiss1. unfold fresh_answer.
  rewrite Hf, Htr, Htok. eexists. split; [reflexivity|]. count_calls.
Qed.

Lemma industry_answer_per_title_witness :
  exists w1 w2,
    detect_industry default_config (fun _ _ _ => Some "YES") "Acme Corp"
      "Game Designer" fresh = (Ok (PBool true), w1)
    /\ detect_industry default_config (fun _ _ _ => Some "YES") "Acme Corp"
         "Game Producer" w1 = (Ok (PBool true), w2)
    /\ oracle_calls w2 = S (oracle_calls w1).
Proof.
  destruct (detect_industry default_config (fun _ _ _ => Some "YES")
              "Acme Corp" "Game Designer" fresh) as [r w1] eqn:E.
  assert (Hr : r = Ok (PBool true)).
  { assert (E' := f_equal fst E). vm_compute in E'. congruence. }
  subst r.
  destruct (industry_answer_per_title default_config
              (fun _ _ _ => Some "YES") "Acme Corp" "Game Designer"
              "Game Producer" fresh w1 (PBool true))
    as (w2 & H1 & H2);
    [vm_compute; discriminate | reflexivity | vm_compute; reflexivity
    | vm_compute; reflexivity | vm_compute; reflexivity | exact E |].
  exists w1, w2. split; [reflexivity|]. split; [exact H1 | exact H2].
Defined.

(** X21.  A row whose classification raises is left for a later run: its
    index is not marked processed, no record is added and its URL is not
    remembered; the loop goes on after writing the partial table, the
    checkpoint and the caches, with the cache entries made before the
    failure. *)
Theorem failed_row_left_unmarked (cfg : Config)
    (oracle : nat -> string -> Z -> option string)
    (total : nat) (idx : Z) (row : Row) (w w0 : World) (e : exn) :
  reaches_gate idx row w ->
  is_game_role (title_of row) = true ->
  classify_row cfg oracle (company_of row) (title_of row) (url_of row) idx w
  = (Raise e, w0) ->
  let w' := row_step cfg oracle total idx row w in
  w' = save_all w0
  /\ (idx ∉ processed w')
  /\ results w' = results w /\ seen_urls w' = seen_urls w
  /\ partial_csv w' = Some (results w)
  /\ checkpoint_file w' = Some (processed w)
  /\ classify_file w' = Some (classify_cache w0)
  /\ company_file w' = Some (company_cache w0)
  /\ industry_file w' = Some (industry_cache w0).
Proof.
  intros Hgate Hg Hrow. cbv zeta.
  pose proof (keeps_classify_row cfg oracle (company_of row) (title_of row)
                (url_of row) idx w) as Hk.
  rewrite Hrow in Hk. destruct Hk as (Hp & Hr & Hs). cbn [snd] in *.
  assert (E : row_step cfg oracle total idx row w = save_all w0).
  { destruct (row_step_cases cfg oracle total idx row w)
      as [[Hin _]|[(_ & Hng & _)|[(_ & r & wa & wb & Hsrc & _)
                                |(_ & _ & e' & w0' & Hrow' & ->)]]].
    - destruct Hgate as (Hn & _). contradiction.
    - contradiction.
    - destruct Hsrc as [(Hg' & _)|(_ & Hok)]; congruence.
    - congruence. }
  rewrite E. split; [reflexivity|].
  destruct Hgate as (Hn & _).
  split; [simpl; rewrite Hp; exact Hn|].
  simpl. rewrite Hp, Hr, Hs. repeat split.
Qed.

Lemma failed_row_left_unmarked_witness :
  (0 ∉ processed (row_step default_config reply_seven 2 0 tester fresh))
  /\ results (row_step default_config reply_seven 2 0 tester fresh) = [].
Proof.
  destruct (classify_row default_config reply_seven (company_of tester)
              (title_of tester) (url_of tester) 0 fresh) as [r w0] eqn:E.
  assert (Hr : r = Raise TypeError).
  { assert (E' := f_equal fst E). vm_compute in E'. congruence. }
  subst r.
  destruct (failed_row_left_unmarked default_config reply_seven 2 0 tester
              fresh w0 TypeError) as (_ & H1 & H2 & _).
  - repeat split; try (vm_compute; reflexivity).
    + intros H. apply not_elem_of_empty in H. exact H.
    + right. intros H. apply not_elem_of_empty in H. exact H.
  - vm_compute. reflexivity.
  - exact E.
  - split; [exact H1 | exact H2].
Defined.

End PathFacts.

(** ** The row-by-row helper of the dashboard *)

Module DashboardRunFacts.
Import PyStr PyVal Normalizer Scoring Engine Defaults Invariants Fixtures.
Import Effects Tables ScoringFacts BatchFacts CacheFacts RunFacts MemoFacts
  ShapeFacts TableFacts.
Local Open Scope engine_scope.

Lemma kept_refl (w : World) : batch_state_kept w w.
Proof. repeat split. Qed.

Lemma kept_trans (w1 w2 w3 : World) :
  batch_state_kept w1 w2 -> batch_state_kept w2 w3 -> batch_state_kept w1 w3.
Proof.
  unfold batch_state_kept. intros (?&?&?&?&?&?) (?&?&?&?&?&?).
  repeat split; congruence.
Qed.

Section Kept.
Variable cfg : Config.
Variable oracle : nat -> string -> Z -> option string.

Lemma kept_classify_service (title : string) (w : World) :
  batch_state_kept w (snd (classify_service cfg oracle title w)).
Proof.
  rewrite classify_service_cases.
  destruct (classify_cache w !! normalize_title title);
    [|destruct (classify_service_rule cfg title);
      [|destruct (has_keys _ _) as [[]|]]]; repeat split.
Qed.

Lemma kept_get_company_info (company : string) (w : World) :
  batch_state_kept w (snd (get_company_info cfg oracle company w)).
Proof.
  rewrite get_company_info_cases.
  destruct (TRUSTED_STATS cfg !! strip (lower company));
    [|destruct (company_cache w !! strip (lower company));
      [|destruct (has_keys _ _) as [[]|]]]; repeat split.
Qed.

Lemma kept_detect_industry (company title : string) (w : World) :
  batch_state_kept w (snd (detect_industry cfg oracle company title w)).
Proof.
  rewrite detect_industry_cases.
  destruct (industry_cache w !! industry_key company title);
    [|destruct (fresh_answer cfg oracle company w) as [b []]]; repeat split.
Qed.

Lemma kept_run_icp_engine_logic (company title : string) (w : World) :
  batch_state_kept w (snd (run_icp_engine_logic cfg oracle company title w)).
Proof.
  unfold run_icp_engine_logic.
  destruct (is_game_role title); cbn [negb]; [|apply kept_refl].
  unfold bind at 1.
  pose proof (kept_classify_service title w) as K1.
  destruct (classify_service cfg oracle title w) as [[svc|e] wa];
    cbn [snd] in *; [|exact K1].
  unfold bind at 1.
  pose proof (kept_get_company_info company wa) as K2.
  destruct (get_company_info cfg oracle company wa) as [[info|e] wb];
    cbn [snd] in *; [|eapply kept_trans; eauto].
  unfold bind at 1.
  pose proof (kept_detect_industry company title wb) as K3.
  destruct (detect_industry cfg oracle company title wb) as [[ind|e] wc];
    cbn [snd] in *; [|eapply kept_trans; [|exact K3]; eapply kept_trans; eauto].
  assert (K : batch_state_kept w wc)
    by (eapply kept_trans; [|exact K3]; eapply kept_trans; eauto).
  unfold bind, lift, ret.
  repeat match goal with
         | |- context [match ?x with Ok _ => _ | Raise _ => _ end] =>
             destruct x
         end; exact K.
Qed.

Lemma run_gate_fail (company title : string) (w w' : World) (o : Outcome)
    (url : string) (idx : Z) :
  is_game_role title = false ->
  run_icp_engine_logic cfg oracle company title w = (Ok o, w') ->
  rec_of company title url idx o = non_game_rec company title url idx.
Proof.
  intros Hg. unfold run_icp_engine_logic. rewrite Hg. cbn [negb].
  unfold ret. intros [= <- _]. reflexivity.
Qed.

Lemma qualify_rows_spec (rows : list Row) (idx : Z) (acc : list rec)
    (w w' : World) (rs : list rec) :
  qualify_rows cfg oracle idx rows acc w = (Ok rs, w') ->
  exists new,
    rs = acc ++ new /\ length new = length rows
    /\ forall (n : nat) (row : Row),
         rows !! n = Some row ->
         exists r,
           new !! n = Some r
           /\ r_source_index r = idx + Z.of_nat n
           /\ r_company r = row_company row /\ r_title r = row_title row
           /\ r_url r = default EmptyString (row_url row)
           /\ (is_game_role (row_title row) = false ->
               r = non_game_rec (row_company row) (row_title row)
                     (default EmptyString (row_url row)) (idx + Z.of_nat n)).
Proof.
  revert idx acc w. induction rows as [|row rows IH]; intros idx acc w; simpl.
  - unfold ret. intros [= <- _]. exists []. rewrite app_nil_r.
    split; [reflexivity|]. split; [reflexivity|].
    intros n r Hn. rewrite lookup_nil in Hn. discriminate.
  - intros H. apply bind_ok in H as (o & w1 & Ho & H).
    destruct (IH _ _ _ H) as (new & -> & Hlen & Hrows).
    exists (rec_of (row_company row) (row_title row)
              (default EmptyString (row_url row)) idx o :: new).
    split; [rewrite <- app_assoc; reflexivity|].
    split; [simpl; rewrite Hlen; reflexivity|].
    intros [|n] r Hn; simpl in Hn.
    + injection Hn as <-. eexists. split; [reflexivity|].
      rewrite Z.add_0_r. repeat split.
      intros Hg. eapply run_gate_fail; eauto.
    + destruct (Hrows n r Hn) as (x & Hx & Hi & Hrest).
      exists x. split; [exact Hx|].
      replace (idx + Z.of_nat (S n)) with (idx + 1 + Z.of_nat n) by lia.
      split; [exact Hi|]. exact Hrest.
Qed.

Lemma kept_qualify_rows (rows : list Row) (idx : Z) (acc : list rec)
    (w : World) :
  batch_state_kept w (snd (qualify_rows cfg oracle idx rows acc w)).
Proof.
  revert idx acc w. induction rows as [|row rows IH]; intros idx acc w; simpl.
  - apply kept_refl.
  - unfold bind.
    pose proof (kept_run_icp_engine_logic (row_company row) (row_title row) w)
      as K.
    destruct (run_icp_engine_logic cfg oracle (row_company row)
                (row_title row) w) as [[o|e] w1]; cbn [snd] in *; [|exact K].
    eapply kept_trans; [exact K | apply IH].
Qed.

Lemma qualify_rows_ok (rows : list Row) (idx : Z) (acc : list rec)
    (w : World) :
  benign_oracle oracle -> well_formed cfg w ->
  exists rs w', qualify_rows cfg oracle idx rows acc w = (Ok rs, w').
Proof.
  intros Hb. revert idx acc w.
  induction rows as [|row rows IH]; intros idx acc w Hw; simpl.
  - eexists _, _. reflexivity.
  - destruct (run_icp_engine_logic_ok cfg oracle Hb (row_company row)
                (row_title row) w Hw) as (o & w1 & Ho & Hw1).
    unfold bind. rewrite Ho. apply IH. exact Hw1.
Qed.

End Kept.


End DashboardRunFacts.

(** ** The summary of the dashboard *)

Module ChartFacts.
Import PyStr PyVal Normalizer Scoring Engine Defaults Dashboard.
Import Tables BatchFacts TableFacts DashboardRunFacts.
Local Open Scope engine_scope.

Lemma run_outcome_labelled (cfg : Config)
    (oracle : nat -> string -> Z -> option string)
    (company title : string) (w w' : World) (o : Outcome) :
  run_icp_engine_logic cfg oracle company title w = (Ok o, w') ->
  o_decision o = "Qualified" \/ o_decision o = "Not Qualified".
Proof.
  unfold run_icp_engine_logic. destruct (is_game_role title); cbn [negb].
  - intros H.
    do 8 (apply bind_ok in H as (? & ? & _ & H)).
    apply bind_ok in H as (dec & ? & Hdec & H).
    unfold ret in H. injection H as <- _. unfold lift in Hdec.
    injection Hdec as Hdec _. simpl. eapply decide_labels; eauto.
  - unfold ret. intros [= <- _]. right. reflexivity.
Qed.

Lemma qualify_rows_labelled (cfg : Config)
    (oracle : nat -> string -> Z -> option string)
    (rows : list Row) (idx : Z) (acc : list rec) (w w' : World)
    (rs : list rec) :
  qualify_rows cfg oracle idx rows acc w = (Ok rs, w') ->
  Forall labelled acc -> Forall labelled rs.
Proof.
  revert idx acc w. induction rows as [|row rows IH]; intros idx acc w; simpl.
  - unfold ret. intros [= <- _] H. exact H.
  - intros H Hacc. apply bind_ok in H as (o & w1 & Ho & H).
    eapply IH; [exact H|]. apply Forall_app. split; [exact Hacc|].
    constructor; [|constructor]. unfold labelled. simpl.
    eapply run_outcome_labelled; eauto.
Qed.

Lemma count_labels (rs : list rec) :
  Forall labelled rs ->
  (length (filter (fun r => r_decision r = "Qualified") rs)
   + length (filter (fun r => r_decision r = "Not Qualified") rs)
   = length rs)%nat.
Proof.
  induction 1 as [|r rs Hr _ IH]; [reflexivity|].
  rewrite !filter_cons. simpl.
  destruct Hr as [E|E]; rewrite E;
    repeat case_decide; try congruence; try discriminate; simpl; lia.
Qed.

(** X25.  The summary of the dashboard counts what the engine returned:
    for the table of a run of [run_qualification] over at least one row,
    the two slices of the pie chart are the numbers of rows decided
    Qualified and Not Qualified and add up to the number of input rows;
    over no rows the table has no columns and the dashboard raises
    [KeyError] before it counts; every row of the table has one of the
    two decisions, and the flag the ranking sorts by is set exactly on
    the rows decided Qualified. *)
Theorem pie_counts_exact (cfg : Config)
    (oracle : nat -> string -> Z -> option string)
    (df : list Row) (w w' : World) (rs : list rec) :
  run_qualification cfg oracle df w = (Ok rs, w') ->
  (df = [] -> pie_counts rs = Raise KeyError)
  /\ (df <> [] ->
      pie_counts rs
      = Ok (length (filter (fun r => r_decision r = "Qualified") rs),
            length (filter (fun r => r_decision r = "Not Qualified") rs))
      /\ (length (filter (fun r => r_decision r = "Qualified") rs)
          + length (filter (fun r => r_decision r = "Not Qualified") rs)
          = length df)%nat)
  /\ forall r, r ∈ rs ->
       (r_decision r = "Qualified" \/ r_decision r = "Not Qualified")
       /\ (qualified_flag r = true <-> r_decision r = "Qualified").
Proof.
  intros Hrun.
  assert (Hlab : Forall labelled rs).
  { eapply qualify_rows_labelled; [exact Hrun | constructor]. }
  assert (Hlen : length rs = length df).
  { unfold run_qualification in Hrun.
    destruct (qualify_rows_spec cfg oracle _ _ _ _ _ _ Hrun)
      as (new & -> & Hlen & _). exact Hlen. }
  pose proof (count_labels rs Hlab) as Hcount.
  split; [|split].
  - intros ->. destruct rs; [reflexivity|discriminate].
  - intros Hne. split; [|lia].
    destruct rs as [|r0 rs0]; [destruct df; [congruence|discriminate]|].
    unfold pie_counts, qualified. do 2 f_equal. lia.
  - intros r Hr. rewrite Forall_forall in Hlab. specialize (Hlab r Hr).
    split; [exact Hlab|]. unfold qualified_flag.
    destruct Hlab as [E|E]; rewrite E; simpl; split; intros; congruence.
Qed.

Lemma pie_counts_exact_witness :
  exists rs w' q n,
    run_qualification default_config Fixtures.silent
      [Fixtures.tester; Fixtures.animator] fresh = (Ok rs, w')
    /\ pie_counts rs = Ok (q, n) /\ (q + n = 2)%nat.
Proof.
  destruct (run_qualification default_config Fixtures.silent
              [Fixtures.tester; Fixtures.animator] fresh)
    as [[rs|e] w'] eqn:E; [|vm_compute in E; discriminate].
  destruct (pie_counts_exact _ _ _ _ _ _ E) as (_ & H & _).
  destruct H as (Hp & Hs); [discriminate|].
  exists rs, w'. eexists _, _. split; [reflexivity|].
  split; [exact Hp|exact Hs].
Defined.

End ChartFacts.

(** ** The request limiter *)

Module LimiterFacts.
Import PyStr Limiter.

Section Clock.
Variable time : Type.
Variable expired : time -> time -> bool.

Lemma acquire_bounds (a : Attempt time) (l : Window time) :
  let l' := fst (acquire time expired a l) in
  CALLS_IN_WINDOW time l' <= RPM_LIMIT
  /\ (0 <= CALLS_IN_WINDOW time l -> 1 <= CALLS_IN_WINDOW time l')
  /\ (snd (acquire time expired a l) = true ->
      expired (now time a) (WINDOW_START time l) = false
      /\ RPM_LIMIT <= CALLS_IN_WINDOW time l).
Proof.
  cbv zeta. unfold acquire, RPM_LIMIT.
  destruct (expired (now time a) (WINDOW_START time l)); simpl.
  - repeat split; try lia; try discriminate.
  - destruct (Z.leb_spec 28 (CALLS_IN_WINDOW time l)); simpl;
      repeat split; try lia; try discriminate.
Qed.

Lemma attempts_spec (env : nat -> Attempt time) (n k : nat) (l : Window time) :
  let '(out, l', sent) := attempts time expired env n k l in
  (0 <= CALLS_IN_WINDOW time l <= RPM_LIMIT ->
   0 <= CALLS_IN_WINDOW time l' <= RPM_LIMIT)
  /\ (sent <= n)%nat
  /\ (0 < n -> 1 <= sent)%nat
  /\ (out = None ->
      sent = n /\ forall j, (j < n)%nat -> reply time (env (k + j)%nat) = None)
  /\ (forall c, out = Some c ->
        exists j content,
          (j < n)%nat /\ reply time (env (k + j)%nat) = Some content
          /\ c = strip content /\ sent = S j
          /\ forall i, (i < j)%nat -> reply time (env (k + i)%nat) = None).
Proof.
  revert k l. induction n as [|n IH]; intros k l; simpl.
  - repeat split; try lia; try discriminate.
  - pose proof (acquire_bounds (env k) l) as (B1 & B2 & _). cbv zeta in *.
    destruct (reply time (env k)) as [content|] eqn:E.
    + split; [intros; lia|]. split; [lia|]. split; [lia|].
      split; [discriminate|]. intros c [= <-].
      exists 0%nat, content. rewrite Nat.add_0_r.
      repeat split; try lia; auto.
    + specialize (IH (S k) (fst (acquire time expired (env k) l))).
      destruct (attempts time expired env n (S k)
                  (fst (acquire time expired (env k) l)))
        as [[out l''] sent].
      destruct IH as (I1 & I2 & I3 & I4 & I5).
      split; [intros; apply I1; lia|]. split; [lia|]. split; [lia|].
      split.
      * intros Hn. destruct (I4 Hn) as [-> Hall]. split; [reflexivity|].
        intros [|j] Hj; [rewrite Nat.add_0_r; exact E|].
        replace (k + S j)%nat with (S k + j)%nat by lia. apply Hall. lia.
      * intros c Hc. destruct (I5 c Hc) as (j & content & Hj & Hr & -> & -> & Hb).
        exists (S j), content.
        replace (k + S j)%nat with (S k + j)%nat by lia.
        repeat split; try lia; auto.
        intros [|i] Hi; [rewrite Nat.add_0_r; exact E|].
        replace (k + S i)%nat with (S k + i)%nat by lia. apply Hb. lia.
Qed.

End Clock.

(** X5.  The limiter keeps its counter within the limit and the retries
    within four: whatever the clock reads, after a call to
    [rate_limited_groq] the counter of the window lies between 0 and 28
    if it did before; without a client nothing is sent and the window is
    untouched; with one, between one and four requests are sent; the
    call returns the stripped content of the first request that
    succeeds, and nothing exactly when all four fail. *)
Theorem limiter_within_bounds (time : Type) (expired : time -> time -> bool)
    (client : bool) (env : nat -> Attempt time) (l : Window time) :
  let res := rate_limited_groq_body time expired client env l in
  let out := fst (fst res) in
  let l' := snd (fst res) in
  let sent := snd res in
  (0 <= CALLS_IN_WINDOW time l <= RPM_LIMIT ->
   0 <= CALLS_IN_WINDOW time l' <= RPM_LIMIT)
  /\ (sent <= 4)%nat
  /\ (client = false -> out = None /\ l' = l /\ sent = 0%nat)
  /\ (client = true -> (1 <= sent)%nat)
  /\ (client = true -> out = None ->
      sent = 4%nat /\ forall j, (j < 4)%nat -> reply time (env j) = None)
  /\ (forall c, out = Some c ->
        exists j content,
          (j < 4)%nat /\ reply time (env j) = Some content
          /\ c = strip content /\ sent = S j
          /\ forall i, (i < j)%nat -> reply time (env i) = None).
Proof.
  cbv zeta. unfold rate_limited_groq_body. destruct client.
  - pose proof (attempts_spec time expired env 4 0 l) as H.
    destruct (attempts time expired env 4 0 l) as [[out l'] sent].
    destruct H as (H1 & H2 & H3 & H4 & H5). cbn [fst snd].
    split; [exact H1|]. split; [exact H2|]. split; [discriminate|].
    split; [intros _; apply H3; lia|]. split; [intros _; exact H4|exact H5].
  - cbn [fst snd]. split; [auto|]. split; [lia|]. split; [auto|].
    split; [discriminate|]. split; [discriminate|]. discriminate.
Qed.

End LimiterFacts.

(** ** The link cell *)

Module LinkFacts.
Import PyStr Dashboard Shapes.

Lemma all_chars_app (p : ascii -> bool) (a b : string) :
  all_chars p (a +:+ b) = all_chars p a && all_chars p b.
Proof.
  induction a as [|c a IH]; simpl; [reflexivity|].
  rewrite IH, andb_assoc. reflexivity.
Qed.

Lemma replace_quote (u : string) :
  let safe := replace (String dquote EmptyString) "%22" u in
  all_chars (fun c => negb (is_code 34 c)) safe = true
  /\ (all_chars (fun c => negb (is_code 34 c)) u = true -> safe = u).
Proof.
  cbv zeta. unfold replace. cbn [is_empty].
  induction u as [|c r [IH1 IH2]]; [split; reflexivity|].
  cbn [replace_go startswith String.length Nat.sub].
  destruct (ascii_dec dquote c) as [<-|Hne].
  - split; [|simpl; discriminate].
    rewrite all_chars_app, IH1. reflexivity.
  - assert (Hc : is_code 34 c = false).
    { destruct c as [[] [] [] [] [] [] [] []]; try reflexivity.
      exfalso. apply Hne. reflexivity. }
    cbn [all_chars]. rewrite Hc, IH1. split; [reflexivity|].
    cbn [negb andb]. intros H. rewrite (IH2 H). reflexivity.
Qed.

(** X24.  The link cell never breaks out of its attribute: an empty URL
    gives an empty cell; otherwise the cell is an anchor whose [href]
    value, the URL with every double quote replaced by [%22], contains
    no double quote, and is the URL itself when the URL has none. *)
Theorem make_link_quotes (u : string) :
  make_link EmptyString = EmptyString
  /\ (u <> EmptyString ->
      exists safe,
        make_link u
        = "<a href=" +:+ String dquote safe +:+ String dquote " target="
          +:+ String dquote "_blank" +:+ String dquote ">open</a>"
        /\ all_chars (fun c => negb (is_code 34 c)) safe = true
        /\ (all_chars (fun c => negb (is_code 34 c)) u = true -> safe = u)).
Proof.
  split; [reflexivity|]. intros Hne.
  exists (replace (String dquote EmptyString) "%22" u).
  split; [destruct u; [congruence|reflexivity]|].
  apply replace_quote.
Qed.

End LinkFacts.
